(** * PoolParty: a covert channel over a shared WebSocket pool

    Shallow embedding of [static/inner.js] and verification of its
    integer codec, pool primitives, role negotiation and pulse protocol.

    JavaScript numbers are binary64 values.  The codec is embedded
    twice.  [Double] follows the source on numbers as the engine computes
    them: every result rounded to nearest, overflow to Infinity, NaN.
    [Codec] is the same code on whole numbers, in [Z]; it is what the
    engine computes as long as every number it forms is a whole number of
    magnitude at most 2^53 ([DoubleFacts.bigIntegerToList_agrees],
    [DoubleFacts.listToBigInteger_agrees],
    [DoubleFacts.bigIntegerToHex_agrees]), which holds for both shipped
    configurations (the largest number ever formed is 2 * 16^9).  The page
    model uses [Codec], and counts sockets and milliseconds in [Z].
    Wall-clock targets, which may be fractional ((i + 1.25) * pulseMs),
    are modelled as [Q]. *)

From Stdlib Require Import ZArith QArith Qround Qabs Qpower Lia String Ascii.
From stdpp Require Import base list sets.

Close Scope Q_scope.
Open Scope Z_scope.

(** ** IntegerCodec, on whole numbers *)

(** The three functions of the codec where every number is whole and of
    magnitude at most 2^53, so that no operation rounds. *)
Module Codec.

(** [for (let i = listSize - 1; i >= 0; --i) result = result * max + list[i]].
    The counter [n] is [i + 1].  Reading past the end of the array yields
    [undefined], which turns the accumulator into NaN for good: [None]. *)
Fixpoint listToBigInteger_loop (lst : list Z) (maxSmallInteger : Z)
    (n : nat) (result : Z) : option Z :=
  match n with
  | O => Some result
  | S i =>
      match lst !! i with
      | Some d => listToBigInteger_loop lst maxSmallInteger i
                    (result * maxSmallInteger + d)
      | None => None
      end
  end.

Definition listToBigInteger (lst : list Z) (listSize maxSmallInteger : Z)
    : option Z :=
  listToBigInteger_loop lst maxSmallInteger (Z.to_nat listSize) 0.

(** [for (let i = 0; i < listSize; ++i) { remainder = feed % max;
      list.push(remainder); feed = (feed - remainder) / max; }].
    [%] is the truncating remainder [Z.rem]; the division is exact
    (see [division_exact]), so [Z.quot] gives JavaScript's quotient. *)
Fixpoint bigIntegerToList_loop (n : nat) (feed maxSmallInteger : Z)
    (lst : list Z) : list Z :=
  match n with
  | O => lst
  | S n' =>
      let remainder := Z.rem feed maxSmallInteger in
      bigIntegerToList_loop n'
        (Z.quot (feed - remainder) maxSmallInteger) maxSmallInteger
        (lst ++ [remainder])
  end.

Definition bigIntegerToList (bigInteger listSize maxSmallInteger : Z)
    : list Z :=
  bigIntegerToList_loop (Z.to_nat listSize) bigInteger maxSmallInteger [].

(** [Math.ceil(a / b)] for integers [a] and [b > 0]. *)
Definition Math_ceil_div (a b : Z) : Z := - ((- a) / b).

Definition hexDigit (d : Z) : ascii :=
  match d with
  | 0 => "0" | 1 => "1" | 2 => "2" | 3 => "3" | 4 => "4" | 5 => "5"
  | 6 => "6" | 7 => "7" | 8 => "8" | 9 => "9" | 10 => "a" | 11 => "b"
  | 12 => "c" | 13 => "d" | 14 => "e" | _ => "f"
  end%char.

(** Digits of a positive integer, least significant first, pushed in
    front of [acc]. *)
Fixpoint hexDigits (fuel : nat) (n : Z) (acc : string) : string :=
  match fuel with
  | O => acc
  | S fuel' =>
      let acc' := String (hexDigit (n mod 16)) acc in
      if n / 16 =? 0 then acc' else hexDigits fuel' (n / 16) acc'
  end.

(** [Number.prototype.toString(16)] on an integer. *)
Definition toString16 (n : Z) : string :=
  if n <? 0
  then String "-"%char (hexDigits (S (Z.to_nat (Z.log2 (- n)))) (- n) "")
  else hexDigits (S (Z.to_nat (Z.log2 n))) n "".

(** [String.prototype.slice(1)]. *)
Definition slice1 (s : string) : string :=
  match s with
  | EmptyString => EmptyString
  | String _ s' => s'
  end.

(** [(bigInteger + Math.pow(16, nHexDigits)).toString(16).slice(1)] *)
Definition bigIntegerToHex (bigInteger numBits : Z) : string :=
  let nHexDigits := Math_ceil_div numBits 4 in
  slice1 (toString16 (bigInteger + 16 ^ nHexDigits)).

(** What the specification asks of the hex string: the [k] hexadecimal
    digits of [x], most significant first, zeros included. *)
Fixpoint fixedHex (k : nat) (x : Z) : string :=
  match k with
  | O => EmptyString
  | S k' =>
      String.append (fixedHex k' (x / 16))
        (String (hexDigit (x mod 16)) EmptyString)
  end.

Definition hexValue (c : ascii) : option Z :=
  let code := Z.of_nat (nat_of_ascii c) in
  if (48 <=? code) && (code <=? 57) then Some (code - 48)
  else if (97 <=? code) && (code <=? 102) then Some (code - 87)
  else None.

(** Reading a hex string back, most significant digit first. *)
Fixpoint parseHex (s : string) (v : Z) : option Z :=
  match s with
  | EmptyString => Some v
  | String c s' =>
      match hexValue c with
      | Some d => parseHex s' (16 * v + d)
      | None => None
      end
  end.

End Codec.

(** ** Numbers as the engine computes them *)

Module Double.

(** A JavaScript number: a finite value, an infinity or NaN.  The finite
    values the operations below produce are binary64 values, held as
    exact rationals.  Zero has one representation: the sign of a zero
    changes no result of the three codec functions, except as a divisor,
    and they never divide by a zero they have computed. *)
Inductive number := Num (q : Q) | Infinity | NegInfinity | NaN.

Definition of_Z (z : Z) : number := Num (inject_Z z).

(** The largest [k] with 2^k <= q, for [q > 0]. *)
Definition ilog2 (q : Q) : Z :=
  let k := Z.log2 (Qnum q) - Z.log2 (Z.pos (Qden q)) in
  if Qle_bool (2 ^ k) q then k else k - 1.

(** The nearest integer, a tie going to the even one. *)
Definition round_half_even (q : Q) : Z :=
  let f := Qfloor q in
  match (q - inject_Z f ?= 1 # 2)%Q with
  | Lt => f
  | Gt => f + 1
  | Eq => if Z.even f then f else f + 1
  end.

(** Rounding of an exact result to binary64, to nearest, ties to even:
    53 significant bits, the least one worth no less than 2^-1074;
    what rounds to 2^1024 or beyond overflows. *)
Definition round (q : Q) : number :=
  if Qeq_bool q 0 then Num 0
  else
    let e := Z.max (ilog2 (Qabs q) - 52) (-1074) in
    let r := (inject_Z (round_half_even (q / 2 ^ e)) * 2 ^ e)%Q in
    if Qle_bool (2 ^ 1024) (Qabs r)
    then if Qle_bool 0 q then Infinity else NegInfinity
    else Num (Qred r).

Definition neg (a : number) : number :=
  match a with
  | Num x => Num (Qred (- x))
  | Infinity => NegInfinity
  | NegInfinity => Infinity
  | NaN => NaN
  end.

(** [a + b] *)
Definition add (a b : number) : number :=
  match a, b with
  | NaN, _ | _, NaN => NaN
  | Num x, Num y => round (x + y)
  | Infinity, NegInfinity | NegInfinity, Infinity => NaN
  | Infinity, _ | _, Infinity => Infinity
  | NegInfinity, _ | _, NegInfinity => NegInfinity
  end.

(** [a - b] *)
Definition sub (a b : number) : number := add a (neg b).

Definition signed_infinity (negative : bool) : number :=
  if negative then NegInfinity else Infinity.

Definition negative (a : number) : bool :=
  match a with
  | Num x => negb (Qle_bool 0 x)
  | NegInfinity => true
  | _ => false
  end.

Definition is_zero (a : number) : bool :=
  match a with Num x => Qeq_bool x 0 | _ => false end.

(** [a * b] *)
Definition mul (a b : number) : number :=
  match a, b with
  | NaN, _ | _, NaN => NaN
  | Num x, Num y => round (x * y)
  | _, _ =>
      if is_zero a || is_zero b then NaN
      else signed_infinity (xorb (negative a) (negative b))
  end.

(** [a / b] *)
Definition div (a b : number) : number :=
  match a, b with
  | NaN, _ | _, NaN => NaN
  | Num x, Num y =>
      if Qeq_bool y 0
      then if Qeq_bool x 0 then NaN else signed_infinity (negative a)
      else round (x / y)
  | Num _, _ => Num 0
  | _, Num _ => signed_infinity (xorb (negative a) (negative b))
  | _, _ => NaN
  end.

(** [a % b]: the remainder of the division truncated towards zero, which
    takes the sign of the dividend and is exact. *)
Definition rem (a b : number) : number :=
  match a, b with
  | Num x, Num y =>
      if Qeq_bool y 0 then NaN
      else
        let quotient := (x / y)%Q in
        Num (Qred (x - y * inject_Z (Z.quot (Qnum quotient)
                                       (Z.pos (Qden quotient)))))
  | Num x, Infinity | Num x, NegInfinity => Num x
  | _, _ => NaN
  end.

(** [Math.ceil(a)] *)
Definition Math_ceil (a : number) : number :=
  match a with
  | Num x => Num (inject_Z (Qceiling x))
  | _ => a
  end.

(** [Math.pow(16, n)] for a whole number [n], as [Math.ceil] yields:
    the power of two 2^(4n), when binary64 has it. *)
Definition Math_pow_16 (n : number) : number :=
  match n with
  | Num x =>
      let k := Qfloor x in
      if 256 <=? k then Infinity
      else if k <=? -270 then Num 0
      else round (2 ^ (4 * k))
  | Infinity => Infinity
  | NegInfinity => Num 0
  | NaN => NaN
  end.

(** [a.toString(16)].  The digits after the point of a number that is
    not whole are left to the engine by the language definition; they
    are not modelled: [None]. *)
Definition toString16 (a : number) : option string :=
  match a with
  | Num x =>
      let x' := Qred x in
      if Z.pos (Qden x') =? 1 then Some (Codec.toString16 (Qnum x'))
      else None
  | Infinity => Some "Infinity"%string
  | NegInfinity => Some "-Infinity"%string
  | NaN => Some "NaN"%string
  end.

(** [list[i]] in arithmetic: a missing entry is [undefined], which
    counts as NaN. *)
Definition entry (lst : list number) (i : nat) : number :=
  match lst !! i with
  | Some d => d
  | None => NaN
  end.

(** [for (let i = listSize - 1; i >= 0; --i) result = result * max + list[i]];
    the counter [n] is [i + 1]. *)
Fixpoint listToBigInteger_loop (lst : list number) (maxSmallInteger : number)
    (n : nat) (result : number) : number :=
  match n with
  | O => result
  | S i =>
      listToBigInteger_loop lst maxSmallInteger i
        (add (mul result maxSmallInteger) (entry lst i))
  end.

(** Convert a list of small integers to a big integer.  [listSize] is a
    whole number, as [pool.listSize] is. *)
Definition listToBigInteger (lst : list number) (listSize : Z)
    (maxSmallInteger : number) : number :=
  listToBigInteger_loop lst maxSmallInteger (Z.to_nat listSize) (Num 0).

(** [for (let i = 0; i < listSize; ++i) { remainder = feed % max;
      list.push(remainder); feed = (feed - remainder) / max; }] *)
Fixpoint bigIntegerToList_loop (n : nat) (feed maxSmallInteger : number)
    (lst : list number) : list number :=
  match n with
  | O => lst
  | S n' =>
      let remainder := rem feed maxSmallInteger in
      bigIntegerToList_loop n'
        (div (sub feed remainder) maxSmallInteger) maxSmallInteger
        (lst ++ [remainder])
  end.

(** Convert a big integer to a list of small integers. *)
Definition bigIntegerToList (bigInteger : number) (listSize : Z)
    (maxSmallInteger : number) : list number :=
  bigIntegerToList_loop (Z.to_nat listSize) bigInteger maxSmallInteger [].

(** Convert a big integer to a hexadecimal string:
    [(bigInteger + Math.pow(16, nHexDigits)).toString(16).slice(1)]. *)
Definition bigIntegerToHex (bigInteger numBits : number) : option string :=
  let nHexDigits := Math_ceil (div numBits (Num 4)) in
  Codec.slice1 <$> toString16 (add bigInteger (Math_pow_16 nHexDigits)).

End Double.

(** ** The browser: WebSocket objects and the clock *)

(** [WebSocket.readyState]: 0, 1, 2, 3. *)
Inductive ReadyState := CONNECTING | OPEN | CLOSING | CLOSED.

Definition readyState_code (s : ReadyState) : Z :=
  match s with CONNECTING => 0 | OPEN => 1 | CLOSING => 2 | CLOSED => 3 end.

Global Instance ReadyState_eq_dec : EqDecision ReadyState.
Proof. solve_decision. Defined.

(** Every WebSocket object ever created, in creation order, shared by all
    pages of the browser; a socket is referred to by its position.
    [now] is the reading of [Date.now()]. *)
Record World := mkWorld { heap : list ReadyState; now : Z }.

(** A handle the browser does not know reads as closed. *)
Definition readyState (w : World) (socket : nat) : Z :=
  match heap w !! socket with
  | Some s => readyState_code s
  | None => 3
  end.

(** [new WebSocket(kWebSocketAddress)] *)
Definition new_WebSocket (w : World) : nat * World :=
  (length (heap w), mkWorld (heap w ++ [CONNECTING]) (now w)).

(** [socket.close()]: a socket that is connecting or open starts closing. *)
Definition ws_close (socket : nat) (w : World) : World :=
  match heap w !! socket with
  | Some CONNECTING | Some OPEN =>
      mkWorld (<[socket := CLOSING]> (heap w)) (now w)
  | _ => w
  end.

(** [close()] on each of the given sockets, in order. *)
Definition close_all (sockets : list nat) (w : World) : World :=
  foldl (λ w socket, ws_close socket w) w sockets.

(** ** The page *)

(** A JavaScript [Set] of sockets: insertion-ordered, without repeats. *)
Definition Set_add (x : nat) (s : list nat) : list nat :=
  if decide (x ∈ s) then s else s ++ [x].

Definition Set_delete (x : nat) (s : list nat) : list nat :=
  filter (λ y, y ≠ x) s.

(** Calls the page makes into the platform, oldest first.  [TypeError] is
    the exception of [socket.close()] on [undefined]. *)
Inductive Call :=
  | NewWebSocket (socket : nat)
  | Close (socket : nat)
  | SetTimeout (delay : Q)
  | TypeError.

Inductive Browser := Chrome | Firefox.

Record Constants := mkConstants {
  listSize : Z;
  maxSlots : Z;
  maxValue : Z;
  pulseMs : Z;
  settlingTimeMs : Z
}.

(** The table in the [SocketPool] constructor. *)
Definition constants (browser : Browser) : Constants :=
  match browser with
  | Chrome => mkConstants 5 255 128 50 0
  | Firefox => mkConstants 5 255 128 350 50
  end.

(** [listSize * Math.log(maxValue) / Math.log(2)].  The engine computes
    this in floating point; the model takes the whole number it stands
    for when [maxValue] is a power of two, as in both rows of the table,
    where the engine gets 35 exactly.  The code reads it only through
    Math.ceil(numBits / 4).  The theorems about strings that depend on
    [numBits] assume that [maxValue] is a power of two and that
    2 * 16^nHexDigits is at most 2^53. *)
Definition numBits (c : Constants) : Z := listSize c * Z.log2 (maxValue c).

(** The sockets of the pool ([_sockets]), the browser it lives in, the
    module-level [trace] and the platform calls made so far. *)
Record State := mkState {
  _sockets : list nat;
  world : World;
  trace : list (Z * Z);
  calls : list Call
}.

Definition M (A : Type) : Type := State → A * State.

Definition ret {A} (a : A) : M A := λ st, (a, st).

Definition bind {A B} (m : M A) (k : A → M B) : M B :=
  λ st, let (a, st') := m st in k a st'.

Notation "'let*' x ':=' m 'in' k" := (bind m (λ x, k))
  (at level 10, x name, m at level 100, k at level 200).

Notation "m1 '>>' m2" := (bind m1 (λ _, m2))
  (at level 100, m2 at level 200, right associativity).

(** The value and the final state of a computation. *)
Definition eval {A} (m : M A) (st : State) : A := (m st).1.
Definition exec {A} (m : M A) (st : State) : State := (m st).2.

(** [for (let i = 0; i < n; ++i) body] *)
Fixpoint repeat_ (n : nat) (body : M unit) : M unit :=
  match n with
  | O => ret tt
  | S n' => body >> repeat_ n' body
  end.

Definition Qlt_bool (a b : Q) : bool := negb (Qle_bool b a).

Section Page.

(** What the rest of the system does while the page awaits a timer of the
    given delay: sockets connect, fail and finish closing, other pages
    act, the clock advances. *)
Variable await : Q → World → World.

(** The fields copied onto the pool by its constructor. *)
Variable pool : Constants.

(** [held () { return this._sockets.size; }] *)
Definition held : M Z := λ st, (Z.of_nat (length (_sockets st)), st).

(** [this.log = () => recordFunction(this.held())] with
    [recordIntegerToTrace = (i) => trace.push([Date.now(), i])]. *)
Definition log : M unit := λ st,
  (tt, mkState (_sockets st) (world st)
         (trace st ++ [(now (world st), Z.of_nat (length (_sockets st)))])
         (calls st)).

Definition consumeOne : M unit := λ st,
  let (socket, w) := new_WebSocket (world st) in
  (tt, mkState (Set_add socket (_sockets st)) w (trace st)
         (calls st ++ [NewWebSocket socket])).

(** [this._sockets.values().next().value] is [undefined] on an empty
    set; [socket.close()] then throws and the promise is rejected, which
    no caller observes. *)
Definition releaseOne : M unit := λ st,
  match head (_sockets st) with
  | Some socket =>
      (tt, mkState (Set_delete socket (_sockets st))
             (ws_close socket (world st)) (trace st)
             (calls st ++ [Close socket]))
  | None =>
      (tt, mkState (_sockets st) (world st) (trace st)
             (calls st ++ [TypeError]))
  end.

Definition collectGarbage : M unit := λ st,
  (tt, mkState
         (filter (λ socket, readyState (world st) socket ≠ 3) (_sockets st))
         (world st) (trace st) (calls st)).

Definition sleepMs (interval : Q) : M unit := λ st,
  (tt, mkState (_sockets st) (await interval (world st)) (trace st)
         (calls st ++ [SetTimeout interval])).

Definition Date_now : M Z := λ st, (now (world st), st).

Definition sleepUntil (timeMs : Q) : M Z :=
  let* t := Date_now in
  sleepMs (timeMs - inject_Z t)%Q >>
  Date_now.

(** The part of [consume] up to the end of its [await]: the requests
    have been issued and the settling time has passed.  Yields [nStart]. *)
Definition consume_settled (max : Z) : M Z :=
  log >>
  let* nStart := held in
  repeat_ (Z.to_nat max) (consumeOne >> log) >>
  sleepMs (inject_Z (settlingTimeMs pool)) >>
  ret nStart.

(** Consume and return number consumed. *)
Definition consume (max : Z) : M Z :=
  let* nStart := consume_settled max in
  collectGarbage >>
  let* nFinish := held in
  log >>
  ret (nFinish - nStart).

(** Release up to max, and return number released. *)
Definition release (max : Z) : M Z :=
  log >>
  if max =? 0 then ret 0
  else
    let* h := held in
    let numberToRelease := Z.min max h in
    repeat_ (Z.to_nat numberToRelease) (releaseOne >> log) >>
    sleepMs (inject_Z (settlingTimeMs pool)) >>
    log >>
    ret numberToRelease.

(** Probe for unheld slots. *)
Definition probe (max : Z) : M Z :=
  let* consumedCount := consume max in
  release consumedCount >>
  ret consumedCount.

(** The race that opens [isSender]: let go of everything, then grab. *)
Definition isSender_race : M Z :=
  let* h := held in
  release h >>
  consume (maxSlots pool).

(** Return true if we have taken the sender role; false if we are a
    receiver. *)
Definition isSender : M bool :=
  isSender_race >>
  let* h1 := held in
  if Qlt_bool (inject_Z h1) (inject_Z (maxSlots pool) / 2)%Q then
    let* h2 := held in
    release h2 >>
    ret false
  else ret true.

(** The body of the loop of [sendInteger] once pulse [i] has begun:
    bring the number of unheld slots from [lastInteger] to [integer]. *)
Definition adjust (kBrowser : Browser) (lastInteger integer : Z) : M unit :=
  match kBrowser with
  | Firefox =>
      consume (lastInteger + 5) >>
      release integer >>
      ret tt
  | Chrome =>
      let delta := integer - lastInteger in
      if 0 <? delta then release delta >> ret tt
      else consume (- delta) >> ret tt
  end.

(** One turn of the loop of [sendInteger]; returns the new [lastInteger].
    [lst] always has [listSize] entries, so [lst !! i] is never [None]. *)
Definition send_pulse (kBrowser : Browser) (lst : list Z) (startTime : Z)
    (i : nat) (lastInteger : Z) : M Z :=
  sleepUntil (inject_Z (startTime + (Z.of_nat i + 1) * pulseMs pool)) >>
  match lst !! i with
  | Some d =>
      let integer := 1 + d in
      adjust kBrowser lastInteger integer >>
      ret integer
  | None => ret lastInteger
  end.

(** [for (let i = 0; i < pool.listSize; ++i)], [n] turns left. *)
Fixpoint send_loop (kBrowser : Browser) (lst : list Z) (startTime : Z)
    (n i : nat) (lastInteger : Z) : M unit :=
  match n with
  | O => ret tt
  | S n' =>
      let* integer := send_pulse kBrowser lst startTime i lastInteger in
      send_loop kBrowser lst startTime n' (S i) integer
  end.

(** The opening of [sendInteger]: fill the pool up to maxSlots. *)
Definition send_baseline : M Z :=
  let* h := held in
  consume (maxSlots pool - h).

(** Send a big integer. *)
Definition sendInteger (kBrowser : Browser) (bigInteger startTime : Z)
    : M string :=
  let lst := Codec.bigIntegerToList bigInteger (listSize pool) (maxValue pool) in
  send_baseline >>
  send_loop kBrowser lst startTime (Z.to_nat (listSize pool)) 0 0 >>
  ret (Codec.bigIntegerToHex bigInteger (numBits pool)).

(** The instant the receiver waits for in turn [i]:
    [startTime + (i + 1.25) * pool.pulseMs]. *)
Definition receive_time (startTime : Z) (i : nat) : Q :=
  (inject_Z startTime
   + (inject_Z (Z.of_nat i) + (5 # 4)) * inject_Z (pulseMs pool))%Q.

(** One turn of the loop of [receiveInteger]. *)
Definition receive_pulse (startTime : Z) (i : nat) (integerList : list Z)
    : M (list Z) :=
  sleepUntil (receive_time startTime i) >>
  let* integer := probe (maxValue pool) in
  ret (integerList ++ [integer - 1]).

Fixpoint receive_loop (startTime : Z) (n i : nat) (integerList : list Z)
    : M (list Z) :=
  match n with
  | O => ret integerList
  | S n' =>
      let* integerList' := receive_pulse startTime i integerList in
      receive_loop startTime n' (S i) integerList'
  end.

(** What [receiveInteger] returns for the digits it has read.  A NaN
    prints as ["NaN"], sliced to ["aN"]. *)
Definition receiveInteger_result (integerList : list Z) : string :=
  match Codec.listToBigInteger integerList (listSize pool) (maxValue pool) with
  | Some v => Codec.bigIntegerToHex v (numBits pool)
  | None => "aN"%string
  end.

(** Receive a big integer. *)
Definition receiveInteger (startTime : Z) : M string :=
  let* integerList := receive_loop startTime (Z.to_nat (listSize pool)) 0 [] in
  ret (receiveInteger_result integerList).

(** [Math.ceil(Date.now() / interval) * interval] *)
Definition next_round_interval (t interval : Z) : Z :=
  Codec.Math_ceil_div t interval * interval.

Definition sleepUntilNextRoundInterval (interval : Z) : M Z :=
  let* t := Date_now in
  sleepUntil (inject_Z (next_round_interval t interval)).

(** One turn of the loop of [run], sending [payload] (the value of
    [randomBigInteger]) when the page turns out to be the sender.
    [cycle_start] is its first [await], which yields [t0]. *)
Definition cycle_start : M Z :=
  log >>
  sleepUntilNextRoundInterval ((1 + listSize pool) * pulseMs pool).

Definition cycle (kBrowser : Browser) (payload : Z) : M (bool * string) :=
  let* t0 := cycle_start in
  log >>
  let* sender := isSender in
  if sender then
    let* resultList := sendInteger kBrowser payload t0 in
    ret (true, resultList)
  else
    let* resultList := receiveInteger t0 in
    ret (false, resultList).

(** [for (let i = 0; i < 10; ++i)] of [run], [n] turns left; [payload i]
    is the value [randomBigInteger] yields in turn [i]. *)
Fixpoint run_loop (kBrowser : Browser) (payload : nat → Z) (n i : nat)
    : M (list (bool * string)) :=
  match n with
  | O => ret []
  | S n' =>
      let* result := cycle kBrowser (payload i) in
      let* results := run_loop kBrowser payload n' (S i) in
      ret (result :: results)
  end.

(** When page loads.  Yields what the page prints: for each cycle, the
    role taken and the hexadecimal string sent or received. *)
Definition run (kBrowser : Browser) (payload : nat → Z)
    : M (list (bool * string)) :=
  (λ st, (tt, mkState (_sockets st) (world st) [] (calls st))) >>
  let* results := run_loop kBrowser payload 10 0 in
  log >>
  ret results.

(** A sequence of bulk operations, as the command buttons allow. *)
Inductive BulkOp := Consume (max : Z) | Release (max : Z).

Definition bulk (op : BulkOp) : M Z :=
  match op with
  | Consume max => consume max
  | Release max => release max
  end.

Fixpoint bulk_all (ops : list BulkOp) : M unit :=
  match ops with
  | [] => ret tt
  | op :: ops' => bulk op >> bulk_all ops'
  end.

End Page.

(** A pool that holds nothing, in the given browser. *)
Definition empty_pool (w : World) : State := mkState [] w [] [].

(** ** The shared pool *)

(** A socket that was closing is closed once the page has waited. *)
Definition finish_closing (s : ReadyState) : ReadyState :=
  match s with CLOSING => CLOSED | _ => s end.

(** Connecting sockets are let in oldest first, as long as [budget]
    lasts; the others fail. *)
Fixpoint accept (budget : nat) (hp : list ReadyState) : list ReadyState :=
  match hp with
  | [] => []
  | CONNECTING :: hp' =>
      match budget with
      | O => CLOSED :: accept O hp'
      | S b => OPEN :: accept b hp'
      end
  | s :: hp' => s :: accept budget hp'
  end.

Definition count_open (hp : list ReadyState) : nat :=
  length (filter (λ s, s = OPEN) hp).

Definition count_live (hp : list ReadyState) : nat :=
  length (filter (λ s, s ≠ CLOSED) hp).

(** Modelled from the spec: the capacity-limited resource pool that the
    browser enforces (sections 1 and 4.1: a connection-count cap shared by
    all participants; acquisition completes asynchronously and may fail)
    is not part of the repository.  While a page awaits a timer, sockets
    that were closing become closed, and connecting sockets are let in
    oldest first while fewer than [cap] sockets are open; the others
    fail. *)
Definition settle (cap : nat) (hp : list ReadyState) : list ReadyState :=
  let hp1 := finish_closing <$> hp in
  accept (cap - count_open hp1) hp1.

(** Modelled from the spec: a browser that is such a pool and whose
    timers fire on time. *)
Definition shared_pool (cap : nat) (interval : Q) (w : World) : World :=
  mkWorld (settle cap (heap w)) (now w + Z.max 0 (Qfloor interval)).

(** The property [P] holds of the socket at position [i]. *)
Definition holds_at (P : ReadyState → Prop) (hp : list ReadyState) (i : nat)
    : Prop :=
  match hp !! i with
  | Some s => P s
  | None => False
  end.

Global Instance holds_at_dec P `{∀ s, Decision (P s)} hp i :
  Decision (holds_at P hp i).
Proof. unfold holds_at. destruct (hp !! i); apply _. Defined.

(** Nothing is in flight: every socket is open or closed. *)
Definition settled (hp : list ReadyState) : Prop :=
  Forall (λ s, s = OPEN ∨ s = CLOSED) hp.

(** What [close()] does to a ready state. *)
Definition start_closing (s : ReadyState) : ReadyState :=
  match s with CONNECTING | OPEN => CLOSING | _ => s end.

(** Every open socket of the browser belongs to this page: there is no
    third party and the other page holds nothing. *)
Definition sole_holder (st : State) : Prop :=
  NoDup (_sockets st)
  ∧ settled (heap (world st))
  ∧ ∀ i, i ∈ _sockets st ↔ heap (world st) !! i = Some OPEN.

(** The page [to] resumes in the browser as the page [from] left it. *)
Definition hand_over (from to : State) : State :=
  mkState (_sockets to) (world from) (trace to) (calls to).

(** The two loops of a transfer, pulse by pulse: in pulse [i] the
    sender's turn, which begins at startTime + (i + 1) * pulseMs, and then
    the receiver's, which begins a quarter of a pulse later; each page
    resumes in the browser as the other left it.  Yields the sender's
    [lastInteger], the receiver's [integerList] and both pages. *)
Fixpoint transfer (await : Q → World → World) (pool : Constants)
    (kBrowser : Browser) (lst : list Z) (startTime : Z) (n i : nat)
    (lastInteger : Z) (integerList : list Z) (sender receiver : State)
    : Z * list Z * State * State :=
  match n with
  | O => (lastInteger, integerList, sender, receiver)
  | S n' =>
      let (integer, sender1) :=
        send_pulse await pool kBrowser lst startTime i lastInteger sender in
      let (integerList1, receiver1) :=
        receive_pulse await pool startTime i integerList
          (hand_over sender1 receiver) in
      transfer await pool kBrowser lst startTime n' (S i) integer
        integerList1 (hand_over receiver1 sender1) receiver1
  end.

(** What holds between two pulses of a transfer, [i] pulses in. *)
Definition between_pulses (pool : Constants) (lst : list Z) (i : nat)
    (lastInteger : Z) (integerList : list Z) (sender receiver : State)
    : Prop :=
  integerList = take i lst
  ∧ sole_holder sender
  ∧ _sockets receiver = []
  ∧ eval held sender = maxSlots pool - lastInteger
  ∧ 0 ≤ lastInteger ≤ maxSlots pool.

(** The pool and its browser respect the capacity [limit]. *)
Definition within_capacity (limit : Z) (st : State) : Prop :=
  NoDup (_sockets st)
  ∧ Z.of_nat (count_open (heap (world st))) ≤ limit
  ∧ eval held st ≤ limit.

(** A browser whose timers fire [lateness] milliseconds late. *)
Definition late_timer (lateness : Z) (await : Q → World → World)
    : Q → World → World :=
  λ interval w,
    let w' := await interval w in
    mkWorld (heap w') (now w' + lateness).


(** Sample states for the worked instances: a Firefox page that has got
    four sockets of a pool of ten, and fresh Chrome pages. *)
Definition four_of_ten : State :=
  exec (consume (shared_pool 10) (constants Firefox) 4)
    (empty_pool (mkWorld [] 0)).

Definition fresh_page (t : Z) : State := empty_pool (mkWorld [] t).

(** A computation that only ever adds samples to the trace. *)
Definition appends {A} (m : M A) : Prop :=
  ∀ st, trace st `prefix_of` trace (exec m st).

(** A computation that ends by recording the held-count. *)
Definition ends_logged {A} (m : M A) : Prop :=
  ∀ st, last (trace (exec m st))
        = Some (now (world (exec m st)), eval held (exec m st)).

(** The instant the sender waits for in turn [i]:
    [startTime + (i + 1) * pool.pulseMs]. *)
Definition send_time (pool : Constants) (startTime : Z) (i : nat) : Z :=
  startTime + (Z.of_nat i + 1) * pulseMs pool.

(** Timers fire on time: a timer set for [interval] milliseconds fires
    after that many whole milliseconds, at once when it is not positive. *)
Definition punctual (await : Q → World → World) : Prop :=
  ∀ interval w, now (await interval w) = now w + Z.max 0 (Qfloor interval).

(** * Verification *)

(** ** IntegerCodec *)

Module CodecFacts.
Import Codec.

Lemma division_exact feed m :
  m ≠ 0 → Z.rem (feed - Z.rem feed m) m = 0.
Proof.
  intros Hm. pose proof (Z.quot_rem' feed m) as E.
  replace (feed - Z.rem feed m) with (Z.quot feed m * m) by lia.
  apply Z.rem_mul; exact Hm.
Qed.

Lemma bigIntegerToList_loop_app n : ∀ feed m acc,
  bigIntegerToList_loop n feed m acc
  = acc ++ bigIntegerToList_loop n feed m [].
Proof.
  induction n as [|n IH]; intros feed m acc; simpl.
  - by rewrite app_nil_r.
  - rewrite IH. rewrite (IH _ _ [_]). by rewrite <- app_assoc.
Qed.

Lemma bigIntegerToList_loop_step n feed m :
  0 ≤ feed → 0 < m →
  bigIntegerToList_loop (S n) feed m []
  = feed mod m :: bigIntegerToList_loop n (feed / m) m [].
Proof.
  intros Hf Hm. simpl. rewrite bigIntegerToList_loop_app. simpl.
  rewrite Z.rem_mod_nonneg by lia.
  rewrite Z.quot_div_nonneg.
  - f_equal. f_equal.
    rewrite (Z.div_mod feed m) at 1 by lia.
    replace (m * (feed / m) + feed mod m - feed mod m) with (feed / m * m) by lia.
    apply Z.div_mul. lia.
  - pose proof (Z.mod_le feed m Hf Hm). lia.
  - lia.
Qed.

Lemma bigIntegerToList_loop_length n : ∀ feed m acc,
  length (bigIntegerToList_loop n feed m acc) = (length acc + n)%nat.
Proof.
  induction n as [|n IH]; intros; simpl; [lia|].
  rewrite IH, length_app. simpl. lia.
Qed.

Lemma bigIntegerToList_length x listSize m :
  length (bigIntegerToList x listSize m) = Z.to_nat listSize.
Proof. unfold bigIntegerToList. by rewrite bigIntegerToList_loop_length. Qed.

(** Every digit lies in [0, maxSmallInteger). *)
Lemma bigIntegerToList_loop_range n : ∀ feed m,
  0 ≤ feed → 0 < m →
  Forall (λ d, 0 ≤ d < m) (bigIntegerToList_loop n feed m []).
Proof.
  induction n as [|n IH]; intros feed m Hf Hm.
  - constructor.
  - rewrite bigIntegerToList_loop_step by assumption. constructor.
    + apply Z.mod_pos_bound; lia.
    + apply IH; [|lia]. apply Z.div_pos; lia.
Qed.

Lemma listToBigInteger_loop_cons d l m i : ∀ r,
  listToBigInteger_loop (d :: l) m (S i) r
  = match listToBigInteger_loop l m i r with
    | Some v => Some (v * m + d)
    | None => None
    end.
Proof.
  induction i as [|i IH]; intros r.
  - reflexivity.
  - change (listToBigInteger_loop (d :: l) m (S (S i)) r)
      with (match l !! i with
            | Some x => listToBigInteger_loop (d :: l) m (S i) (r * m + x)
            | None => None
            end).
    simpl. destruct (l !! i); [apply IH | reflexivity].
Qed.

Lemma roundtrip_loop n : ∀ x m,
  0 < m → 0 ≤ x < m ^ Z.of_nat n →
  listToBigInteger_loop (bigIntegerToList_loop n x m []) m n 0 = Some x.
Proof.
  induction n as [|n IH]; intros x m Hm Hx.
  - simpl in *. f_equal. lia.
  - rewrite bigIntegerToList_loop_step by lia.
    rewrite listToBigInteger_loop_cons.
    rewrite IH.
    + f_equal. rewrite (Z.div_mod x m) at 3 by lia. lia.
    + exact Hm.
    + split; [apply Z.div_pos; lia|].
      apply Z.div_lt_upper_bound; [lia|].
      rewrite Nat2Z.inj_succ, Z.pow_succ_r in Hx by lia. lia.
Qed.

Lemma append_assoc (a b c : string) :
  String.append (String.append a b) c = String.append a (String.append b c).
Proof. induction a as [|ch a IH]; simpl; [reflexivity | by rewrite IH]. Qed.

Lemma append_empty_r (a : string) : String.append a EmptyString = a.
Proof. induction a as [|ch a IH]; simpl; [reflexivity | by rewrite IH]. Qed.

Lemma length_append (a b : string) :
  String.length (String.append a b) = (String.length a + String.length b)%nat.
Proof. induction a as [|ch a IH]; simpl; [reflexivity | by rewrite IH]. Qed.

Lemma fixedHex_length k : ∀ x, String.length (fixedHex k x) = k.
Proof.
  induction k as [|k IH]; intros x; simpl; [reflexivity|].
  rewrite length_append, IH. simpl. lia.
Qed.

Lemma hexValue_hexDigit d : 0 ≤ d < 16 → hexValue (hexDigit d) = Some d.
Proof.
  intros Hd.
  assert (d = 0 ∨ d = 1 ∨ d = 2 ∨ d = 3 ∨ d = 4 ∨ d = 5 ∨ d = 6 ∨ d = 7
          ∨ d = 8 ∨ d = 9 ∨ d = 10 ∨ d = 11 ∨ d = 12 ∨ d = 13 ∨ d = 14
          ∨ d = 15) as Hcases by lia.
  repeat (destruct Hcases as [-> | Hcases]; [reflexivity|]).
  by subst.
Qed.

Lemma parseHex_append a : ∀ b v,
  parseHex (String.append a b) v
  = match parseHex a v with Some v' => parseHex b v' | None => None end.
Proof.
  induction a as [|ch a IH]; intros b v; simpl; [reflexivity|].
  destruct (hexValue ch); [apply IH | reflexivity].
Qed.

(** The fixed-width string reads back as the number it was made from. *)
Lemma parseHex_fixedHex k : ∀ x v,
  0 ≤ x < 16 ^ Z.of_nat k →
  parseHex (fixedHex k x) v = Some (v * 16 ^ Z.of_nat k + x).
Proof.
  induction k as [|k IH]; intros x v Hx.
  - simpl in *. f_equal. lia.
  - rewrite Nat2Z.inj_succ, Z.pow_succ_r in * by lia.
    simpl. rewrite parseHex_append, IH.
    + simpl. rewrite hexValue_hexDigit by (apply Z.mod_pos_bound; lia).
      f_equal. rewrite (Z.div_mod x 16) at 3 by lia. lia.
    + split; [apply Z.div_pos; lia | apply Z.div_lt_upper_bound; lia].
Qed.

Lemma hexDigits_fixedHex k : ∀ fuel n acc,
  (k < fuel)%nat → 16 ^ Z.of_nat k ≤ n < 16 ^ Z.of_nat (S k) →
  hexDigits fuel n acc = String.append (fixedHex (S k) n) acc.
Proof.
  induction k as [|k IH]; intros fuel n acc Hfuel Hn;
    (destruct fuel as [|fuel]; [lia|]).
  - change (16 ^ Z.of_nat 0) with 1 in Hn. change (16 ^ Z.of_nat 1) with 16 in Hn.
    simpl. rewrite Z.div_small by lia. reflexivity.
  - rewrite !Nat2Z.inj_succ, !Z.pow_succ_r in Hn by lia.
    assert (16 ^ Z.of_nat k ≤ n / 16 < 16 * 16 ^ Z.of_nat k) as Hq.
    { split; [apply Z.div_le_lower_bound; lia
             | apply Z.div_lt_upper_bound; lia]. }
    assert (0 < 16 ^ Z.of_nat k) by (apply Z.pow_pos_nonneg; lia).
    cbn [hexDigits]. destruct (Z.eqb_spec (n / 16) 0) as [E|_]; [lia|].
    rewrite (IH fuel (n / 16)); [| lia |].
    + change (fixedHex (S (S k)) n)
        with (String.append (fixedHex (S k) (n / 16))
                (String (hexDigit (n mod 16)) EmptyString)).
      by rewrite append_assoc.
    + by rewrite Nat2Z.inj_succ, Z.pow_succ_r by lia.
Qed.

Lemma fixedHex_lead k : ∀ x,
  0 ≤ x < 16 ^ Z.of_nat k →
  fixedHex (S k) (x + 16 ^ Z.of_nat k) = String "1" (fixedHex k x).
Proof.
  induction k as [|k IH]; intros x Hx.
  - change (16 ^ Z.of_nat 0) with 1 in *. by replace x with 0 by lia.
  - rewrite Nat2Z.inj_succ, Z.pow_succ_r in * by lia.
    change (fixedHex (S (S k)) ?n)
      with (String.append (fixedHex (S k) (n / 16))
              (String (hexDigit (n mod 16)) EmptyString)).
    replace (x + 16 * 16 ^ Z.of_nat k) with (x + 16 ^ Z.of_nat k * 16) by lia.
    rewrite Z.div_add, Z_mod_plus_full by lia.
    rewrite IH; [reflexivity|].
    split; [apply Z.div_pos; lia | apply Z.div_lt_upper_bound; lia].
Qed.

Lemma toString16_lead k x :
  0 ≤ x < 16 ^ Z.of_nat k →
  toString16 (x + 16 ^ Z.of_nat k) = String "1" (fixedHex k x).
Proof.
  intros Hx. unfold toString16.
  assert (0 < 16 ^ Z.of_nat k) by (apply Z.pow_pos_nonneg; lia).
  destruct (Z.ltb_spec (x + 16 ^ Z.of_nat k) 0) as [?|_]; [lia|].
  rewrite (hexDigits_fixedHex k).
  - rewrite fixedHex_lead by exact Hx. simpl. f_equal. apply append_empty_r.
  - assert (Z.of_nat k ≤ Z.log2 (x + 16 ^ Z.of_nat k)); [|lia].
    transitivity (Z.log2 (2 ^ Z.of_nat k)).
    + rewrite Z.log2_pow2; lia.
    + apply Z.log2_le_mono.
      assert (2 ^ Z.of_nat k ≤ 16 ^ Z.of_nat k); [|lia].
      apply Z.pow_le_mono_l. lia.
  - rewrite Nat2Z.inj_succ, Z.pow_succ_r by lia. lia.
Qed.

Lemma Math_ceil_div_4 numBits :
  0 ≤ numBits →
  0 ≤ Math_ceil_div numBits 4 ∧ numBits ≤ 4 * Math_ceil_div numBits 4
  ∧ Math_ceil_div numBits 4 = (numBits + 3) / 4.
Proof.
  intros H. unfold Math_ceil_div.
  pose proof (Z.div_mod (- numBits) 4).
  pose proof (Z.mod_pos_bound (- numBits) 4).
  pose proof (Z.div_mod (numBits + 3) 4).
  pose proof (Z.mod_pos_bound (numBits + 3) 4).
  lia.
Qed.

(** [bigIntegerToHex] is the fixed-width rendering the specification
    describes, whenever the number fits the width. *)
Lemma bigIntegerToHex_fixedHex x numBits :
  0 ≤ numBits → 0 ≤ x < 2 ^ numBits →
  bigIntegerToHex x numBits
  = fixedHex (Z.to_nat (Math_ceil_div numBits 4)) x
  ∧ 0 ≤ x < 16 ^ Math_ceil_div numBits 4.
Proof.
  intros Hn Hx. unfold bigIntegerToHex.
  destruct (Math_ceil_div_4 numBits Hn) as (Hc0 & Hc & _).
  set (n := Math_ceil_div numBits 4) in *.
  assert (0 ≤ x < 16 ^ n) as Hx16.
  { split; [lia|]. eapply Z.lt_le_trans; [apply Hx|].
    change 16 with (2 ^ 4). rewrite <- Z.pow_mul_r by lia.
    apply Z.pow_le_mono_r; lia. }
  split; [|exact Hx16].
  rewrite <- (Z2Nat.id n) at 1 by lia.
  rewrite toString16_lead; [reflexivity|]. by rewrite Z2Nat.id.
Qed.

(** For a power of two, [numBits] is the exact width of the payload. *)
Lemma numBits_exact c k :
  0 ≤ k → 0 ≤ listSize c → maxValue c = 2 ^ k →
  maxValue c ^ listSize c = 2 ^ numBits c ∧ 0 ≤ numBits c.
Proof.
  intros Hk Hl E. unfold numBits. rewrite E, Z.log2_pow2 by lia.
  split; [|lia]. rewrite <- Z.pow_mul_r by lia. f_equal. lia.
Qed.

(** The end-to-end example of the specification. *)
Example hex_examples :
  numBits (constants Chrome) = 35
  ∧ bigIntegerToList 0 5 128 = [0; 0; 0; 0; 0]
  ∧ bigIntegerToHex 0 35 = "000000000"%string
  ∧ bigIntegerToList (128 ^ 5 - 1) 5 128 = [127; 127; 127; 127; 127]
  ∧ bigIntegerToHex (128 ^ 5 - 1) 35 = "7ffffffff"%string.
Proof. vm_compute. repeat split. Qed.

End CodecFacts.

(** ** Counting sockets *)

Section Counting.

Context (P : ReadyState → Prop) `{∀ s, Decision (P s)}.

Lemma filter_ext_in {A} (P1 P2 : A → Prop)
    `{∀ x, Decision (P1 x)} `{∀ x, Decision (P2 x)} (l : list A) :
  (∀ x, x ∈ l → P1 x ↔ P2 x) → filter P1 l = filter P2 l.
Proof.
  induction l as [|x l IH]; intros Hext; [reflexivity|].
  assert (filter P1 l = filter P2 l) as E by (apply IH; set_solver).
  destruct (decide (P1 x)) as [Hx|Hx].
  - rewrite !filter_cons_True; [by rewrite E | | done].
    apply Hext; [set_solver | done].
  - rewrite !filter_cons_False; [done | | done].
    intros Hx2. apply Hx, Hext; [set_solver | done].
Qed.

(** The positions that satisfy [P] are as many as the sockets that do. *)
Lemma count_positions hp :
  length (filter (holds_at P hp) (seq 0 (length hp)))
  = length (filter P hp).
Proof.
  induction hp as [|s hp IH] using rev_ind; [reflexivity|].
  rewrite length_app. simpl. rewrite Nat.add_1_r, seq_S. simpl.
  rewrite !filter_app, !length_app.
  rewrite <- IH. f_equal.
  - f_equal. apply filter_ext_in. intros i Hi%elem_of_seq.
    unfold holds_at. by rewrite lookup_app_l by lia.
  - assert (holds_at P (hp ++ [s]) (length hp) ↔ P s) as Hs.
    { unfold holds_at. rewrite lookup_app_r by lia.
      by rewrite Nat.sub_diag. }
    destruct (decide (P s)).
    + rewrite !filter_cons_True; [done | done | by apply Hs].
    + rewrite !filter_cons_False; [done | done | by rewrite Hs].
Qed.

(** Distinct positions that satisfy [P] are no more than the sockets
    that do ... *)
Lemma positions_le hp (l : list nat) :
  NoDup l → (∀ i, i ∈ l → holds_at P hp i) →
  (length l ≤ length (filter P hp))%nat.
Proof.
  intros Hnd Hl. rewrite <- count_positions.
  apply submseteq_length, NoDup_submseteq; [exact Hnd|].
  intros i Hi. apply list_elem_of_filter. split; [by apply Hl|].
  apply elem_of_seq. specialize (Hl i Hi). unfold holds_at in Hl.
  destruct (hp !! i) eqn:E; [|done].
  apply lookup_lt_Some in E. lia.
Qed.

(** ... and exactly as many when they are all of them. *)
Lemma positions_eq hp (l : list nat) :
  NoDup l → (∀ i, i ∈ l ↔ holds_at P hp i) →
  length l = length (filter P hp).
Proof.
  intros Hnd Hl. rewrite <- count_positions.
  apply Permutation_length, NoDup_Permutation; [exact Hnd | |].
  - apply NoDup_filter, NoDup_seq.
  - intros i. rewrite list_elem_of_filter, elem_of_seq, Hl.
    split; [|tauto]. intros Hi. split; [done|].
    unfold holds_at in Hi. destruct (hp !! i) eqn:E; [|done].
    apply lookup_lt_Some in E. lia.
Qed.

End Counting.

Lemma count_open_le_live hp : (count_open hp ≤ count_live hp)%nat.
Proof.
  unfold count_open, count_live.
  induction hp as [|s hp IH]; [done|].
  destruct (decide (s = OPEN)) as [->|Hs].
  - rewrite !filter_cons_True by done. simpl. lia.
  - rewrite (filter_cons_False (λ s, s = OPEN)) by done.
    destruct (decide (s ≠ CLOSED)).
    + rewrite filter_cons_True by done. simpl. lia.
    + by rewrite filter_cons_False by done.
Qed.

Lemma count_open_app hp1 hp2 :
  count_open (hp1 ++ hp2) = (count_open hp1 + count_open hp2)%nat.
Proof. unfold count_open. by rewrite filter_app, length_app. Qed.

Lemma count_open_replicate n s :
  count_open (replicate n s) = if decide (s = OPEN) then n else 0%nat.
Proof.
  unfold count_open. induction n as [|n IH]; simpl replicate.
  - by case_decide.
  - case_decide.
    + rewrite filter_cons_True by done. simpl. by rewrite IH.
    + by rewrite filter_cons_False by done.
Qed.

Lemma count_open_insert_not_open hp i s :
  s ≠ OPEN → (count_open (<[i := s]> hp) ≤ count_open hp)%nat.
Proof.
  intros Hs. revert i. unfold count_open.
  induction hp as [|x hp IH]; intros [|i]; simpl; try done.
  - rewrite filter_cons_False by done.
    destruct (decide (x = OPEN)).
    + rewrite filter_cons_True by done. simpl. lia.
    + by rewrite filter_cons_False by done.
  - specialize (IH i). destruct (decide (x = OPEN)).
    + rewrite !filter_cons_True by done. simpl. lia.
    + by rewrite !filter_cons_False by done.
Qed.

Lemma count_open_ws_close socket w :
  (count_open (heap (ws_close socket w)) ≤ count_open (heap w))%nat.
Proof.
  unfold ws_close.
  destruct (heap w !! socket) as [[]|]; simpl; try done;
    by apply count_open_insert_not_open.
Qed.

Lemma count_open_close_all sockets : ∀ w,
  (count_open (heap (close_all sockets w)) ≤ count_open (heap w))%nat.
Proof.
  induction sockets as [|socket sockets IH]; intros w; simpl; [done|].
  etransitivity; [apply IH | apply count_open_ws_close].
Qed.

(** The sockets a pool holds right after collecting garbage are alive. *)
Lemma alive_holds w socket :
  readyState w socket ≠ 3 → holds_at (λ s, s ≠ CLOSED) (heap w) socket.
Proof.
  unfold readyState, holds_at. destruct (heap w !! socket) as [[]|]; done.
Qed.

(** *** The shared pool respects its capacity *)

Lemma count_open_finish_closing hp :
  count_open (finish_closing <$> hp) = count_open hp.
Proof.
  unfold count_open. induction hp as [|s hp IH]; [done|].
  rewrite fmap_cons. destruct s; simpl finish_closing;
    rewrite ?filter_cons_True by done; rewrite ?filter_cons_False by done;
    simpl; by rewrite IH.
Qed.

Lemma accept_live hp : ∀ budget,
  Forall (λ s, s ≠ CLOSING) hp →
  (count_live (accept budget hp) ≤ count_open hp + budget)%nat.
Proof.
  unfold count_live, count_open.
  induction hp as [|s hp IH]; intros budget Hhp; [simpl; lia|].
  apply Forall_cons in Hhp as [Hs Hhp].
  destruct s; try done; simpl accept.
  - rewrite (filter_cons_False (λ s, s = OPEN)) by done.
    destruct budget as [|b].
    + rewrite filter_cons_False by naive_solver. by apply IH.
    + rewrite filter_cons_True by done. simpl.
      specialize (IH b Hhp). lia.
  - rewrite !filter_cons_True by done. simpl.
    specialize (IH budget Hhp). lia.
  - rewrite !filter_cons_False by naive_solver. by apply IH.
Qed.

Lemma settle_caps (cap : nat) hp :
  (count_open hp ≤ cap)%nat → (count_live (settle cap hp) ≤ cap)%nat.
Proof.
  intros Hc. unfold settle.
  etransitivity; [apply accept_live|].
  - apply Forall_fmap, Forall_forall. intros [] _; done.
  - rewrite count_open_finish_closing. lia.
Qed.

(** ** The pool primitives *)

Section PageFacts.

Variable await : Q → World → World.
Variable pool : Constants.

Lemma run_bind {A B} (m : M A) (k : A → M B) st :
  bind m k st = k (eval m st) (exec m st).
Proof. unfold bind, eval, exec. by destruct (m st). Qed.

Lemma exec_bind {A B} (m : M A) (k : A → M B) st :
  exec (bind m k) st = exec (k (eval m st)) (exec m st).
Proof. unfold exec at 1. by rewrite run_bind. Qed.

Lemma eval_bind {A B} (m : M A) (k : A → M B) st :
  eval (bind m k) st = eval (k (eval m st)) (exec m st).
Proof. unfold eval at 1. by rewrite run_bind. Qed.

Lemma eval_held st : eval held st = Z.of_nat (length (_sockets st)).
Proof. reflexivity. Qed.

Lemma Set_delete_head socket s :
  NoDup (socket :: s) → Set_delete socket (socket :: s) = s.
Proof.
  intros [Hnotin _]%NoDup_cons. unfold Set_delete.
  rewrite filter_cons_False by naive_solver.
  induction s as [|y s IH]; [reflexivity|].
  rewrite filter_cons_True; [f_equal; apply IH|]; set_solver.
Qed.

Lemma Set_add_NoDup socket s : NoDup s → NoDup (Set_add socket s).
Proof.
  intros Hs. unfold Set_add. case_decide; [exact Hs|].
  apply NoDup_app. split_and!; [exact Hs | set_solver | apply NoDup_singleton].
Qed.

Lemma Set_add_prefix socket s : ∃ extra, Set_add socket s = s ++ extra.
Proof.
  unfold Set_add. case_decide; [exists []; by rewrite app_nil_r | by eexists].
Qed.

(** *** The loop of [release] *)

Lemma release_loop k : ∀ st,
  NoDup (_sockets st) → (k ≤ length (_sockets st))%nat →
  let st' := exec (repeat_ k (releaseOne >> log)) st in
  _sockets st' = drop k (_sockets st)
  ∧ world st' = close_all (take k (_sockets st)) (world st)
  ∧ calls st' = calls st ++ (Close <$> take k (_sockets st)).
Proof.
  induction k as [|k IH]; intros st Hnd Hk.
  - simpl. unfold exec, ret. simpl. by rewrite app_nil_r.
  - destruct st as [[|socket s] w tr cs]; simpl in Hk; [lia|].
    cbn [repeat_]. rewrite exec_bind.
    set (st1 := exec (releaseOne >> log) _).
    assert (st1 = mkState s (ws_close socket w)
                    (tr ++ [(now (ws_close socket w), Z.of_nat (length s))])
                    (cs ++ [Close socket])) as ->.
    { subst st1. unfold exec, bind, releaseOne, log. simpl.
      by rewrite Set_delete_head. }
    apply NoDup_cons in Hnd as [_ Hnd].
    destruct (IH (mkState s (ws_close socket w)
                    (tr ++ [(now (ws_close socket w), Z.of_nat (length s))])
                    (cs ++ [Close socket])) Hnd ltac:(simpl; lia))
      as (E1 & E2 & E3).
    simpl in *. rewrite E1, E2, E3. split_and!; try reflexivity.
    by rewrite <- app_assoc.
Qed.

(** *** [release] *)

Lemma release_zero st :
  release await pool 0 st = (0, exec log st).
Proof. unfold release. rewrite run_bind. reflexivity. Qed.

Lemma release_spec max st :
  NoDup (_sockets st) → max ≠ 0 →
  let n := Z.min max (Z.of_nat (length (_sockets st))) in
  let gone := take (Z.to_nat n) (_sockets st) in
  let st' := exec (release await pool max) st in
  eval (release await pool max) st = n
  ∧ _sockets st' = drop (Z.to_nat n) (_sockets st)
  ∧ world st'
    = await (inject_Z (settlingTimeMs pool)) (close_all gone (world st))
  ∧ calls st'
    = calls st ++ (Close <$> gone)
      ++ [SetTimeout (inject_Z (settlingTimeMs pool))].
Proof.
  intros Hnd Hmax n gone.
  unfold release, eval, exec. rewrite run_bind.
  destruct (Z.eqb_spec max 0) as [?|_]; [contradiction|].
  rewrite run_bind.
  change (eval held (exec log st)) with (Z.of_nat (length (_sockets st))).
  change (exec held (exec log st)) with (exec log st).
  fold n. rewrite run_bind.
  destruct (release_loop (Z.to_nat n) (exec log st)) as (E1 & E2 & E3);
    [exact Hnd | simpl; lia |].
  set (st1 := exec (repeat_ (Z.to_nat n) (releaseOne >> log)) (exec log st)) in *.
  clearbody st1. unfold bind, sleepMs, log, ret. simpl.
  rewrite E1, E2, E3. simpl. split_and!; try reflexivity.
  by rewrite <- app_assoc.
Qed.

(** *** [consume] *)

Lemma consume_loop n : ∀ st,
  let st' := exec (repeat_ n (consumeOne >> log)) st in
  let hp := heap (world st) in
  world st' = mkWorld (hp ++ replicate n CONNECTING) (now (world st))
  ∧ calls st' = calls st ++ (NewWebSocket <$> seq (length hp) n)
  ∧ (NoDup (_sockets st) → NoDup (_sockets st'))
  ∧ (∃ extra, _sockets st' = _sockets st ++ extra)
  ∧ (Forall (λ socket, (socket < length hp)%nat) (_sockets st) →
     _sockets st' = _sockets st ++ seq (length hp) n).
Proof.
  induction n as [|n IH]; intros [s [hp t] tr cs].
  - simpl. unfold exec, ret. simpl. rewrite !app_nil_r.
    split_and!; try done. exists []. by rewrite app_nil_r.
  - cbn [repeat_]. cbv zeta. rewrite exec_bind.
    set (st1 := exec (consumeOne >> log) _).
    assert (∃ tr1, st1 = mkState (Set_add (length hp) s)
                           (mkWorld (hp ++ [CONNECTING]) t) tr1
                           (cs ++ [NewWebSocket (length hp)])) as [tr1 ->].
    { subst st1. unfold exec, bind, consumeOne, log, new_WebSocket.
      simpl. by eexists. }
    destruct (IH (mkState (Set_add (length hp) s)
                    (mkWorld (hp ++ [CONNECTING]) t) tr1
                    (cs ++ [NewWebSocket (length hp)])))
      as (E1 & E2 & E3 & E4 & E5).
    simpl in *. rewrite length_app in *. simpl in *.
    replace (length hp + 1)%nat with (S (length hp)) in * by lia.
    split_and!.
    + rewrite E1. by rewrite <- app_assoc.
    + rewrite E2. by rewrite <- app_assoc.
    + intros Hnd. by apply E3, Set_add_NoDup.
    + destruct E4 as [extra ->].
      destruct (Set_add_prefix (length hp) s) as [extra0 ->].
      exists (extra0 ++ extra). by rewrite app_assoc.
    + intros Hvalid.
      assert (Set_add (length hp) s = s ++ [length hp]) as Eadd.
      { unfold Set_add. case_decide as Hin; [|reflexivity].
        rewrite Forall_forall in Hvalid. apply Hvalid in Hin. lia. }
      rewrite E5, Eadd.
      * by rewrite <- app_assoc.
      * rewrite Eadd. apply Forall_app. split.
        -- eapply Forall_impl; [exact Hvalid|]. simpl. lia.
        -- repeat constructor.
Qed.

(** The state when the settling time of [consume] has passed. *)
Lemma consume_settled_spec max st :
  let st' := exec (consume_settled await pool max) st in
  let hp := heap (world st) in
  let n := Z.to_nat max in
  eval (consume_settled await pool max) st = Z.of_nat (length (_sockets st))
  ∧ world st'
    = await (inject_Z (settlingTimeMs pool))
        (mkWorld (hp ++ replicate n CONNECTING) (now (world st)))
  ∧ calls st'
    = calls st ++ (NewWebSocket <$> seq (length hp) n)
      ++ [SetTimeout (inject_Z (settlingTimeMs pool))]
  ∧ (NoDup (_sockets st) → NoDup (_sockets st'))
  ∧ (∃ extra, _sockets st' = _sockets st ++ extra)
  ∧ (Forall (λ socket, (socket < length hp)%nat) (_sockets st) →
     _sockets st' = _sockets st ++ seq (length hp) n).
Proof.
  intros st' hp n. subst st'.
  unfold consume_settled, eval, exec. rewrite run_bind.
  rewrite run_bind.
  change (eval held (exec log st)) with (Z.of_nat (length (_sockets st))).
  change (exec held (exec log st)) with (exec log st).
  fold n. rewrite run_bind.
  destruct (consume_loop n (exec log st)) as (E1 & E2 & E3 & E4 & E5).
  set (st1 := exec (repeat_ n (consumeOne >> log)) (exec log st)) in *.
  clearbody st1. unfold bind, sleepMs, ret. simpl in *. rewrite E1, E2.
  split_and!; try done. by rewrite <- app_assoc.
Qed.

Lemma consume_spec max st :
  let mid := exec (consume_settled await pool max) st in
  let st' := exec (consume await pool max) st in
  _sockets st'
  = filter (λ socket, readyState (world mid) socket ≠ 3) (_sockets mid)
  ∧ world st' = world mid
  ∧ calls st' = calls mid
  ∧ eval (consume await pool max) st
    = Z.of_nat (length (_sockets st')) - Z.of_nat (length (_sockets st)).
Proof.
  intros mid st'. subst st'.
  destruct (consume_settled_spec max st) as (E & _).
  unfold consume, eval, exec in *. rewrite run_bind.
  fold mid. unfold eval. rewrite E.
  unfold bind, collectGarbage, held, log, ret. simpl. done.
Qed.

Lemma consume_NoDup max st :
  NoDup (_sockets st) → NoDup (_sockets (exec (consume await pool max) st)).
Proof.
  intros Hnd. destruct (consume_spec max st) as (-> & _).
  apply NoDup_filter.
  by destruct (consume_settled_spec max st) as (_ & _ & _ & H & _); apply H.
Qed.

Lemma release_NoDup max st :
  NoDup (_sockets st) → NoDup (_sockets (exec (release await pool max) st)).
Proof.
  intros Hnd. destruct (Z.eq_dec max 0) as [->|Hmax].
  - unfold exec. rewrite release_zero. exact Hnd.
  - destruct (release_spec max st Hnd Hmax) as (_ & -> & _).
    rewrite <- (take_drop (Z.to_nat (Z.min max (Z.of_nat (length (_sockets st)))))
                 (_sockets st)) in Hnd.
    by apply NoDup_app in Hnd as (_ & _ & ?).
Qed.

Lemma filter_all {A} (P : A → Prop) `{∀ x, Decision (P x)} (l : list A) :
  Forall P l → filter P l = l.
Proof.
  induction 1 as [|x l Hx _ IH]; [reflexivity|].
  by rewrite filter_cons_True, IH.
Qed.

(** C8, as amended.  For max > 0, [release] closes the min(max, held)
    oldest sockets of the pool and removes them, awaits settlingTimeMs
    and returns min(max, held); for max = 0 it returns 0 at once, without
    releasing and without waiting. *)
Theorem release_oldest_first st max :
  NoDup (_sockets st) → 0 ≤ max →
  let n := Z.min max (eval held st) in
  let gone := take (Z.to_nat n) (_sockets st) in
  let st' := exec (release await pool max) st in
  eval (release await pool max) st = n
  ∧ _sockets st' = drop (Z.to_nat n) (_sockets st)
  ∧ eval held st' = eval held st - n
  ∧ (0 < max →
     world st'
     = await (inject_Z (settlingTimeMs pool)) (close_all gone (world st))
     ∧ calls st'
       = calls st ++ (Close <$> gone)
         ++ [SetTimeout (inject_Z (settlingTimeMs pool))])
  ∧ (max = 0 → world st' = world st ∧ calls st' = calls st).
Proof.
  intros Hnd Hmax n gone st'. subst st'.
  destruct (Z.eq_dec max 0) as [->|Hne].
  - unfold eval, exec. rewrite release_zero. subst n gone.
    unfold eval, held. simpl. rewrite Z.min_l by lia. simpl.
    rewrite drop_0. split_and!; try done; lia.
  - destruct (release_spec max st Hnd Hne) as (E1 & E2 & E3 & E4).
    change (Z.of_nat (length (_sockets st))) with (eval held st) in *.
    fold n in E1, E2, E3, E4. fold gone in E3, E4.
    split_and!; try done.
    unfold eval, held; simpl. rewrite E2, length_drop.
    subst n. unfold eval, held. simpl. lia.
Qed.

(** C10.  The calls that [release] adds to the log are one [close] per
    released socket, min(max, held()) and so at most held() of them, and
    then the timer: it never applies [releaseOne] to an empty pool, so
    the call of [close] on [undefined] never happens. *)
Theorem release_never_on_empty st max :
  NoDup (_sockets st) →
  let gone := take (Z.to_nat (Z.min max (eval held st))) (_sockets st) in
  let added :=
    (Close <$> gone)
    ++ (if max =? 0 then []
        else [SetTimeout (inject_Z (settlingTimeMs pool))]) in
  calls (exec (release await pool max) st) = calls st ++ added
  ∧ Z.of_nat (length gone) ≤ eval held st
  ∧ TypeError ∉ added.
Proof.
  intros Hnd gone added. subst added.
  assert (Z.of_nat (length gone) ≤ eval held st) as Hlen.
  { subst gone. rewrite length_take, eval_held. lia. }
  assert (TypeError ∉ Close <$> gone) as Hclose.
  { intros (? & ? & _)%list_elem_of_fmap. discriminate. }
  destruct (Z.eqb_spec max 0) as [->|Hne].
  - unfold exec. rewrite release_zero. subst gone.
    rewrite eval_held, Z.min_l by lia. simpl.
    split_and!; [by rewrite app_nil_r | lia | set_solver].
  - destruct (release_spec max st Hnd Hne) as (_ & _ & _ & E).
    split_and!; [exact E | exact Hlen |].
    intros [Hin|Hin]%elem_of_app; [by apply Hclose|].
    apply list_elem_of_singleton in Hin. discriminate.
Qed.

(** *** [probe] *)


(** *** [isSender] *)

Lemma Qlt_bool_half h m :
  Qlt_bool (inject_Z h) (inject_Z m / 2)%Q = true ↔ 2 * h < m.
Proof.
  unfold Qlt_bool, Qle_bool, Qdiv, Qmult, Qinv, inject_Z. simpl.
  rewrite negb_true_iff, Z.leb_gt. lia.
Qed.

(** [close()] leaves no socket connecting or open. *)
Lemma ws_close_closes socket w i :
  2 ≤ readyState (ws_close socket w) socket
  ∧ (2 ≤ readyState w i → 2 ≤ readyState (ws_close socket w) i).
Proof.
  unfold ws_close, readyState.
  destruct (heap w !! socket) as [[]|] eqn:El; cbn [heap];
    rewrite ?El; cbn [readyState_code]; try (split; [lia | done]).
  - rewrite list_lookup_insert_eq by by eapply lookup_lt_Some.
    split; [done|]. destruct (decide (i = socket)) as [->|Hne].
    + by rewrite list_lookup_insert_eq by by eapply lookup_lt_Some.
    + by rewrite list_lookup_insert_ne.
  - rewrite list_lookup_insert_eq by by eapply lookup_lt_Some.
    split; [done|]. destruct (decide (i = socket)) as [->|Hne].
    + by rewrite list_lookup_insert_eq by by eapply lookup_lt_Some.
    + by rewrite list_lookup_insert_ne.
Qed.

Lemma close_all_keeps_closed sockets : ∀ w i,
  2 ≤ readyState w i → 2 ≤ readyState (close_all sockets w) i.
Proof.
  induction sockets as [|socket sockets IH]; intros w i Hi; [done|].
  apply (IH (ws_close socket w)). by apply ws_close_closes.
Qed.

Lemma close_all_closes sockets : ∀ w,
  Forall (λ socket, 2 ≤ readyState (close_all sockets w) socket) sockets.
Proof.
  induction sockets as [|socket sockets IH]; intros w; constructor.
  - apply (close_all_keeps_closed sockets (ws_close socket w)).
    by destruct (ws_close_closes socket w socket) as [Hc _].
  - apply (IH (ws_close socket w)).
Qed.

(** C6.  After the race (release everything, then try to consume
    maxSlots), a participant that holds fewer than maxSlots/2 sockets
    releases them all and answers false: it calls close() on every socket
    it holds, which leaves none of them connecting or open, waits the
    settling time if there was any, and ends holding none.  Otherwise it
    answers true and keeps exactly the sockets it holds, without another
    call. *)
Theorem isSender_decides st :
  NoDup (_sockets st) →
  let released := exec (release await pool (eval held st)) st in
  let raced := exec (isSender_race await pool) st in
  let st' := exec (isSender await pool) st in
  let settling := inject_Z (settlingTimeMs pool) in
  let closing := close_all (_sockets raced) (world raced) in
  eval held released = 0
  ∧ raced = exec (consume await pool (maxSlots pool)) released
  ∧ ((inject_Z (eval held raced) < inject_Z (maxSlots pool) / 2)%Q →
     eval (isSender await pool) st = false
     ∧ eval held st' = 0
     ∧ calls st'
       = calls raced ++ (Close <$> _sockets raced)
         ++ (if eval held raced =? 0 then [] else [SetTimeout settling])
     ∧ Forall (λ socket, 2 ≤ readyState closing socket) (_sockets raced)
     ∧ world st'
       = (if eval held raced =? 0 then world raced
          else await settling closing))
  ∧ (¬ (inject_Z (eval held raced) < inject_Z (maxSlots pool) / 2)%Q →
     eval (isSender await pool) st = true
     ∧ _sockets st' = _sockets raced ∧ world st' = world raced
     ∧ calls st' = calls raced).
Proof.
  intros Hnd released raced st' settling closing. subst st'.
  assert (eval held released = 0) as Hreleased.
  { subst released. destruct (Z.eq_dec (eval held st) 0) as [E0|Hne].
    - rewrite E0. unfold exec. rewrite release_zero. exact E0.
    - destruct (release_spec (eval held st) st Hnd Hne) as (_ & E & _).
      rewrite !eval_held in *. rewrite E, length_drop. lia. }
  split; [exact Hreleased|]. split.
  { subst raced released. unfold isSender_race.
    by rewrite exec_bind, exec_bind. }
  assert (NoDup (_sockets raced)) as Hnd1.
  { subst raced. unfold isSender_race. rewrite exec_bind, exec_bind.
    by apply consume_NoDup, release_NoDup. }
  unfold isSender. rewrite eval_bind, exec_bind. fold raced.
  rewrite eval_bind, exec_bind.
  change (exec held raced) with raced.
  pose proof (Qlt_bool_half (eval held raced) (maxSlots pool)) as Hb.
  assert ((inject_Z (eval held raced) < inject_Z (maxSlots pool) / 2)%Q
          ↔ 2 * eval held raced < maxSlots pool) as Hq.
  { unfold Qlt, Qdiv, Qmult, Qinv, inject_Z. simpl. lia. }
  rewrite Hq.
  destruct (Qlt_bool _ _) eqn:Eb.
  - split; [intros _ | intros Hn; exfalso; apply Hn, Hb; reflexivity].
    rewrite eval_bind, exec_bind. change (exec held raced) with raced.
    rewrite eval_bind, exec_bind. split; [reflexivity|].
    change (exec (ret ?a) ?s) with s.
    split_and!; [| |apply close_all_closes|].
    + destruct (Z.eq_dec (eval held raced) 0) as [E0|Hne].
      * rewrite E0. unfold exec. rewrite release_zero. exact E0.
      * destruct (release_spec (eval held raced) raced Hnd1 Hne)
          as (_ & E & _).
        unfold eval, held in *. simpl in *. rewrite E, length_drop. lia.
    + destruct (Z.eqb_spec (eval held raced) 0) as [E0|Hne].
      * rewrite E0. unfold exec at 1. rewrite release_zero.
        rewrite eval_held in E0.
        assert (_sockets raced = []) as ->
          by (apply length_zero_iff_nil; lia).
        cbn. by rewrite app_nil_r.
      * destruct (release_spec (eval held raced) raced Hnd1 Hne)
          as (_ & _ & _ & E).
        rewrite E. rewrite eval_held, Z.min_id, Nat2Z.id.
        by rewrite firstn_all.
    + destruct (Z.eqb_spec (eval held raced) 0) as [E0|Hne].
      * rewrite E0. unfold exec at 1. by rewrite release_zero.
      * destruct (release_spec (eval held raced) raced Hnd1 Hne)
          as (_ & _ & E & _).
        rewrite E. subst closing. rewrite eval_held, Z.min_id, Nat2Z.id.
        by rewrite firstn_all.
  - split; [intros Hlt; apply Hb in Hlt; discriminate | intros _].
    done.
Qed.

(** *** [sendInteger] *)

(** The sender prints the hexadecimal string of its payload. *)
Lemma sendInteger_result kBrowser bigInteger startTime st :
  eval (sendInteger await pool kBrowser bigInteger startTime) st
  = Codec.bigIntegerToHex bigInteger (numBits pool).
Proof. unfold sendInteger. by rewrite !eval_bind. Qed.

(** *** Capacity *)

Section Capacity.

Variable limit : Z.

(** The shared pool never leaves more than [limit] sockets alive when a
    timer fires, provided no more than [limit] were open before. *)
Hypothesis await_caps : ∀ interval w,
  Z.of_nat (count_open (heap w)) ≤ limit →
  Z.of_nat (count_live (heap (await interval w))) ≤ limit.

Lemma consume_within_capacity max st :
  within_capacity limit st →
  within_capacity limit (exec (consume await pool max) st).
Proof.
  intros (Hnd & Hopen & _).
  destruct (consume_spec max st) as (E1 & E2 & _).
  destruct (consume_settled_spec max st) as (_ & Ew & _).
  assert (Z.of_nat (count_live (heap (world (exec (consume await pool max) st))))
          ≤ limit) as Hlive.
  { rewrite E2, Ew. apply await_caps. simpl.
    rewrite count_open_app, count_open_replicate.
    case_decide; [done | lia]. }
  split_and!.
  - by apply consume_NoDup.
  - pose proof (count_open_le_live
                  (heap (world (exec (consume await pool max) st)))). lia.
  - etransitivity; [|exact Hlive]. rewrite eval_held.
    apply inj_le, positions_le; [by apply consume_NoDup|].
    intros socket Hin. apply alive_holds.
    rewrite E1 in Hin. apply list_elem_of_filter in Hin as [Halive _].
    by rewrite E2.
Qed.

Lemma release_within_capacity max st :
  within_capacity limit st →
  within_capacity limit (exec (release await pool max) st).
Proof.
  intros (Hnd & Hopen & Hheld).
  destruct (Z.eq_dec max 0) as [->|Hne].
  - unfold exec. rewrite release_zero. by split_and!.
  - destruct (release_spec max st Hnd Hne) as (_ & E1 & E2 & _).
    split_and!.
    + by apply release_NoDup.
    + rewrite E2.
      pose proof (count_open_le_live
        (heap (await (inject_Z (settlingTimeMs pool))
           (close_all (take (Z.to_nat (Z.min max (Z.of_nat (length (_sockets st)))))
                         (_sockets st)) (world st))))) as Hle.
      etransitivity; [apply inj_le, Hle|]. apply await_caps.
      etransitivity; [apply inj_le, count_open_close_all | exact Hopen].
    + rewrite eval_held in *. rewrite E1, length_drop. lia.
Qed.

Lemma bulk_all_within_capacity ops : ∀ st,
  within_capacity limit st →
  within_capacity limit (exec (bulk_all await pool ops) st).
Proof.
  induction ops as [|op ops IH]; intros st Hst; [exact Hst|].
  cbn [bulk_all]. rewrite exec_bind. apply IH.
  destruct op; [by apply consume_within_capacity
               | by apply release_within_capacity].
Qed.

(** In any environment that enforces a capacity, a pool that starts
    empty stays within it. *)
Lemma held_within_capacity_any ops w0 :
  Z.of_nat (count_open (heap w0)) ≤ limit →
  0 ≤ eval held (exec (bulk_all await pool ops) (empty_pool w0)) ≤ limit.
Proof.
  intros Hw0.
  destruct (bulk_all_within_capacity ops (empty_pool w0)) as (_ & _ & Hheld).
  - split_and!; [apply NoDup_nil_2 | exact Hw0 |].
    rewrite eval_held. simpl. lia.
  - split; [|exact Hheld]. rewrite eval_held. lia.
Qed.

End Capacity.

(** *** The schedule *)

Lemma sleepUntil_spec timeMs st :
  let delay := (timeMs - inject_Z (now (world st)))%Q in
  let st' := exec (sleepUntil await timeMs) st in
  eval (sleepUntil await timeMs) st = now (await delay (world st))
  ∧ world st' = await delay (world st)
  ∧ _sockets st' = _sockets st
  ∧ calls st' = calls st ++ [SetTimeout delay].
Proof. done. Qed.

(** Rounding up to a multiple of the interval. *)
Lemma next_round_interval_spec t interval :
  0 < interval →
  let target := next_round_interval t interval in
  target mod interval = 0
  ∧ t ≤ target
  ∧ ∀ m, m mod interval = 0 → t ≤ m → target ≤ m.
Proof.
  intros Hi target. subst target.
  unfold next_round_interval, Codec.Math_ceil_div.
  pose proof (Z.div_mod (- t) interval ltac:(lia)) as Hdm.
  pose proof (Z.mod_pos_bound (- t) interval Hi) as Hb.
  split_and!.
  - apply Z_mod_mult.
  - nia.
  - intros m Hm Htm.
    apply Z.mod_divide in Hm as [k ->]; [|lia].
    assert (- k ≤ (- t) / interval); [|nia].
    apply Z.div_le_lower_bound; [lia|]. nia.
Qed.

(** C9, as amended.  Every cycle sleeps until the wall-clock time rounded
    up to the next multiple of (listSize + 1) * pulseMs, the smallest
    such multiple that is not before the moment of scheduling.  Its t0 is
    the time read when that sleep ends: the multiple itself exactly when
    the timer fires on time. *)
Theorem cycle_start_rounds st :
  let interval := (1 + listSize pool) * pulseMs pool in
  let t := now (world st) in
  let target := next_round_interval t interval in
  let delay := (inject_Z target - inject_Z t)%Q in
  0 < interval →
  (target mod interval = 0 ∧ t ≤ target
   ∧ ∀ m, m mod interval = 0 → t ≤ m → target ≤ m)
  ∧ calls (exec (cycle_start await pool) st) = calls st ++ [SetTimeout delay]
  ∧ eval (cycle_start await pool) st = now (await delay (world st))
  ∧ (eval (cycle_start await pool) st = target
     ↔ now (await delay (world st)) = target).
Proof.
  intros interval t target delay Hi.
  split; [by apply next_round_interval_spec|].
  assert (eval (cycle_start await pool) st = now (await delay (world st))) as E
    by reflexivity.
  split_and!; [done | done | by rewrite E].
Qed.

Lemma receive_loop_turn startTime n i integerList st :
  receive_loop await pool startTime (S n) i integerList st
  = receive_loop await pool startTime n (S i)
      (eval (receive_pulse await pool startTime i integerList) st)
      (exec (receive_pulse await pool startTime i integerList) st).
Proof. cbn [receive_loop]. by rewrite run_bind. Qed.

Lemma receive_loop_split startTime a : ∀ b i integerList st,
  receive_loop await pool startTime (a + b) i integerList st
  = receive_loop await pool startTime b (i + a)
      (eval (receive_loop await pool startTime a i integerList) st)
      (exec (receive_loop await pool startTime a i integerList) st).
Proof.
  induction a as [|a IH]; intros b i integerList st.
  - by rewrite Nat.add_0_r.
  - change (S a + b)%nat with (S (a + b)).
    rewrite receive_loop_turn, IH.
    unfold eval, exec. rewrite (receive_loop_turn _ a).
    by replace (S i + a)%nat with (i + S a)%nat by lia.
Qed.

(** C3, as amended.  In every turn i < listSize of its loop the receiver
    sleeps until startTime + (i + 1.25) * pulseMs, a quarter of a pulse
    after the boundary startTime + (i + 1) * pulseMs at which the
    transmitter adjusts; it then probes for maxValue slots and records
    the probe result minus 1. *)
Theorem receiver_schedule startTime st i :
  (i < Z.to_nat (listSize pool))%nat →
  let before := receive_loop await pool startTime i 0 [] st in
  let timeMs := receive_time pool startTime i in
  let delay := (timeMs - inject_Z (now (world before.2)))%Q in
  let woken := exec (sleepUntil await timeMs) before.2 in
  let integer := eval (probe await pool (maxValue pool)) woken in
  (timeMs == inject_Z (startTime + (Z.of_nat i + 1) * pulseMs pool)
             + (1 # 4) * inject_Z (pulseMs pool))%Q
  ∧ calls woken = calls before.2 ++ [SetTimeout delay]
  ∧ world woken = await delay (world before.2)
  ∧ receive_loop await pool startTime (S i) 0 [] st
    = (before.1 ++ [integer - 1],
       exec (probe await pool (maxValue pool)) woken)
  ∧ receive_loop await pool startTime (Z.to_nat (listSize pool)) 0 [] st
    = receive_loop await pool startTime (Z.to_nat (listSize pool) - S i) (S i)
        (before.1 ++ [integer - 1])
        (exec (probe await pool (maxValue pool)) woken).
Proof.
  intros Hi before timeMs delay woken integer.
  assert (receive_loop await pool startTime (S i) 0 [] st
          = (before.1 ++ [integer - 1],
             exec (probe await pool (maxValue pool)) woken)) as Eturn.
  { replace (S i) with (i + 1)%nat by lia.
    rewrite receive_loop_split. fold before.
    change (eval ?m st) with (m st).1. change (exec ?m st) with (m st).2.
    fold before. cbn [receive_loop]. rewrite run_bind.
    unfold receive_pulse. rewrite eval_bind, exec_bind.
    fold timeMs woken. rewrite eval_bind, exec_bind. fold integer.
    reflexivity. }
  split_and!.
  - subst timeMs. unfold receive_time.
    rewrite inject_Z_plus, inject_Z_mult, inject_Z_plus.
    change (inject_Z 1) with 1%Q. ring.
  - reflexivity.
  - reflexivity.
  - exact Eturn.
  - replace (Z.to_nat (listSize pool))
      with (S i + (Z.to_nat (listSize pool) - S i))%nat at 1 by lia.
    rewrite receive_loop_split. unfold eval, exec. rewrite Eturn.
    reflexivity.
Qed.

End PageFacts.

(** ** Pages in the modelled shared pool *)

Section SharedPool.

Variable cap : nat.
Variable pool : Constants.

(** The rest of the system is a pool of capacity [cap]; when its timers
    fire is left open. *)
Variable await : Q → World → World.
Hypothesis await_settles : ∀ interval w,
  heap (await interval w) = settle cap (heap w).

Lemma settled_no_connecting hp : settled hp → Forall (λ s, s ≠ CONNECTING) hp.
Proof. intros Hhp. eapply Forall_impl; [exact Hhp|]. intros s [-> | ->]; done. Qed.

Lemma finish_closing_settled hp : settled hp → finish_closing <$> hp = hp.
Proof.
  induction 1 as [|s hp [-> | ->] _ IH]; [done | |];
    rewrite fmap_cons, IH; done.
Qed.

Lemma accept_app hp : ∀ budget hp2,
  Forall (λ s, s ≠ CONNECTING) hp →
  accept budget (hp ++ hp2) = hp ++ accept budget hp2.
Proof.
  induction hp as [|s hp IH]; intros budget hp2 Hhp; [done|].
  apply Forall_cons in Hhp as [Hs Hhp].
  destruct s; try done; simpl; by rewrite IH.
Qed.

Lemma accept_no_connecting hp budget :
  Forall (λ s, s ≠ CONNECTING) hp → accept budget hp = hp.
Proof.
  intros Hhp. rewrite <- (app_nil_r hp) at 1.
  rewrite accept_app by done. simpl. by rewrite app_nil_r.
Qed.

Lemma accept_replicate n : ∀ budget,
  accept budget (replicate n CONNECTING)
  = replicate (n `min` budget) OPEN ++ replicate (n - budget) CLOSED.
Proof.
  induction n as [|n IH]; intros [|b]; simpl; try done.
  - specialize (IH 0%nat). rewrite Nat.min_0_r in IH. simpl in IH.
    rewrite Nat.sub_0_r in IH. by rewrite IH.
  - by rewrite IH.
Qed.

Lemma settle_requests hp n :
  settled hp →
  settle cap (hp ++ replicate n CONNECTING)
  = hp ++ replicate (n `min` (cap - count_open hp)) OPEN
       ++ replicate (n - (cap - count_open hp)) CLOSED.
Proof.
  intros Hhp. unfold settle.
  rewrite fmap_app, finish_closing_settled, fmap_replicate by done.
  simpl finish_closing.
  rewrite count_open_app, count_open_replicate, decide_False by done.
  rewrite Nat.add_0_r, accept_app by by apply settled_no_connecting.
  by rewrite accept_replicate.
Qed.

Lemma settle_no_connecting hp :
  Forall (λ s, s ≠ CONNECTING) hp → settle cap hp = finish_closing <$> hp.
Proof.
  intros Hhp. unfold settle. apply accept_no_connecting.
  apply Forall_fmap. eapply Forall_impl; [exact Hhp|].
  intros []; done.
Qed.

Lemma settle_settled hp : settled hp → settle cap hp = hp.
Proof.
  intros Hhp. rewrite settle_no_connecting by by apply settled_no_connecting.
  by apply finish_closing_settled.
Qed.

Lemma filter_none {A} (P : A → Prop) `{∀ x, Decision (P x)} (l : list A) :
  Forall (λ x, ¬ P x) l → filter P l = [].
Proof.
  induction 1 as [|x l Hx _ IH]; [reflexivity|].
  by rewrite filter_cons_False.
Qed.

(** Of the sockets just requested, garbage collection keeps the admitted. *)
Lemma filter_alive_new hp a m t :
  filter (λ i, readyState
                 (mkWorld (hp ++ replicate a OPEN ++ replicate m CLOSED) t) i
               ≠ 3)
    (seq (length hp) (a + m))
  = seq (length hp) a.
Proof.
  rewrite seq_app, filter_app, filter_all, filter_none.
  - by rewrite app_nil_r.
  - apply Forall_forall. intros i [Hlo Hhi]%elem_of_seq.
    unfold readyState. simpl.
    rewrite lookup_app_r by lia.
    rewrite lookup_app_r by (rewrite length_replicate; lia).
    rewrite length_replicate, lookup_replicate_2 by lia. simpl. lia.
  - apply Forall_forall. intros i [Hlo Hhi]%elem_of_seq.
    unfold readyState. simpl.
    rewrite lookup_app_r by lia.
    rewrite lookup_app_l by (rewrite length_replicate; lia).
    rewrite lookup_replicate_2 by lia. done.
Qed.

(** [consume] by a page whose sockets are all open, in a settled world:
    of the requests, as many are admitted as the capacity leaves room
    for, and exactly those are kept. *)
Lemma consume_shared max st :
  settled (heap (world st)) → NoDup (_sockets st) →
  (∀ i, i ∈ _sockets st → heap (world st) !! i = Some OPEN) →
  let hp := heap (world st) in
  let n := Z.to_nat max in
  let a := (n `min` (cap - count_open hp))%nat in
  let st' := exec (consume await pool max) st in
  eval (consume await pool max) st = Z.of_nat a
  ∧ _sockets st' = _sockets st ++ seq (length hp) a
  ∧ heap (world st') = hp ++ replicate a OPEN ++ replicate (n - a) CLOSED.
Proof.
  intros Hset Hnd Hopen hp n a st'. subst st'.
  destruct (consume_spec await pool max st) as (E1 & E2 & _ & E4).
  destruct (consume_settled_spec await pool max st)
    as (_ & Ew & _ & _ & _ & Es).
  set (mid := exec (consume_settled await pool max) st) in *.
  fold hp n in Ew, Es.
  assert (heap (world mid)
          = hp ++ replicate a OPEN ++ replicate (n - a) CLOSED) as Eh.
  { rewrite Ew, await_settles. simpl. rewrite settle_requests by done.
    subst a. do 3 f_equal. lia. }
  rewrite Es in E1.
  2:{ apply Forall_forall. intros i Hi. apply Hopen in Hi.
      by apply lookup_lt_Some in Hi. }
  assert (_sockets (exec (consume await pool max) st)
          = _sockets st ++ seq (length hp) a) as Esock.
  { rewrite E1, filter_app. f_equal.
    - apply filter_all, Forall_forall. intros i Hi. apply Hopen in Hi.
      unfold readyState. rewrite Eh. fold hp in Hi.
      by rewrite (lookup_app_l_Some _ _ _ _ Hi).
    - destruct (world mid) as [hp' t']. simpl in Eh. subst hp'.
      replace n with (a + (n - a))%nat at 1 by lia.
      apply filter_alive_new. }
  split_and!.
  - rewrite E4, Esock, length_app, length_seq. lia.
  - exact Esock.
  - by rewrite E2.
Qed.

Lemma ws_close_lookup socket w i :
  heap (ws_close socket w) !! i
  = if decide (i = socket) then start_closing <$> heap w !! i
    else heap w !! i.
Proof.
  unfold ws_close. case_decide as E.
  - subst i. destruct (heap w !! socket) as [[]|] eqn:El; simpl;
      rewrite ?El; try done;
      by rewrite list_lookup_insert_eq by by eapply lookup_lt_Some.
  - destruct (heap w !! socket) as [[]|] eqn:El; simpl; try done;
      by rewrite list_lookup_insert_ne.
Qed.

Lemma close_all_lookup sockets : ∀ w i,
  heap (close_all sockets w) !! i
  = if decide (i ∈ sockets) then start_closing <$> heap w !! i
    else heap w !! i.
Proof.
  induction sockets as [|socket sockets IH]; intros w i.
  - rewrite decide_False; [done | set_solver].
  - change (close_all (socket :: sockets) w)
      with (close_all sockets (ws_close socket w)).
    rewrite IH, ws_close_lookup.
    destruct (decide (i = socket)) as [->|Hne].
    + rewrite (decide_True (P := socket ∈ socket :: sockets)) by set_solver.
      case_decide; [|done].
      by destruct (heap w !! socket) as [[]|].
    + destruct (decide (i ∈ sockets)).
      * rewrite decide_True; [done | set_solver].
      * rewrite decide_False; [done | set_solver].
Qed.

Lemma close_all_length sockets : ∀ w,
  length (heap (close_all sockets w)) = length (heap w).
Proof.
  induction sockets as [|socket sockets IH]; intros w; simpl; [done|].
  rewrite IH. unfold ws_close.
  destruct (heap w !! socket) as [[]|]; simpl; by rewrite ?length_insert.
Qed.

(** [release] in a settled world: the sockets let go end up closed,
    nothing else changes. *)
Lemma release_shared max st :
  settled (heap (world st)) → NoDup (_sockets st) → max ≠ 0 →
  let k := Z.to_nat (Z.min max (eval held st)) in
  let gone := take k (_sockets st) in
  let st' := exec (release await pool max) st in
  eval (release await pool max) st = Z.min max (eval held st)
  ∧ _sockets st' = drop k (_sockets st)
  ∧ length (heap (world st')) = length (heap (world st))
  ∧ ∀ i, heap (world st') !! i
         = if decide (i ∈ gone) then (λ _, CLOSED) <$> heap (world st) !! i
           else heap (world st) !! i.
Proof.
  intros Hset Hnd Hne k gone st'. subst st'.
  destruct (release_spec await pool max st Hnd Hne)
    as (E1 & E2 & E3 & _).
  change (Z.of_nat (length (_sockets st))) with (eval held st) in *.
  fold k in E2, E3. fold gone in E3.
  assert (Forall (λ s, s ≠ CONNECTING) (heap (close_all gone (world st))))
    as Hnc.
  { apply Forall_lookup. intros i s Hi. rewrite close_all_lookup in Hi.
    case_decide.
    - destruct (heap (world st) !! i) as [[]|]; simpl in Hi; naive_solver.
    - apply (Forall_lookup_1 _ _ _ _ Hset) in Hi. naive_solver. }
  split_and!; [done | done | |].
  - rewrite E3, await_settles, settle_no_connecting by done.
    by rewrite length_fmap, close_all_length.
  - intros i. rewrite E3, await_settles, settle_no_connecting by done.
    rewrite list_lookup_fmap, close_all_lookup.
    destruct (heap (world st) !! i) as [s|] eqn:Ei;
      [|by case_decide].
    apply (Forall_lookup_1 _ _ _ _ Hset) in Ei as Hs.
    case_decide; destruct Hs as [-> | ->]; done.
Qed.

(** C7.  In a shared pool whose capacity is maxSlots (or less), after
    any sequence of bulk consume and release operations that starts from
    an empty pool, 0 <= held() <= maxSlots. *)
Theorem held_within_capacity ops w0 :
  Z.of_nat cap ≤ maxSlots pool →
  (count_open (heap w0) ≤ cap)%nat →
  0 ≤ eval held (exec (bulk_all await pool ops) (empty_pool w0))
    ≤ maxSlots pool.
Proof.
  intros Hcap Hw0.
  destruct (held_within_capacity_any await pool (Z.of_nat cap)) with ops w0
    as [Hlo Hhi].
  - intros interval w Hw. rewrite await_settles.
    apply inj_le, settle_caps. lia.
  - lia.
  - lia.
Qed.

(** *** A page that holds every open socket, and a page that holds none *)

Lemma sole_holder_count st :
  sole_holder st → count_open (heap (world st)) = length (_sockets st).
Proof.
  intros (Hnd & _ & Hopen). symmetry. apply positions_eq; [exact Hnd|].
  intros i. rewrite Hopen. unfold holds_at.
  destruct (heap (world st) !! i); naive_solver.
Qed.

Lemma lookup_grown hp a m i :
  (hp ++ replicate a OPEN ++ replicate m CLOSED) !! i = Some OPEN
  ↔ hp !! i = Some OPEN ∨ (length hp ≤ i < length hp + a)%nat.
Proof.
  destruct (decide (i < length hp)%nat) as [Hlt|Hge].
  - rewrite lookup_app_l by done. split; [by left|].
    intros [?|?]; [done | lia].
  - rewrite lookup_app_r by lia.
    rewrite (lookup_ge_None_2 hp i) by lia.
    destruct (decide (i - length hp < a)%nat).
    + rewrite lookup_app_l by (rewrite length_replicate; lia).
      rewrite lookup_replicate_2 by lia. split; [intros _; right; lia | done].
    + rewrite lookup_app_r by (rewrite length_replicate; lia).
      split.
      * intros [? _]%lookup_replicate. done.
      * intros [?|?]; [done | lia].
Qed.

Lemma settled_grown hp a m :
  settled hp → settled (hp ++ replicate a OPEN ++ replicate m CLOSED).
Proof.
  intros Hhp. unfold settled. rewrite !Forall_app. split_and!; [done | |].
  - apply Forall_replicate. by left.
  - apply Forall_replicate. by right.
Qed.

(** The sole holder consumes: it gets what the capacity leaves. *)
Lemma sole_consume max st :
  sole_holder st →
  let got := (Z.to_nat max `min` (cap - length (_sockets st)))%nat in
  let st' := exec (consume await pool max) st in
  sole_holder st'
  ∧ length (_sockets st') = (length (_sockets st) + got)%nat.
Proof.
  intros Hsole got st'. subst st'.
  pose proof (sole_holder_count st Hsole) as Hcount.
  destruct Hsole as (Hnd & Hset & Hopen).
  destruct (consume_shared max st Hset Hnd) as (_ & Es & Eh).
  { intros i. apply Hopen. }
  rewrite Hcount in Es, Eh. fold got in Es, Eh.
  split.
  - split_and!.
    + by apply consume_NoDup.
    + rewrite Eh. by apply settled_grown.
    + intros i. rewrite Es, Eh, lookup_grown, elem_of_app, elem_of_seq.
      by rewrite Hopen.
  - rewrite Es, length_app, length_seq. done.
Qed.

(** The sole holder releases: what it lets go is closed, the rest is
    still all that is open. *)
Lemma sole_release max st :
  sole_holder st →
  let k := Z.to_nat (Z.min max (eval held st)) in
  let st' := exec (release await pool max) st in
  sole_holder st'
  ∧ length (_sockets st') = (length (_sockets st) - k)%nat.
Proof.
  intros Hsole k st'. subst st'.
  destruct (Z.eq_dec max 0) as [->|Hne].
  - unfold exec. rewrite release_zero. split; [exact Hsole|].
    subst k. unfold exec, log. simpl. rewrite Z.min_l; [simpl; lia|].
    unfold eval, held. simpl. lia.
  - destruct Hsole as (Hnd & Hset & Hopen).
    destruct (release_shared max st Hset Hnd Hne) as (_ & Es & _ & Eh).
    fold k in Es, Eh.
    assert (∀ i, i ∈ take k (_sockets st) → i ∉ drop k (_sockets st)) as Hdis.
    { pose proof Hnd as Hnd'.
      rewrite <- (take_drop k (_sockets st)) in Hnd'.
      by apply NoDup_app in Hnd' as (_ & ? & _). }
    split; [|by rewrite Es, length_drop].
    split_and!.
    + by apply release_NoDup.
    + apply Forall_lookup. intros i s Hi. rewrite Eh in Hi.
      case_decide.
      * destruct (heap (world st) !! i); naive_solver.
      * by apply (Forall_lookup_1 _ _ _ _ Hset) in Hi.
    + intros i. rewrite Es, Eh. case_decide as Hin.
      * split; [intros ?; by apply Hdis in Hin|].
        destruct (heap (world st) !! i); naive_solver.
      * rewrite <- Hopen. rewrite <- (take_drop k (_sockets st)) at 2.
        rewrite elem_of_app. naive_solver.
Qed.

(** A page that holds nothing probes while another page is the sole
    holder: it learns how much room the holder has left, and leaves
    everything as it was. *)
Lemma other_probe max holder st :
  sole_holder holder → _sockets st = [] → world st = world holder →
  let room := (Z.to_nat max `min` (cap - length (_sockets holder)))%nat in
  let st' := exec (probe await pool max) st in
  eval (probe await pool max) st = Z.of_nat room
  ∧ _sockets st' = []
  ∧ sole_holder (hand_over st' holder).
Proof.
  intros Hsole Hempty Hworld room st'. subst st'.
  pose proof (sole_holder_count holder Hsole) as Hcount.
  destruct Hsole as (Hnd & Hset & Hopen).
  rewrite <- Hworld in Hset, Hopen, Hcount.
  destruct (consume_shared max st Hset) as (Ec & Es & Eh).
  { rewrite Hempty. apply NoDup_nil_2. }
  { intros i. rewrite Hempty. by intros ?%elem_of_nil. }
  rewrite Hcount in Ec, Es, Eh. fold room in Ec, Es, Eh.
  rewrite Hempty in Es. simpl in Es.
  set (st1 := exec (consume await pool max) st) in *.
  unfold probe. rewrite eval_bind, exec_bind, eval_bind, exec_bind.
  fold st1. rewrite Ec.
  change (eval (ret ?a) ?s) with a. change (exec (ret ?a) ?s) with s.
  split; [done|].
  assert (settled (heap (world st1))) as Hset1
    by (rewrite Eh; by apply settled_grown).
  assert (∀ i, i ∈ _sockets holder
               ↔ (heap (world st1) !! i = Some OPEN
                  ∧ i ∉ seq (length (heap (world st))) room)) as Hopen1.
  { intros i. rewrite Eh, lookup_grown, elem_of_seq, Hopen.
    split; [|naive_solver lia].
    intros Hi. split; [by left|]. apply lookup_lt_Some in Hi. lia. }
  destruct (Z.eq_dec (Z.of_nat room) 0) as [E0|Hne].
  - rewrite E0.
    assert (exec (release await pool 0) st1 = exec log st1) as ->
      by (unfold exec; by rewrite release_zero).
    assert (room = 0%nat) as Er by lia.
    split; [simpl; by rewrite Es, Er|]. split_and!; [done | done |].
    intros i. simpl. rewrite Hopen1, Er. simpl. set_solver.
  - destruct (release_shared (Z.of_nat room) st1 Hset1) as (_ & Es2 & _ & Eh2);
      [rewrite Es; apply NoDup_seq | done |].
    assert (Z.to_nat (Z.min (Z.of_nat room) (eval held st1)) = room) as Ek.
    { unfold eval, held. simpl. rewrite Es, length_seq. lia. }
    rewrite Ek in Es2, Eh2.
    rewrite Es in Es2, Eh2.
    rewrite take_ge in Eh2 by (rewrite length_seq; lia).
    rewrite drop_ge in Es2 by (rewrite length_seq; lia).
    split; [done|]. split_and!; [done | |].
    + apply Forall_lookup. intros i s Hi. simpl in Hi. rewrite Eh2 in Hi.
      case_decide.
      * destruct (heap (world st1) !! i); naive_solver.
      * by apply (Forall_lookup_1 _ _ _ _ Hset1) in Hi.
    + intros i. simpl. rewrite Hopen1, Eh2. case_decide.
      * destruct (heap (world st1) !! i); naive_solver.
      * naive_solver.
Qed.

(** Waiting in a settled world changes nothing but the clock. *)
Lemma sleepUntil_shared timeMs st :
  settled (heap (world st)) →
  let st' := exec (sleepUntil await timeMs) st in
  _sockets st' = _sockets st ∧ heap (world st') = heap (world st).
Proof.
  intros Hset. unfold sleepUntil, exec, bind, Date_now, sleepMs. simpl.
  split; [done|]. rewrite await_settles. by apply settle_settled.
Qed.

Lemma sleepUntil_sole timeMs st :
  sole_holder st →
  let st' := exec (sleepUntil await timeMs) st in
  sole_holder st' ∧ _sockets st' = _sockets st.
Proof.
  intros (Hnd & Hset & Hopen).
  destruct (sleepUntil_shared timeMs st Hset) as (Es & Eh).
  split; [|done]. unfold sole_holder. rewrite Es, Eh. done.
Qed.

(** The sender's adjustment leaves exactly [integer] slots unheld. *)
Lemma adjust_sole kBrowser lastInteger integer st :
  Z.of_nat cap = maxSlots pool →
  sole_holder st →
  0 ≤ lastInteger ≤ maxSlots pool → 0 < integer ≤ maxSlots pool →
  eval held st = maxSlots pool - lastInteger →
  let st' := exec (adjust await pool kBrowser lastInteger integer) st in
  sole_holder st' ∧ eval held st' = maxSlots pool - integer.
Proof.
  intros Hcap Hsole Hlast Hint Hheld st'. subst st'.
  unfold eval, held in *. simpl in *.
  destruct kBrowser; unfold adjust.
  - destruct (Z.ltb_spec 0 (integer - lastInteger)).
    + rewrite exec_bind. change (exec (ret ?a) ?s) with s.
      destruct (sole_release (integer - lastInteger) st Hsole) as (Hs & El).
      split; [done|]. rewrite El. unfold eval, held. simpl. lia.
    + rewrite exec_bind. change (exec (ret ?a) ?s) with s.
      destruct (sole_consume (- (integer - lastInteger)) st Hsole) as (Hs & El).
      split; [done|]. rewrite El. lia.
  - rewrite exec_bind, exec_bind. change (exec (ret ?a) ?s) with s.
    destruct (sole_consume (lastInteger + 5) st Hsole) as (Hs1 & El1).
    set (st1 := exec (consume await pool (lastInteger + 5)) st) in *.
    destruct (sole_release integer st1 Hs1) as (Hs2 & El2).
    split; [done|]. rewrite El2, El1. unfold eval, held. simpl.
    rewrite El1. lia.
Qed.

(** One pulse.  The sender, sole holder with [lastInteger] slots unheld,
    takes its turn for the digit d; the receiver, holding nothing, takes
    its turn after it. *)
Lemma pulse_exchange kBrowser lst startTime i d lastInteger integerList
    sender receiver :
  Z.of_nat cap = maxSlots pool → maxValue pool ≤ maxSlots pool →
  sole_holder sender → _sockets receiver = [] →
  0 ≤ lastInteger ≤ maxSlots pool →
  eval held sender = maxSlots pool - lastInteger →
  lst !! i = Some d → 0 ≤ d ≤ maxValue pool - 1 →
  let send := send_pulse await pool kBrowser lst startTime i
                lastInteger in
  let sender' := exec send sender in
  let receive := receive_pulse await pool startTime i integerList in
  let woken := exec (sleepUntil await (receive_time pool startTime i))
                 (hand_over sender' receiver) in
  let receiver' := exec receive (hand_over sender' receiver) in
  eval send sender = d + 1
  ∧ eval held sender' = maxSlots pool - (d + 1)
  ∧ eval (probe await pool (maxValue pool)) woken = d + 1
  ∧ eval receive (hand_over sender' receiver) = integerList ++ [d]
  ∧ _sockets receiver' = []
  ∧ sole_holder (hand_over receiver' sender')
  ∧ eval held (hand_over receiver' sender') = maxSlots pool - (d + 1).
Proof.
  intros Hcap Hmax Hsole Hempty Hlast Hheld Hd Hrange
    send sender' receive woken receiver'.
  (* the transmitter's turn *)
  destruct (sleepUntil_sole
              (inject_Z (startTime + (Z.of_nat i + 1) * pulseMs pool)) sender Hsole)
    as (Hsole1 & Es1).
  set (sender1 := exec (sleepUntil await
                     (inject_Z (startTime + (Z.of_nat i + 1) * pulseMs pool)))
                    sender) in *.
  destruct (adjust_sole kBrowser lastInteger (1 + d) sender1 Hcap Hsole1)
    as (Hsole2 & Eheld2); [lia | lia | |].
  { rewrite eval_held in *. by rewrite Es1. }
  assert (send sender
          = (1 + d, exec (adjust await pool kBrowser lastInteger
                            (1 + d)) sender1)) as Esend.
  { subst send. unfold send_pulse. rewrite run_bind. fold sender1.
    rewrite Hd, run_bind. reflexivity. }
  assert (sender' = exec (adjust await pool kBrowser lastInteger
                            (1 + d)) sender1) as Es'
    by (subst sender'; unfold exec; by rewrite Esend).
  rewrite <- Es' in *.
  (* the receiver's turn *)
  set (receiver0 := hand_over sender' receiver) in *.
  destruct Hsole2 as (Hnd2 & Hset2 & Hopen2).
  destruct (sleepUntil_shared (receive_time pool startTime i) receiver0 Hset2)
    as (Esw & Ehw).
  fold woken in Esw, Ehw.
  assert (sole_holder (hand_over woken sender')) as Hsolew.
  { unfold sole_holder, hand_over. cbn [_sockets world]. rewrite Ehw. done. }
  destruct (other_probe (maxValue pool) (hand_over woken sender') woken Hsolew)
    as (Ep & Er & Hsole3); [by rewrite Esw | done |].
  simpl in Ep.
  assert (Z.of_nat
            (Z.to_nat (maxValue pool) `min` (cap - length (_sockets sender')))
          = d + 1) as Eroom.
  { unfold eval, held in Eheld2. simpl in Eheld2. lia. }
  rewrite Eroom in Ep.
  assert (receive receiver0
          = (integerList ++ [d],
             exec (probe await pool (maxValue pool)) woken))
    as Ereceive.
  { subst receive. unfold receive_pulse. rewrite run_bind. fold woken.
    rewrite run_bind, Ep. unfold ret. do 3 f_equal. lia. }
  assert (receiver' = exec (probe await pool (maxValue pool)) woken)
    as Er' by (subst receiver'; unfold exec; by rewrite Ereceive).
  split_and!.
  - unfold eval. rewrite Esend. simpl. lia.
  - rewrite Eheld2. lia.
  - exact Ep.
  - unfold eval. by rewrite Ereceive.
  - by rewrite Er'.
  - rewrite Er'. exact Hsole3.
  - unfold eval, held in *. simpl in *. lia.
Qed.

Lemma transfer_snoc kBrowser lst startTime n :
  ∀ i lastInteger integerList sender receiver,
  transfer await pool kBrowser lst startTime (S n) i lastInteger integerList
    sender receiver
  = let '(last', list', sender', receiver') :=
      transfer await pool kBrowser lst startTime n i lastInteger integerList
        sender receiver in
    transfer await pool kBrowser lst startTime 1 (i + n) last' list'
      sender' receiver'.
Proof.
  induction n as [|n IH]; intros i lastInteger integerList sender receiver.
  - cbn [transfer]. by rewrite Nat.add_0_r.
  - change (transfer await pool kBrowser lst startTime (S (S n)) i lastInteger
              integerList sender receiver)
      with (let (integer, sender1) :=
              send_pulse await pool kBrowser lst startTime i lastInteger sender in
            let (integerList1, receiver1) :=
              receive_pulse await pool startTime i integerList
                (hand_over sender1 receiver) in
            transfer await pool kBrowser lst startTime (S n) (S i) integer
              integerList1 (hand_over receiver1 sender1) receiver1).
    cbn [transfer] in *.
    destruct (send_pulse await pool kBrowser lst startTime i lastInteger sender)
      as [integer sender1].
    destruct (receive_pulse await pool startTime i integerList
                (hand_over sender1 receiver)) as [integerList1 receiver1].
    rewrite IH. by replace (S i + n)%nat with (i + S n)%nat by lia.
Qed.

Lemma baseline_fills st :
  Z.of_nat cap = maxSlots pool → sole_holder st →
  eval held st ≤ maxSlots pool →
  let st' := exec (send_baseline await pool) st in
  sole_holder st' ∧ eval held st' = maxSlots pool.
Proof.
  intros Hcap Hsole Hle. unfold send_baseline. rewrite exec_bind.
  change (exec held st) with st. rewrite !eval_held in *.
  destruct (sole_consume (maxSlots pool - Z.of_nat (length (_sockets st))) st
              Hsole) as (Hs & El).
  split; [done|]. rewrite El. lia.
Qed.

Lemma transfer_between_pulses kBrowser lst startTime sender receiver n :
  Z.of_nat cap = maxSlots pool → maxValue pool ≤ maxSlots pool →
  Forall (λ d, 0 ≤ d ≤ maxValue pool - 1) lst →
  sole_holder sender → eval held sender = maxSlots pool →
  0 ≤ maxSlots pool → _sockets receiver = [] →
  (n ≤ length lst)%nat →
  let '(last', list', sender', receiver') :=
    transfer await pool kBrowser lst startTime n 0 0 []
      sender receiver in
  between_pulses pool lst n last' list' sender' receiver'.
Proof.
  intros Hcap Hmax Hdigits Hsole Hfull Hpos Hempty.
  induction n as [|n IH]; intros Hn.
  - cbn [transfer]. unfold between_pulses. rewrite take_0.
    split_and!; try done; lia.
  - rewrite transfer_snoc.
    destruct (transfer await pool kBrowser lst startTime n 0 0 []
                sender receiver) as [[[last' list'] sender'] receiver'].
    destruct IH as (El & Hs & He & Hh & Hl); [lia|].
    destruct (lookup_lt_is_Some_2 lst n) as [d Hd]; [lia|].
    pose proof (Forall_lookup_1 _ _ _ _ Hdigits Hd) as Hrange.
    destruct (pulse_exchange kBrowser lst startTime n d last' list'
                sender' receiver' Hcap Hmax Hs He Hl Hh Hd Hrange)
      as (E1 & E2 & _ & E4 & E5 & E6 & E7).
    cbn [transfer Nat.add].
    unfold eval, exec in E1, E4, E5, E6, E7.
    destruct (send_pulse await pool kBrowser lst startTime n last'
                sender') as [integer sender1].
    cbn [fst snd] in *.
    destruct (receive_pulse await pool startTime n list'
                (hand_over sender1 receiver')) as [integerList1 receiver1].
    cbn [fst snd] in *. subst integer integerList1.
    unfold between_pulses. split_and!; try done; try lia.
    rewrite El. symmetry. by apply take_S_r.
Qed.

(** C1, as amended.  With a pool of capacity maxSlots, no third party
    and a receiver that holds nothing: in every pulse i of a transfer,
    carrying the digit d of the payload, the transmitter's adjustment
    leaves it holding maxSlots - (d + 1) sockets, so that d + 1 slots are
    unheld; the receiver's probe(maxValue) in the same pulse returns
    d + 1, the recovered digit is d, and the probe leaves the
    transmitter's holding as it was. *)
Theorem digit_fidelity kBrowser x startTime sender0 receiver0 i d :
  Z.of_nat cap = maxSlots pool → 0 < maxValue pool ≤ maxSlots pool →
  0 ≤ x →
  sole_holder sender0 → eval held sender0 ≤ maxSlots pool →
  _sockets receiver0 = [] →
  let lst := Codec.bigIntegerToList x (listSize pool) (maxValue pool) in
  lst !! i = Some d →
  let '(lastInteger, integerList, sender, receiver) :=
    transfer await pool kBrowser lst startTime i 0 0 []
      (exec (send_baseline await pool) sender0) receiver0 in
  let send := send_pulse await pool kBrowser lst startTime i
                lastInteger in
  let sender' := exec send sender in
  let receive := receive_pulse await pool startTime i integerList in
  let woken := exec (sleepUntil await (receive_time pool startTime i))
                 (hand_over sender' receiver) in
  let receiver' := exec receive (hand_over sender' receiver) in
  0 ≤ d ≤ maxValue pool - 1
  ∧ eval held sender' = maxSlots pool - (d + 1)
  ∧ eval (probe await pool (maxValue pool)) woken = d + 1
  ∧ eval receive (hand_over sender' receiver) = take i lst ++ [d]
  ∧ eval held (hand_over receiver' sender') = maxSlots pool - (d + 1).
Proof.
  intros Hcap Hmax Hx Hsole Hle Hempty lst Hd.
  assert (Forall (λ d, 0 ≤ d ≤ maxValue pool - 1) lst) as Hdigits.
  { subst lst. unfold Codec.bigIntegerToList.
    eapply Forall_impl;
      [apply CodecFacts.bigIntegerToList_loop_range; lia|].
    simpl. lia. }
  destruct (baseline_fills sender0 Hcap Hsole Hle) as (Hsole1 & Hfull).
  pose proof (transfer_between_pulses kBrowser lst startTime
                (exec (send_baseline await pool) sender0)
                receiver0 i Hcap ltac:(lia) Hdigits Hsole1 Hfull ltac:(lia)
                Hempty) as Hinv.
  destruct (transfer await pool kBrowser lst startTime i 0 0 []
              (exec (send_baseline await pool) sender0) receiver0)
    as [[[lastInteger integerList] sender] receiver].
  destruct Hinv as (El & Hs & He & Hh & Hl).
  { apply lookup_lt_Some in Hd. lia. }
  pose proof (Forall_lookup_1 _ _ _ _ Hdigits Hd) as Hrange.
  destruct (pulse_exchange kBrowser lst startTime i d lastInteger integerList
              sender receiver Hcap ltac:(lia) Hs He Hl Hh Hd Hrange)
    as (_ & E2 & E3 & E4 & _ & _ & E7).
  cbv zeta. rewrite <- El. done.
Qed.

(** The whole transfer, in the integer model: the receiver ends up with
    the digits of the payload, which decode to the payload. *)
Lemma transfer_recovers_payload kBrowser x startTime sender0 receiver0 :
  Z.of_nat cap = maxSlots pool → 0 < maxValue pool ≤ maxSlots pool →
  0 ≤ listSize pool → 0 ≤ x < maxValue pool ^ listSize pool →
  sole_holder sender0 → eval held sender0 ≤ maxSlots pool →
  _sockets receiver0 = [] →
  let lst := Codec.bigIntegerToList x (listSize pool) (maxValue pool) in
  let '(_, integerList, _, _) :=
    transfer await pool kBrowser lst startTime
      (Z.to_nat (listSize pool)) 0 0 []
      (exec (send_baseline await pool) sender0) receiver0 in
  integerList = lst
  ∧ Codec.listToBigInteger integerList (listSize pool) (maxValue pool)
    = Some x
  ∧ ∀ st, receiveInteger_result pool integerList
          = eval (sendInteger await pool kBrowser x startTime) st.
Proof.
  intros Hcap Hmax Hsize Hx Hsole Hle Hempty lst.
  assert (Forall (λ d, 0 ≤ d ≤ maxValue pool - 1) lst) as Hdigits.
  { subst lst. unfold Codec.bigIntegerToList.
    eapply Forall_impl;
      [apply CodecFacts.bigIntegerToList_loop_range; lia|].
    simpl. lia. }
  assert (length lst = Z.to_nat (listSize pool)) as Hlen
    by apply CodecFacts.bigIntegerToList_length.
  destruct (baseline_fills sender0 Hcap Hsole Hle) as (Hsole1 & Hfull).
  pose proof (transfer_between_pulses kBrowser lst startTime
                (exec (send_baseline await pool) sender0)
                receiver0 (Z.to_nat (listSize pool)) Hcap ltac:(lia) Hdigits
                Hsole1 Hfull ltac:(lia) Hempty ltac:(lia)) as Hinv.
  destruct (transfer await pool kBrowser lst startTime
              (Z.to_nat (listSize pool)) 0 0 []
              (exec (send_baseline await pool) sender0) receiver0)
    as [[[lastInteger integerList] sender] receiver].
  destruct Hinv as (El & _).
  rewrite take_ge in El by lia. subst integerList.
  assert (Codec.listToBigInteger lst (listSize pool) (maxValue pool) = Some x)
    as Edecode.
  { unfold Codec.listToBigInteger. subst lst. unfold Codec.bigIntegerToList.
    apply CodecFacts.roundtrip_loop; [lia|]. by rewrite Z2Nat.id. }
  split_and!; [reflexivity | exact Edecode |].
  intros st. rewrite sendInteger_result.
  unfold receiveInteger_result. by rewrite Edecode.
Qed.

End SharedPool.

(** ** More on the codec *)

Module CodecEdge.
Import Codec CodecFacts.

(** Digits beyond the last are lost. *)
Lemma wrap_loop n : ∀ x m,
  0 < m → 0 ≤ x →
  listToBigInteger_loop (bigIntegerToList_loop n x m []) m n 0
  = Some (x mod m ^ Z.of_nat n).
Proof.
  induction n as [|n IH]; intros x m Hm Hx.
  - simpl. by rewrite Z.mod_1_r.
  - rewrite bigIntegerToList_loop_step by lia.
    rewrite listToBigInteger_loop_cons, IH; [|lia|apply Z.div_pos; lia].
    f_equal. rewrite Nat2Z.inj_succ, Z.pow_succ_r by lia.
    rewrite Z.rem_mul_r; [lia | lia |]. apply Z.pow_pos_nonneg; lia.
Qed.

Lemma decode_encode_loop l : ∀ m,
  0 < m → Forall (λ d, 0 ≤ d < m) l →
  ∃ v, listToBigInteger_loop l m (length l) 0 = Some v
       ∧ 0 ≤ v < m ^ Z.of_nat (length l)
       ∧ bigIntegerToList_loop (length l) v m [] = l.
Proof.
  induction l as [|d l IH]; intros m Hm Hl.
  - exists 0. simpl. split_and!; [done | lia | lia | done].
  - apply Forall_cons in Hl as [Hd Hl].
    destruct (IH m Hm Hl) as (v & Ev & Hv & El).
    exists (v * m + d). cbn [length].
    rewrite listToBigInteger_loop_cons, Ev.
    rewrite Nat2Z.inj_succ, Z.pow_succ_r by lia.
    split_and!; [done | nia | nia |].
    rewrite bigIntegerToList_loop_step by nia.
    replace ((v * m + d) mod m) with d.
    + replace ((v * m + d) / m) with v; [by rewrite El|].
      rewrite Z.add_comm, Z.div_add by lia. rewrite Z.div_small; lia.
    + rewrite Z.add_comm, Z.mod_add by lia. rewrite Z.mod_small; lia.
Qed.

Lemma listToBigInteger_loop_None l m n : ∀ r,
  listToBigInteger_loop l m n r = None ↔ (length l < n)%nat.
Proof.
  induction n as [|n IH]; intros r; simpl.
  - split; [done | lia].
  - destruct (l !! n) as [d|] eqn:E.
    + rewrite IH. apply lookup_lt_Some in E. lia.
    + apply lookup_ge_None in E. split; [lia | done].
Qed.

Lemma listToBigInteger_loop_take l m n : ∀ k r,
  (n ≤ k)%nat →
  listToBigInteger_loop (take k l) m n r = listToBigInteger_loop l m n r.
Proof.
  induction n as [|n IH]; intros k r Hk; simpl; [done|].
  rewrite lookup_take_lt by lia.
  destruct (l !! n); [apply IH; lia | done].
Qed.

(** X4.  The decoder reads exactly the first listSize entries of the
    list: the result is NaN precisely when the list has fewer, and it
    never depends on what comes after them. *)
Theorem listToBigInteger_reads_prefix l listSize m :
  (listToBigInteger l listSize m = None
   ↔ (length l < Z.to_nat listSize)%nat)
  ∧ listToBigInteger l listSize m
    = listToBigInteger (take (Z.to_nat listSize) l) listSize m.
Proof.
  unfold listToBigInteger. split.
  - apply listToBigInteger_loop_None.
  - symmetry. by apply listToBigInteger_loop_take.
Qed.

Lemma quot_opp a b : Z.quot (- a) b = - Z.quot a b.
Proof.
  destruct (Z.eq_dec b 0) as [->|Hb]; [by destruct a|].
  by apply Z.quot_opp_l.
Qed.

Lemma bigIntegerToList_loop_opp n : ∀ x m,
  bigIntegerToList_loop n (- x) m []
  = Z.opp <$> bigIntegerToList_loop n x m [].
Proof.
  induction n as [|n IH]; intros x m; [done|].
  simpl. rewrite (bigIntegerToList_loop_app n _ _ [_]).
  rewrite (bigIntegerToList_loop_app n _ _ [Z.rem x m]).
  rewrite fmap_app. simpl. rewrite Z.rem_opp_l'. f_equal.
  replace (- x - - Z.rem x m) with (- (x - Z.rem x m)) by lia.
  rewrite quot_opp. apply IH.
Qed.

(** X5.  A negative payload is encoded with negative digits: the digits
    of -x are those of x, negated. *)
Theorem bigIntegerToList_negative x listSize m :
  m ≠ 0 →
  bigIntegerToList (- x) listSize m = Z.opp <$> bigIntegerToList x listSize m.
Proof. intros _. apply bigIntegerToList_loop_opp. Qed.

Lemma bigIntegerToList_negative_witness :
  bigIntegerToList (- 1000) 3 7 = Z.opp <$> bigIntegerToList 1000 3 7.
Proof. apply (bigIntegerToList_negative 1000 3 7). lia. Defined.

(** The fixed-width numeral only depends on the low digits. *)
Lemma fixedHex_mod k : ∀ x, fixedHex k (x mod 16 ^ Z.of_nat k) = fixedHex k x.
Proof.
  induction k as [|k IH]; intros x; [done|].
  cbn [fixedHex]. rewrite Nat2Z.inj_succ, Z.pow_succ_r by lia.
  assert (0 < 16 ^ Z.of_nat k) by (apply Z.pow_pos_nonneg; lia).
  rewrite Z.rem_mul_r by lia.
  pose proof (Z.mod_pos_bound x 16 ltac:(lia)) as Hr.
  set (y := (x / 16) mod 16 ^ Z.of_nat k).
  replace ((x mod 16 + 16 * y) / 16) with y
    by (apply Z.div_unique with (r := x mod 16); lia).
  replace ((x mod 16 + 16 * y) mod 16) with (x mod 16)
    by (apply Z.mod_unique with (q := y); lia).
  subst y. by rewrite IH.
Qed.

Lemma fixedHex_head k : ∀ x,
  fixedHex (S k) x
  = String (hexDigit ((x / 16 ^ Z.of_nat k) mod 16)) (fixedHex k x).
Proof.
  induction k as [|k IH]; intros x.
  - cbn. by rewrite Z.div_1_r.
  - change (fixedHex (S (S k)) x)
      with (String.append (fixedHex (S k) (x / 16))
              (String (hexDigit (x mod 16)) EmptyString)).
    rewrite IH. cbn [String.append fixedHex]. do 3 f_equal.
    rewrite Nat2Z.inj_succ, Z.pow_succ_r by lia.
    rewrite Z.div_div; [done | lia |]. apply Z.pow_pos_nonneg; lia.
Qed.

(** Beyond the intended range the leading digit is lost, the width
    kept. *)
Lemma bigIntegerToHex_mod x numBits :
  0 ≤ numBits →
  let n := Math_ceil_div numBits 4 in
  0 ≤ x < 15 * 16 ^ n →
  bigIntegerToHex x numBits = fixedHex (Z.to_nat n) (x mod 16 ^ n)
  ∧ Z.of_nat (String.length (bigIntegerToHex x numBits)) = n
  ∧ parseHex (bigIntegerToHex x numBits) 0 = Some (x mod 16 ^ n).
Proof.
  intros Hn n Hx.
  destruct (Math_ceil_div_4 numBits Hn) as (Hc0 & _ & _). fold n in Hc0.
  assert (0 < 16 ^ n) as Hpos by (apply Z.pow_pos_nonneg; lia).
  assert (bigIntegerToHex x numBits = fixedHex (Z.to_nat n) (x mod 16 ^ n))
    as E.
  { unfold bigIntegerToHex. fold n. unfold toString16.
    destruct (Z.ltb_spec (x + 16 ^ n) 0) as [?|_]; [lia|].
    rewrite (hexDigits_fixedHex (Z.to_nat n)).
    - rewrite append_empty_r, fixedHex_head. cbn [slice1].
      rewrite <- (fixedHex_mod _ (x + 16 ^ n)). f_equal.
      rewrite Z2Nat.id by lia.
      rewrite <- (Z.mul_1_l (16 ^ n)) at 1. by rewrite Z.mod_add by lia.
    - assert (n ≤ Z.log2 (x + 16 ^ n)); [|lia].
      transitivity (Z.log2 (2 ^ n)); [rewrite Z.log2_pow2; lia|].
      apply Z.log2_le_mono.
      assert (2 ^ n ≤ 16 ^ n); [apply Z.pow_le_mono_l; lia | lia].
    - rewrite Nat2Z.inj_succ, Z.pow_succ_r, Z2Nat.id by lia. lia. }
  rewrite E, fixedHex_length. split_and!; [done | lia |].
  rewrite parseHex_fixedHex; [f_equal; lia|].
  rewrite Z2Nat.id by lia. apply Z.mod_pos_bound. lia.
Qed.

End CodecEdge.

(** ** Numbers as the engine computes them *)

Module DoubleFacts.
Import Double.

Lemma two_neq_0 : ¬ (2 == 0)%Q.
Proof. discriminate. Qed.

Lemma pow2_pos e : (0 < 2 ^ e)%Q.
Proof. by apply Qpower_0_lt. Qed.

Lemma pow2_neq_0 e : ¬ (2 ^ e == 0)%Q.
Proof. apply Qpower_not_0, two_neq_0. Qed.

Lemma pow2_Z e : 0 ≤ e → (2 ^ e == inject_Z (2 ^ e))%Q.
Proof. intros He. by rewrite (Zpower_Qpower 2 e He). Qed.

Lemma pow2_le a b : a ≤ b → (2 ^ a <= 2 ^ b)%Q.
Proof. intros Hab. by apply Qpower_le_compat_l. Qed.

Lemma pow2_lt_inv a b : (2 ^ a < 2 ^ b)%Q → a < b.
Proof.
  intros Hlt. destruct (Z.lt_ge_cases a b) as [?|Hge]; [done|].
  apply pow2_le in Hge. exfalso. by apply (Qlt_not_le _ _ Hlt).
Qed.

(** [ilog2] finds a power of two that is not above its argument. *)
Lemma ilog2_le q : (0 < q)%Q → (2 ^ ilog2 q <= q)%Q.
Proof.
  intros Hq. unfold ilog2. destruct q as [n d]. cbn [Qnum Qden].
  set (a := Z.log2 n). set (b := Z.log2 (Z.pos d)). set (k := a - b).
  destruct (Qle_bool (2 ^ k) (n # d)) eqn:E; [by apply Qle_bool_iff|].
  clear E. unfold Qlt in Hq. cbn [Qnum Qden] in Hq.
  assert (0 < n) as Hn by lia.
  pose proof (Z.log2_spec n Hn) as [Hn1 _].
  pose proof (Z.log2_spec (Z.pos d) ltac:(lia)) as [_ Hd2].
  pose proof (Z.log2_nonneg n). pose proof (Z.log2_nonneg (Z.pos d)).
  fold a in Hn1, H. fold b in Hd2, H0.
  assert (2 ^ (k - 1) * 2 ^ (b + 1) == 2 ^ a)%Q as Epow.
  { rewrite <- Qpower_plus by apply two_neq_0. subst k.
    replace (a - b - 1 + (b + 1)) with a by lia. reflexivity. }
  rewrite (pow2_Z (b + 1)), (pow2_Z a) in Epow by lia.
  assert (0 < 2 ^ (b + 1)) as Hb by (apply Z.pow_pos_nonneg; lia).
  apply (Qmult_le_r _ _ (inject_Z (2 ^ (b + 1)))).
  { unfold Qlt. cbn [Qnum Qden inject_Z]. lia. }
  rewrite Epow.
  apply Qle_trans with (y := inject_Z n); [by rewrite <- Zle_Qle|].
  unfold Qle, Qmult, inject_Z. cbn [Qnum Qden].
  replace (Z.succ b) with (b + 1) in Hd2 by lia. nia.
Qed.

Lemma round_half_even_Z z : round_half_even (inject_Z z) = z.
Proof.
  unfold round_half_even. rewrite Qfloor_Z.
  assert (inject_Z z - inject_Z z == 0)%Q as E by ring.
  by rewrite E.
Qed.

Lemma round_half_even_comp q1 q2 :
  (q1 == q2)%Q → round_half_even q1 = round_half_even q2.
Proof.
  intros E. unfold round_half_even.
  rewrite (Qfloor_comp _ _ E).
  assert (q1 - inject_Z (Qfloor q2) == q2 - inject_Z (Qfloor q2))%Q as ->
    by (by rewrite E).
  done.
Qed.

Lemma Qred_Z q z : (q == inject_Z z)%Q → Qred q = inject_Z z.
Proof.
  intros E. rewrite (Qred_complete _ _ E). unfold Qred, inject_Z.
  pose proof (Z.ggcd_correct_divisors z 1) as Hd.
  pose proof (Z.ggcd_gcd z 1) as Hg. rewrite Z.gcd_1_r in Hg.
  destruct (Z.ggcd z 1) as [g [a b]]. cbn [fst snd] in *.
  subst g. destruct Hd as [-> Hb].
  replace b with 1 by lia. f_equal. lia.
Qed.

Lemma Qabs_Z z : Qabs (inject_Z z) = inject_Z (Z.abs z).
Proof. reflexivity. Qed.

(** The heart of the matter: a value with at most 53 significant bits,
    the least worth no less than 2^-1074, and below 2^1024 is a binary64
    value, and rounding leaves it alone. *)
Lemma round_exact_strict q m k :
  (q == inject_Z m * 2 ^ k)%Q → Z.abs m < 2 ^ 53 → -1074 ≤ k →
  (Qabs q < 2 ^ 1024)%Q →
  round q = Num (Qred q).
Proof.
  intros Eq Hm Hk Hfin. unfold round.
  destruct (Qeq_bool q 0) eqn:E0.
  { apply Qeq_bool_iff in E0. by rewrite (Qred_complete _ _ E0). }
  apply Qeq_bool_neq in E0.
  assert (0 < Qabs q)%Q as Hpos.
  { pose proof (Qabs_nonneg q) as Hn.
    apply Qle_lteq in Hn as [?|Hz]; [done|].
    exfalso. apply E0.
    destruct (Qabs_Qle_condition q 0) as [Hc _].
    destruct Hc as [H1 H2]; [rewrite <- Hz; apply Qle_refl|].
    by apply Qle_antisym. }
  set (L := ilog2 (Qabs q)).
  set (E := Z.max (L - 52) (-1074)).
  assert (E ≤ k) as HE.
  { pose proof (ilog2_le (Qabs q) Hpos) as HL. fold L in HL.
    assert (Qabs q < 2 ^ (53 + k))%Q as Hup.
    { rewrite (Qabs_wd _ _ Eq), Qabs_Qmult.
      rewrite (Qabs_pos (2 ^ k)) by apply Qlt_le_weak, pow2_pos.
      rewrite Qpower_plus by apply two_neq_0.
      apply Qmult_lt_r; [apply pow2_pos|].
      rewrite Qabs_Z, pow2_Z by lia. by rewrite <- Zlt_Qlt. }
    pose proof (pow2_lt_inv _ _ (Qle_lt_trans _ _ _ HL Hup)). lia. }
  assert (q / 2 ^ E == inject_Z (m * 2 ^ (k - E)))%Q as Hint.
  { rewrite inject_Z_mult, <- pow2_Z by lia. rewrite Eq.
    rewrite Qpower_minus by apply two_neq_0.
    field. apply pow2_neq_0. }
  rewrite (round_half_even_comp _ _ Hint), round_half_even_Z.
  assert (inject_Z (m * 2 ^ (k - E)) * 2 ^ E == q)%Q as Er.
  { rewrite <- Hint. field. apply pow2_neq_0. }
  destruct (Qle_bool _ _) eqn:Eov.
  - apply Qle_bool_iff in Eov. rewrite (Qabs_wd _ _ Er) in Eov.
    exfalso. by apply (Qlt_not_le _ _ Hfin).
  - f_equal. by apply Qred_complete.
Qed.

Lemma round_exact q m k :
  (q == inject_Z m * 2 ^ k)%Q → Z.abs m ≤ 2 ^ 53 → -1074 ≤ k →
  (Qabs q < 2 ^ 1024)%Q →
  round q = Num (Qred q).
Proof.
  intros Eq Hm Hk Hfin.
  destruct (Z.eq_dec (Z.abs m) (2 ^ 53)) as [Etop|?].
  - assert (m = 2 * (m / 2) ∧ Z.abs (m / 2) < 2 ^ 53) as [Em Hhalf].
    { assert (m = 2 ^ 53 ∨ m = - 2 ^ 53) as [->| ->] by lia; by vm_compute. }
    apply (round_exact_strict q (m / 2) (k + 1)); [|done|lia|done].
    rewrite Eq, Qpower_plus by apply two_neq_0.
    rewrite Em at 1. rewrite inject_Z_mult. change (2 ^ 1)%Q with 2%Q.
    change (inject_Z 2) with 2%Q. ring.
  - apply (round_exact_strict q m k); [done | lia | done | done].
Qed.

(** Whole numbers up to 2^53 are binary64 values. *)
Lemma round_Z q z :
  (q == inject_Z z)%Q → Z.abs z ≤ 2 ^ 53 → round q = of_Z z.
Proof.
  intros Eq Hz. rewrite (round_exact q z 0); [|by rewrite Eq; ring|done|lia|].
  - unfold of_Z. f_equal. by apply Qred_Z.
  - rewrite (Qabs_wd _ _ Eq), Qabs_Z, (pow2_Z 1024) by lia.
    rewrite <- Zlt_Qlt.
    apply Z.le_lt_trans with (m := 2 ^ 53); [done|].
    apply Z.pow_lt_mono_r; lia.
Qed.


Lemma Qred_inject_Z z : Qred (inject_Z z) = inject_Z z.
Proof. by apply Qred_Z. Qed.

(** Rounding at work: the nearest binary64 value to 1/10, ties going to
    the even neighbour above 2^53, and the overflow threshold. *)
Example round_examples :
  round (1 # 10) = Num (3602879701896397 # 36028797018963968)
  ∧ round (inject_Z (2 ^ 53 + 1)) = of_Z (2 ^ 53)
  ∧ round (inject_Z (2 ^ 53 + 3)) = of_Z (2 ^ 53 + 4)
  ∧ round (2 ^ 1024 - 2 ^ 970)%Q = Infinity
  ∧ round (1 / 2 ^ 1075)%Q = Num 0
  ∧ div (of_Z 1) (of_Z 3) = Num (6004799503160661 # 18014398509481984)
  ∧ rem (of_Z (-7)) (of_Z 2) = of_Z (-1).
Proof. vm_compute. repeat split. Qed.

(** *** The operations on whole numbers *)

Lemma add_Z a b :
  Z.abs (a + b) ≤ 2 ^ 53 → add (of_Z a) (of_Z b) = of_Z (a + b).
Proof.
  intros Hb. unfold add, of_Z. apply round_Z; [|done].
  by rewrite inject_Z_plus.
Qed.

Lemma sub_Z a b :
  Z.abs (a - b) ≤ 2 ^ 53 → sub (of_Z a) (of_Z b) = of_Z (a - b).
Proof.
  intros Hb. unfold sub, neg, add, of_Z. apply round_Z; [|done].
  rewrite Qred_correct. unfold Z.sub.
  by rewrite inject_Z_plus, inject_Z_opp.
Qed.

Lemma mul_Z a b :
  Z.abs (a * b) ≤ 2 ^ 53 → mul (of_Z a) (of_Z b) = of_Z (a * b).
Proof.
  intros Hb. unfold mul, of_Z. apply round_Z; [|done].
  by rewrite inject_Z_mult.
Qed.

Lemma inject_Z_neq_0 m : m ≠ 0 → ¬ (inject_Z m == 0)%Q.
Proof. intros Hm E. apply Hm. by apply (inject_Z_injective m 0). Qed.

Lemma nonzero_Z m : m ≠ 0 → Qeq_bool (inject_Z m) 0 = false.
Proof.
  intros Hm. destruct (Qeq_bool _ _) eqn:E; [|done].
  apply Qeq_bool_iff in E. by apply inject_Z_neq_0 in E.
Qed.

(** A division that comes out even. *)
Lemma div_Z a m c :
  m ≠ 0 → a = m * c → Z.abs c ≤ 2 ^ 53 → div (of_Z a) (of_Z m) = of_Z c.
Proof.
  intros Hm -> Hc. unfold div, of_Z. rewrite nonzero_Z by done.
  apply round_Z; [|done].
  rewrite inject_Z_mult. field. by apply inject_Z_neq_0.
Qed.

(** [%] is [Z.rem]. *)
Lemma rem_Z a m : m ≠ 0 → rem (of_Z a) (of_Z m) = of_Z (Z.rem a m).
Proof.
  intros Hm. unfold rem, of_Z. rewrite nonzero_Z by done. f_equal.
  apply Qred_Z.
  assert (Z.quot (Qnum (inject_Z a / inject_Z m))
            (Z.pos (Qden (inject_Z a / inject_Z m))) = Z.quot a m) as ->.
  { destruct m as [|p|p]; [done| |]; unfold Qdiv, Qmult, Qinv, inject_Z;
      cbn [Qnum Qden].
    - by rewrite Z.mul_1_r, Pos.mul_1_l.
    - rewrite Pos.mul_1_l.
      change (Z.neg p) with (- Z.pos p). rewrite Z.quot_opp_r by lia.
      replace (a * -1) with (- a) by lia. by rewrite Z.quot_opp_l by lia. }
  pose proof (Z.quot_rem' a m) as E.
  unfold Qminus. rewrite <- inject_Z_mult, <- inject_Z_opp, <- inject_Z_plus.
  apply inject_Z_injective. lia.
Qed.

Lemma toString16_Z z : toString16 (of_Z z) = Some (Codec.toString16 z).
Proof. unfold toString16, of_Z. by rewrite Qred_inject_Z. Qed.

(** *** The codec on whole numbers below 2^53 *)

(** As long as the payload is a whole number of magnitude at most 2^53,
    the digits the engine computes are those of the integer model. *)
Lemma bigIntegerToList_loop_agrees n : ∀ x m acc,
  m ≠ 0 → Z.abs x ≤ 2 ^ 53 →
  bigIntegerToList_loop n (of_Z x) (of_Z m) (of_Z <$> acc)
  = of_Z <$> Codec.bigIntegerToList_loop n x m acc.
Proof.
  induction n as [|n IH]; intros x m acc Hm Hx; [done|].
  cbn [bigIntegerToList_loop Codec.bigIntegerToList_loop]. cbv zeta.
  pose proof (Z.quot_rem' x m) as E.
  assert (Z.abs (Z.quot x m) ≤ Z.abs x ∧ Z.abs (x - Z.rem x m) ≤ Z.abs x)
    as [Hq Hs].
  { pose proof (Z.rem_sign_mul x m Hm) as Hsign.
    assert (Z.abs (Z.rem x m) ≤ Z.abs x) as Hle.
    { rewrite <- Z.rem_abs by done. apply Z.rem_le; lia. }
    assert (Z.abs (x - Z.rem x m) ≤ Z.abs x) as Hs by nia.
    split; [|done].
    replace (x - Z.rem x m) with (m * Z.quot x m) in Hs by lia.
    rewrite Z.abs_mul in Hs. nia. }
  rewrite rem_Z, sub_Z by (done || lia).
  rewrite (div_Z _ m (Z.quot x m)) by (done || lia).
  replace (Z.quot (x - Z.rem x m) m) with (Z.quot x m).
  - change ((of_Z <$> acc) ++ [of_Z (Z.rem x m)])
      with ((of_Z <$> acc) ++ (of_Z <$> [Z.rem x m])).
    rewrite <- fmap_app. apply IH; [done | lia].
  - replace (x - Z.rem x m) with (Z.quot x m * m) by lia.
    by rewrite Z.quot_mul.
Qed.

Lemma entry_Z l i :
  entry (of_Z <$> l) i = from_option of_Z NaN (l !! i).
Proof. unfold entry. rewrite list_lookup_fmap. by destruct (l !! i). Qed.

Lemma listToBigInteger_loop_NaN lst m n :
  listToBigInteger_loop lst (of_Z m) n NaN = NaN.
Proof. induction n as [|n IH]; [done|]. exact IH. Qed.

(** As long as the digits are in range and every value in range fits in
    53 bits, decoding computes what the integer model computes. *)
Lemma listToBigInteger_loop_agrees l m n : ∀ r,
  0 < m → Forall (λ d, 0 ≤ d < m) l →
  0 ≤ r → (r + 1) * m ^ Z.of_nat n ≤ 2 ^ 53 →
  listToBigInteger_loop (of_Z <$> l) (of_Z m) n (of_Z r)
  = from_option of_Z NaN (Codec.listToBigInteger_loop l m n r).
Proof.
  induction n as [|n IH]; intros r Hm Hl Hr Hb; [done|].
  cbn [listToBigInteger_loop Codec.listToBigInteger_loop].
  rewrite entry_Z. rewrite Nat2Z.inj_succ, Z.pow_succ_r in Hb by lia.
  assert (0 < m ^ Z.of_nat n) as Hpow by (apply Z.pow_pos_nonneg; lia).
  destruct (l !! n) as [d|] eqn:Ed; cbn [from_option].
  - pose proof (Forall_lookup_1 _ _ _ _ Hl Ed) as Hd. simpl in Hd.
    assert (r * m + d + 1 ≤ (r + 1) * m) as Hstep by nia.
    assert ((r * m + d + 1) * m ^ Z.of_nat n ≤ 2 ^ 53) as Hb' by nia.
    rewrite mul_Z, add_Z by nia. apply IH; [done | done | nia | done].
  - rewrite mul_Z by nia. cbn [add of_Z].
    apply listToBigInteger_loop_NaN.
Qed.


(** *** The hexadecimal string *)

Lemma Math_pow_16_Z n :
  0 ≤ n → 16 ^ n ≤ 2 ^ 53 → Math_pow_16 (of_Z n) = of_Z (16 ^ n).
Proof.
  intros Hn Hb. unfold Math_pow_16, of_Z. rewrite Qfloor_Z.
  assert (n < 256) as Hsmall.
  { destruct (Z.lt_ge_cases n 256) as [?|Hge]; [done|].
    pose proof (Z.pow_le_mono_r 16 256 n ltac:(lia) Hge) as Hp.
    assert (2 ^ 53 < 16 ^ 256) by (by vm_compute). lia. }
  destruct (Z.leb_spec 256 n); [lia|].
  destruct (Z.leb_spec n (-270)); [lia|].
  apply round_Z; [|rewrite Z.abs_eq; [done | apply Z.pow_nonneg; lia]].
  rewrite pow2_Z by lia. rewrite Z.pow_mul_r by lia. reflexivity.
Qed.

(** With [nHexDigits] whole and the sum within 53 bits, the string is
    that of the integer model. *)
Lemma bigIntegerToHex_sum x numBits n :
  Math_ceil (div numBits (Num 4)) = of_Z n →
  0 ≤ n → 0 ≤ x → x + 16 ^ n ≤ 2 ^ 53 →
  bigIntegerToHex (of_Z x) numBits
  = Some (Codec.slice1 (Codec.toString16 (x + 16 ^ n))).
Proof.
  intros En Hn Hx Hb. unfold bigIntegerToHex. rewrite En.
  assert (0 < 16 ^ n) by (apply Z.pow_pos_nonneg; lia).
  rewrite Math_pow_16_Z, add_Z, toString16_Z by lia. done.
Qed.

(** [Math.ceil(numBits / 4)] for a whole [numBits]. *)
Lemma Math_ceil_div_4_Z numBits :
  Z.abs numBits ≤ 2 ^ 53 →
  Math_ceil (div (of_Z numBits) (Num 4)) = of_Z (Codec.Math_ceil_div numBits 4).
Proof.
  intros Hb. unfold div, of_Z.
  change (Qeq_bool 4 0) with false. cbv iota.
  assert (inject_Z numBits / 4 == inject_Z numBits * 2 ^ (-2))%Q as E
    by (change (2 ^ (-2))%Q with (/ 4)%Q; reflexivity).
  rewrite (round_exact _ numBits (-2) E Hb) by
    (lia ||
     (rewrite (Qabs_wd _ _ E), Qabs_Qmult, Qabs_Z;
      apply Qle_lt_trans with (y := (inject_Z (2 ^ 53) * 1)%Q);
      [apply Qmult_le_compat_nonneg;
         [split; [by rewrite <- (Zle_Qle 0); lia | by rewrite <- Zle_Qle]
         |split; [apply Qabs_nonneg | by vm_compute]]
      |by vm_compute])).
  unfold Math_ceil. f_equal. f_equal.
  rewrite (Qceiling_comp _ _ (Qred_correct _)).
  unfold Codec.Math_ceil_div, Qceiling. f_equal.
  rewrite Zdiv_Qdiv. apply Qfloor_comp.
  rewrite inject_Z_opp. change (inject_Z 4) with 4%Q. field.
Qed.

Lemma bigIntegerToHex_agrees x numBits :
  0 ≤ numBits ≤ 2 ^ 53 → 0 ≤ x →
  x + 16 ^ Codec.Math_ceil_div numBits 4 ≤ 2 ^ 53 →
  bigIntegerToHex (of_Z x) (of_Z numBits)
  = Some (Codec.bigIntegerToHex x numBits).
Proof.
  intros Hn Hx Hb.
  destruct (CodecFacts.Math_ceil_div_4 numBits) as (Hc & _); [lia|].
  apply bigIntegerToHex_sum; [|done|done|done].
  apply Math_ceil_div_4_Z. lia.
Qed.


Lemma bigIntegerToList_agrees x listSize m :
  m ≠ 0 → Z.abs x ≤ 2 ^ 53 →
  bigIntegerToList (of_Z x) listSize (of_Z m)
  = of_Z <$> Codec.bigIntegerToList x listSize m.
Proof.
  intros Hm Hx. unfold bigIntegerToList, Codec.bigIntegerToList.
  by apply (bigIntegerToList_loop_agrees _ x m []).
Qed.

Lemma listToBigInteger_agrees l listSize m :
  0 < m → Forall (λ d, 0 ≤ d < m) l → m ^ listSize ≤ 2 ^ 53 →
  0 ≤ listSize →
  listToBigInteger (of_Z <$> l) listSize (of_Z m)
  = from_option of_Z NaN (Codec.listToBigInteger l listSize m).
Proof.
  intros Hm Hl Hb Hn. unfold listToBigInteger, Codec.listToBigInteger.
  apply (listToBigInteger_loop_agrees l m _ 0); [done | done | lia |].
  rewrite Z2Nat.id by done. lia.
Qed.

(** *** The claims about the codec *)

(** C2, as amended.  For every listSize >= 0, every maxValue >= 1 with
    maxValue^listSize <= 2^53 and every whole x in
    [0, maxValue^listSize), decoding what the engine computes as the
    encoding of x gives x again. *)
Theorem roundtrip listSize maxValue x :
  0 ≤ listSize → 1 ≤ maxValue → maxValue ^ listSize ≤ 2 ^ 53 →
  0 ≤ x < maxValue ^ listSize →
  listToBigInteger (bigIntegerToList (of_Z x) listSize (of_Z maxValue))
    listSize (of_Z maxValue)
  = of_Z x.
Proof.
  intros Hl Hm Hb Hx.
  rewrite bigIntegerToList_agrees by lia.
  rewrite listToBigInteger_agrees; [|lia| |done|done].
  - unfold Codec.listToBigInteger, Codec.bigIntegerToList.
    rewrite CodecFacts.roundtrip_loop; [done | lia |].
    by rewrite Z2Nat.id.
  - apply CodecFacts.bigIntegerToList_loop_range; lia.
Qed.

Lemma roundtrip_witness :
  listToBigInteger (bigIntegerToList (of_Z 123456789) 5 (of_Z 128)) 5 (of_Z 128)
  = of_Z 123456789.
Proof.
  apply roundtrip;
    [lia | lia | by vm_compute | vm_compute; split; [discriminate | reflexivity]].
Defined.

(** C2 as stated fails above 2^53.  The payload 92146676778793328 is a
    binary64 value below 10^17; its first digit is 8, but feed - 8 is not
    a binary64 value and rounds to 92146676778793312, and the 17 digits
    decode to that number. *)
Lemma roundtrip_rounds_above_2_53 :
  let x := 92146676778793328 in
  0 ≤ x < 10 ^ 17
  ∧ round (inject_Z x) = of_Z x
  ∧ sub (of_Z x) (rem (of_Z x) (of_Z 10)) = of_Z 92146676778793312
  ∧ listToBigInteger (bigIntegerToList (of_Z x) 17 (of_Z 10)) 17 (of_Z 10)
    = of_Z 92146676778793312
  ∧ ¬ (listToBigInteger (bigIntegerToList (of_Z x) 17 (of_Z 10)) 17 (of_Z 10)
       = of_Z x).
Proof.
  vm_compute. split_and!; try reflexivity; discriminate.
Qed.

Lemma slice_toString16_fixedHex x n :
  0 ≤ n → 0 ≤ x < 16 ^ n →
  Codec.slice1 (Codec.toString16 (x + 16 ^ n)) = Codec.fixedHex (Z.to_nat n) x.
Proof.
  intros Hn Hx.
  assert (Codec.Math_ceil_div (4 * n) 4 = n) as Ec.
  { unfold Codec.Math_ceil_div.
    replace (- (4 * n)) with ((- n) * 4) by lia. rewrite Z.div_mul; lia. }
  assert (2 ^ (4 * n) = 16 ^ n) as Ep by (by rewrite Z.pow_mul_r by lia).
  destruct (CodecFacts.bigIntegerToHex_fixedHex x (4 * n)) as [E _];
    [lia | by rewrite Ep |].
  unfold Codec.bigIntegerToHex in E. by rewrite Ec in E.
Qed.

(** C4, as amended.  Let nHexDigits be what the engine computes as
    Math.ceil(numBits / 4), with maxValue^listSize <= 16^nHexDigits and
    2 * 16^nHexDigits <= 2^53.  For every whole x in
    [0, maxValue^listSize), bigIntegerToHex returns exactly nHexDigits
    characters: the hexadecimal numeral of x, zero-padded on the left,
    which reads back as x. *)
Theorem bigIntegerToHex_width listSize maxValue numBits nHexDigits x :
  Math_ceil (div numBits (Num 4)) = of_Z nHexDigits →
  maxValue ^ listSize ≤ 16 ^ nHexDigits → 2 * 16 ^ nHexDigits ≤ 2 ^ 53 →
  0 ≤ x < maxValue ^ listSize →
  ∃ s, bigIntegerToHex (of_Z x) numBits = Some s
       ∧ Z.of_nat (String.length s) = nHexDigits
       ∧ s = Codec.fixedHex (Z.to_nat nHexDigits) x
       ∧ Codec.parseHex s 0 = Some x.
Proof.
  intros En Hrange Hb Hx.
  assert (0 ≤ nHexDigits) as Hn.
  { destruct (Z.lt_ge_cases nHexDigits 0) as [Hneg|?]; [|done].
    rewrite (Z.pow_neg_r 16 nHexDigits Hneg) in Hrange. lia. }
  exists (Codec.fixedHex (Z.to_nat nHexDigits) x).
  rewrite (bigIntegerToHex_sum x numBits nHexDigits En) by lia.
  rewrite slice_toString16_fixedHex by lia.
  rewrite CodecFacts.fixedHex_length.
  split_and!; [done | lia | done |].
  rewrite CodecFacts.parseHex_fixedHex; [f_equal; lia|].
  rewrite Z2Nat.id by lia. lia.
Qed.

Lemma bigIntegerToHex_width_witness :
  ∃ s, bigIntegerToHex (of_Z 255) (of_Z 35) = Some s
       ∧ Z.of_nat (String.length s) = 9
       ∧ s = Codec.fixedHex (Z.to_nat 9) 255
       ∧ Codec.parseHex s 0 = Some 255.
Proof.
  apply (bigIntegerToHex_width 5 128 (of_Z 35) 9 255);
    [reflexivity | by vm_compute | by vm_compute
    | vm_compute; split; [discriminate | reflexivity]].
Defined.

(** C4 as stated fails where binary64 runs out.  For maxValue = 2 and
    listSize = 1024, numBits is 1024 and 16^256 is Infinity: the string
    has 7 characters, not 256.  For maxValue = 2 and listSize = 64,
    numBits is 64 and 1 + 16^16 rounds to 16^16: the string for x = 1
    is sixteen zeros, the numeral of 0. *)
Lemma bigIntegerToHex_beyond_binary64 :
  Math_pow_16 (Math_ceil (div (of_Z 1024) (Num 4))) = Infinity
  ∧ bigIntegerToHex (of_Z 0) (of_Z 1024) = Some "nfinity"%string
  ∧ ¬ (Z.of_nat (String.length "nfinity") = Codec.Math_ceil_div 1024 4)
  ∧ add (of_Z 1) (Math_pow_16 (of_Z 16)) = of_Z (16 ^ 16)
  ∧ bigIntegerToHex (of_Z 1) (of_Z 64) = Some "0000000000000000"%string
  ∧ Codec.parseHex "0000000000000000" 0 = Some 0.
Proof. vm_compute. split_and!; try reflexivity. discriminate. Qed.

(** X1.  For a whole payload x in [0, 2^53] and maxSmallInteger >= 1,
    what the engine computes as bigIntegerToList has exactly listSize
    entries (none when listSize <= 0), each a whole number in
    [0, maxSmallInteger). *)
Theorem bigIntegerToList_digits x listSize m :
  0 ≤ x ≤ 2 ^ 53 → 0 < m →
  length (bigIntegerToList (of_Z x) listSize (of_Z m)) = Z.to_nat listSize
  ∧ Forall (λ d, ∃ z, d = of_Z z ∧ 0 ≤ z < m)
      (bigIntegerToList (of_Z x) listSize (of_Z m)).
Proof.
  intros Hx Hm. rewrite bigIntegerToList_agrees by lia.
  rewrite length_fmap, CodecFacts.bigIntegerToList_length.
  split; [done|]. apply Forall_fmap.
  eapply Forall_impl;
    [apply CodecFacts.bigIntegerToList_loop_range; lia|].
  intros z Hz. by exists z.
Qed.

Lemma bigIntegerToList_digits_witness :
  length (bigIntegerToList (of_Z 1000) 3 (of_Z 7)) = Z.to_nat 3
  ∧ Forall (λ d, ∃ z, d = of_Z z ∧ 0 ≤ z < 7)
      (bigIntegerToList (of_Z 1000) 3 (of_Z 7)).
Proof. apply bigIntegerToList_digits; [by vm_compute | lia]. Defined.

(** X2.  A payload too large for listSize digits loses its high part:
    for maxSmallInteger^listSize <= 2^53 and a whole x in [0, 2^53],
    decoding the encoding of x gives x mod maxSmallInteger^listSize. *)
Theorem encoding_wraps x listSize m :
  0 ≤ listSize → 0 < m → m ^ listSize ≤ 2 ^ 53 → 0 ≤ x ≤ 2 ^ 53 →
  listToBigInteger (bigIntegerToList (of_Z x) listSize (of_Z m)) listSize
    (of_Z m)
  = of_Z (x mod m ^ listSize).
Proof.
  intros Hl Hm Hb Hx.
  rewrite bigIntegerToList_agrees by lia.
  rewrite listToBigInteger_agrees; [|lia| |done|done].
  - unfold Codec.listToBigInteger, Codec.bigIntegerToList.
    rewrite CodecEdge.wrap_loop by lia. by rewrite Z2Nat.id.
  - apply CodecFacts.bigIntegerToList_loop_range; lia.
Qed.

Lemma encoding_wraps_witness :
  listToBigInteger (bigIntegerToList (of_Z 1000) 2 (of_Z 7)) 2 (of_Z 7)
  = of_Z (1000 mod 7 ^ 2).
Proof. apply encoding_wraps; [lia | lia | by vm_compute | by vm_compute]. Defined.

(** X3.  The other round trip: for maxSmallInteger^listSize <= 2^53, a
    list of listSize whole digits, each in [0, maxSmallInteger), decodes
    to a whole number below maxSmallInteger^listSize whose encoding is
    the list again. *)
Theorem decode_then_encode l listSize m :
  0 < m → Z.of_nat (length l) = listSize → m ^ listSize ≤ 2 ^ 53 →
  Forall (λ d, 0 ≤ d < m) l →
  ∃ v, listToBigInteger (of_Z <$> l) listSize (of_Z m) = of_Z v
       ∧ 0 ≤ v < m ^ listSize
       ∧ bigIntegerToList (of_Z v) listSize (of_Z m) = of_Z <$> l.
Proof.
  intros Hm <- Hb Hl.
  destruct (CodecEdge.decode_encode_loop l m Hm Hl) as (v & Ev & Hv & Eb).
  exists v.
  rewrite listToBigInteger_agrees by (done || lia).
  rewrite bigIntegerToList_agrees by lia.
  unfold Codec.listToBigInteger, Codec.bigIntegerToList.
  rewrite Nat2Z.id, Ev, Eb. done.
Qed.

Lemma decode_then_encode_witness :
  ∃ v, listToBigInteger (of_Z <$> [3; 0; 6]) 3 (of_Z 7) = of_Z v
       ∧ 0 ≤ v < 7 ^ 3
       ∧ bigIntegerToList (of_Z v) 3 (of_Z 7) = of_Z <$> [3; 0; 6].
Proof.
  apply decode_then_encode; [lia | reflexivity | by vm_compute |].
  repeat constructor; lia.
Defined.

(** X6.  The hexadecimal string keeps its width for payloads up to
    fifteen times the intended range, but not their value.  Let
    nHexDigits >= 0 be what the engine computes as Math.ceil(numBits / 4),
    with 16 * 16^nHexDigits <= 2^53: for a whole x in
    [0, 15 * 16^nHexDigits) the string has nHexDigits characters and
    reads back as x mod 16^nHexDigits, so a payload at or above
    16^nHexDigits silently loses its leading digit. *)
Theorem bigIntegerToHex_overflow x numBits nHexDigits :
  Math_ceil (div numBits (Num 4)) = of_Z nHexDigits → 0 ≤ nHexDigits →
  16 * 16 ^ nHexDigits ≤ 2 ^ 53 → 0 ≤ x < 15 * 16 ^ nHexDigits →
  ∃ s, bigIntegerToHex (of_Z x) numBits = Some s
       ∧ s = Codec.fixedHex (Z.to_nat nHexDigits) (x mod 16 ^ nHexDigits)
       ∧ Z.of_nat (String.length s) = nHexDigits
       ∧ Codec.parseHex s 0 = Some (x mod 16 ^ nHexDigits).
Proof.
  intros En Hn Hb Hx.
  assert (Codec.Math_ceil_div (4 * nHexDigits) 4 = nHexDigits) as Ec.
  { unfold Codec.Math_ceil_div.
    replace (- (4 * nHexDigits)) with ((- nHexDigits) * 4) by lia.
    rewrite Z.div_mul; lia. }
  pose proof (CodecEdge.bigIntegerToHex_mod x (4 * nHexDigits) ltac:(lia))
    as Hmod.
  cbv zeta in Hmod. rewrite Ec in Hmod.
  destruct (Hmod Hx) as (E1 & E2 & E3).
  unfold Codec.bigIntegerToHex in E1, E2, E3. rewrite Ec in E1, E2, E3.
  eexists. rewrite (bigIntegerToHex_sum x numBits nHexDigits En) by lia.
  split; [reflexivity|]. done.
Qed.

Lemma bigIntegerToHex_overflow_witness :
  ∃ s, bigIntegerToHex (of_Z (16 ^ 2 + 5)) (of_Z 8) = Some s
       ∧ s = Codec.fixedHex (Z.to_nat 2) ((16 ^ 2 + 5) mod 16 ^ 2)
       ∧ Z.of_nat (String.length s) = 2
       ∧ Codec.parseHex s 0 = Some ((16 ^ 2 + 5) mod 16 ^ 2).
Proof.
  apply (bigIntegerToHex_overflow (16 ^ 2 + 5) (of_Z 8) 2);
    [reflexivity | lia | by vm_compute
    | vm_compute; split; [discriminate | reflexivity]].
Defined.

End DoubleFacts.

(** ** More on the pool primitives *)

Section PrimitiveFacts.

Variable await : Q → World → World.
Variable pool : Constants.

Lemma Set_add_length socket s :
  (length s ≤ length (Set_add socket s) ≤ S (length s))%nat.
Proof.
  unfold Set_add. case_decide; [lia|]. rewrite length_app. simpl. lia.
Qed.

Lemma consume_loop_length n : ∀ st,
  (length (_sockets (exec (repeat_ n (consumeOne >> log)) st))
   ≤ length (_sockets st) + n)%nat.
Proof.
  induction n as [|n IH]; intros st; [unfold exec, ret; simpl; lia|].
  cbn [repeat_]. rewrite exec_bind.
  etransitivity; [apply IH|].
  destruct st as [s [hp t] tr cs]. unfold exec, bind, consumeOne, log. simpl.
  pose proof (Set_add_length (length hp) s). lia.
Qed.

(** X7.  [consume] asks for exactly max new sockets, whatever the pool
    can give, and awaits the settling time once; what it returns is the
    net change of the held-count, never more than max; and right after
    it no held socket is closed. *)
Theorem consume_accounts st max :
  let st' := exec (consume await pool max) st in
  let result := eval (consume await pool max) st in
  calls st'
  = calls st
    ++ (NewWebSocket <$> seq (length (heap (world st))) (Z.to_nat max))
    ++ [SetTimeout (inject_Z (settlingTimeMs pool))]
  ∧ eval held st' = eval held st + result
  ∧ - eval held st ≤ result ≤ Z.max 0 max
  ∧ Forall (λ socket, readyState (world st') socket ≠ 3) (_sockets st').
Proof.
  intros st' result. subst st' result.
  destruct (consume_spec await pool max st) as (E1 & E2 & E3 & E4).
  destruct (consume_settled_spec await pool max st) as (_ & _ & Ec & _).
  assert (length (_sockets (exec (consume_settled await pool max) st))
          ≤ length (_sockets st) + Z.to_nat max)%nat as Hlen.
  { unfold consume_settled. rewrite exec_bind, exec_bind, exec_bind, exec_bind.
    change (exec held ?s) with s.
    etransitivity; [apply consume_loop_length|]. simpl. lia. }
  pose proof (length_filter
                (λ socket, readyState
                   (world (exec (consume_settled await pool max) st)) socket ≠ 3)
                (_sockets (exec (consume_settled await pool max) st))) as Hf.
  rewrite <- E1 in Hf.
  rewrite !eval_held. split_and!.
  - by rewrite E3, Ec.
  - rewrite E4. lia.
  - rewrite E4. lia.
  - rewrite E4. lia.
  - rewrite E1, E2. apply Forall_forall.
    by intros socket [? _]%list_elem_of_filter.
Qed.

(** X8.  When the sockets of the pool are known to the browser and none
    of them, old or new, is found closed after the settling time,
    [consume] returns max itself and holds the new sockets after the old
    ones, in the order of their creation. *)
Theorem consume_all_kept st max :
  0 ≤ max →
  Forall (λ socket, (socket < length (heap (world st)))%nat) (_sockets st) →
  Forall (λ socket,
            readyState (world (exec (consume_settled await pool max) st)) socket
            ≠ 3)
    (_sockets st ++ seq (length (heap (world st))) (Z.to_nat max)) →
  eval (consume await pool max) st = max
  ∧ _sockets (exec (consume await pool max) st)
    = _sockets st ++ seq (length (heap (world st))) (Z.to_nat max).
Proof.
  intros Hmax Hvalid Halive.
  destruct (consume_spec await pool max st) as (E1 & _ & _ & E4).
  destruct (consume_settled_spec await pool max st) as (_ & _ & _ & _ & _ & Es).
  rewrite (Es Hvalid), filter_all in E1 by exact Halive.
  split; [|exact E1].
  rewrite E4, E1, length_app, length_seq. lia.
Qed.

(** X9.  A negative max makes [release] return that negative number: it
    releases nothing, but still awaits the settling time. *)
Theorem release_negative st max :
  max < 0 →
  let st' := exec (release await pool max) st in
  eval (release await pool max) st = max
  ∧ _sockets st' = _sockets st
  ∧ world st' = await (inject_Z (settlingTimeMs pool)) (world st)
  ∧ calls st' = calls st ++ [SetTimeout (inject_Z (settlingTimeMs pool))].
Proof.
  intros Hmax st'. subst st'.
  unfold release, eval, exec. rewrite run_bind.
  destruct (Z.eqb_spec max 0) as [?|_]; [lia|].
  rewrite run_bind. rewrite eval_held.
  change (exec held (exec log st)) with (exec log st).
  replace (Z.to_nat (Z.min max (Z.of_nat (length (_sockets (exec log st))))))
    with 0%nat by lia.
  rewrite Z.min_l by lia. done.
Qed.

(** [probe], step by step, for a set without repeats. *)
Lemma probe_spec st max :
  NoDup (_sockets st) →
  let grown := exec (consume await pool max) st in
  let st' := exec (probe await pool max) st in
  let result := eval (consume await pool max) st in
  eval (probe await pool max) st = result
  ∧ _sockets st' = drop (Z.to_nat result) (_sockets grown)
  ∧ (0 < result →
     calls st'
     = calls grown ++ (Close <$> take (Z.to_nat result) (_sockets grown))
       ++ [SetTimeout (inject_Z (settlingTimeMs pool))]).
Proof.
  intros Hnd grown st' result. subst st'.
  pose proof (consume_NoDup await pool max st Hnd) as Hnd1. fold grown in Hnd1.
  destruct (consume_spec await pool max st) as (_ & _ & _ & E4).
  fold grown result in E4.
  unfold probe. rewrite eval_bind, exec_bind, eval_bind, exec_bind.
  fold grown result. change (eval (ret ?a) ?s) with a.
  change (exec (ret ?a) ?s) with s.
  split; [done|].
  destruct (Z.eq_dec result 0) as [E0|Hne].
  - rewrite E0. unfold exec at 1 2. rewrite release_zero. simpl.
    split; [done | lia].
  - destruct (release_spec await pool result grown Hnd1 Hne) as (_ & E & _ & Ec).
    assert (Z.to_nat (Z.min result (Z.of_nat (length (_sockets grown))))
            = Z.to_nat result) as Ek by lia.
    rewrite Ek in E, Ec. done.
Qed.

(** X10.  Whatever the environment does, after [probe] the pool holds
    the smaller of what it held before and what it held once [consume]
    had collected garbage: a probe never leaves the pool with more
    sockets than before, and with fewer only if sockets died. *)
Theorem probe_held_is_min st max :
  NoDup (_sockets st) →
  eval held (exec (probe await pool max) st)
  = Z.min (eval held st) (eval held (exec (consume await pool max) st))
  ∧ eval (probe await pool max) st
    = eval held (exec (consume await pool max) st) - eval held st.
Proof.
  intros Hnd.
  destruct (probe_spec st max Hnd) as (Er & Es & _).
  destruct (consume_spec await pool max st) as (_ & _ & _ & E4).
  rewrite !eval_held, Er, Es, length_drop, E4. lia.
Qed.

(** X11.  [probe] gives back the oldest sockets of the pool, not the
    ones it has just opened: when it finds room and nothing it held has
    died, the socket the pool has held longest is closed and leaves the
    pool, although the held-count is unchanged. *)
Theorem probe_releases_oldest st max oldest rest :
  NoDup (_sockets st) → _sockets st = oldest :: rest →
  Forall (λ socket,
            readyState (world (exec (consume_settled await pool max) st)) socket
            ≠ 3) (_sockets st) →
  0 < eval (probe await pool max) st →
  let st' := exec (probe await pool max) st in
  (Close oldest ∈ calls st')
  ∧ (oldest ∉ _sockets st')
  ∧ eval held st' = eval held st.
Proof.
  intros Hnd Es Halive Hpos st'. subst st'.
  destruct (probe_spec st max Hnd) as (Er & Ed & Ec).
  rewrite Er in Hpos. specialize (Ec Hpos).
  pose proof (consume_NoDup await pool max st Hnd) as Hnd1.
  destruct (consume_spec await pool max st) as (E1 & _ & _ & E4).
  destruct (consume_settled_spec await pool max st)
    as (_ & _ & _ & _ & [extra Ee] & _).
  rewrite Ee, filter_app, filter_all in E1 by exact Halive.
  set (grown := exec (consume await pool max) st) in *.
  set (result := eval (consume await pool max) st) in *.
  assert (oldest ∈ take (Z.to_nat result) (_sockets grown)) as Hin.
  { rewrite E1, Es. destruct (Z.to_nat result) eqn:Ek; [lia|].
    simpl. set_solver. }
  split_and!.
  - rewrite Ec. set_solver.
  - rewrite Ed. intros Hin'.
    rewrite <- (take_drop (Z.to_nat result) (_sockets grown)) in Hnd1.
    apply NoDup_app in Hnd1 as (_ & Hdis & _). by apply (Hdis oldest).
  - rewrite !eval_held, Ed, length_drop. fold grown result in E4. lia.
Qed.

End PrimitiveFacts.

(** ** The trace *)

Section TraceFacts.

Variable await : Q → World → World.
Variable pool : Constants.

Lemma appends_ret {A} (a : A) : appends (ret a).
Proof. intros st. done. Qed.

Lemma appends_bind {A B} (m : M A) (k : A → M B) :
  appends m → (∀ a, appends (k a)) → appends (bind m k).
Proof.
  intros Hm Hk st. rewrite exec_bind.
  etransitivity; [apply Hm | apply Hk].
Qed.

Lemma appends_log : appends log.
Proof. intros st. by apply prefix_app_r. Qed.

Lemma appends_repeat n (body : M unit) : appends body → appends (repeat_ n body).
Proof.
  intros Hb. induction n as [|n IH]; [apply appends_ret|].
  cbn [repeat_]. by apply appends_bind.
Qed.

Lemma appends_consume max : appends (consume await pool max).
Proof.
  unfold consume, consume_settled.
  repeat (first [apply appends_bind; [|intros ?] | apply appends_repeat
                | apply appends_log | apply appends_ret | by intros st]).
Qed.

Lemma appends_release max : appends (release await pool max).
Proof.
  unfold release. apply appends_bind; [apply appends_log | intros _].
  destruct (max =? 0); [apply appends_ret|].
  repeat (first [apply appends_bind; [|intros ?] | apply appends_repeat
                | apply appends_log | apply appends_ret
                | by intros st
                | intros st; unfold exec, releaseOne;
                  by destruct (head (_sockets st))]).
Qed.

Lemma ends_logged_log {A} (m : M A) (a : A) :
  ends_logged (m >> log >> ret a).
Proof.
  intros st. rewrite exec_bind, exec_bind.
  change (exec (ret a) ?s) with s.
  set (st1 := exec m st). unfold exec, log. simpl.
  by rewrite last_snoc.
Qed.

Lemma ends_logged_consume max : ends_logged (consume await pool max).
Proof.
  intros st. unfold consume.
  rewrite exec_bind, exec_bind, exec_bind, exec_bind.
  change (exec (ret ?a) ?s) with s. change (exec held ?s) with s.
  unfold exec at 1 3 5, log. simpl. by rewrite last_snoc.
Qed.

Lemma ends_logged_release max : ends_logged (release await pool max).
Proof.
  intros st. destruct (Z.eq_dec max 0) as [->|Hne].
  - unfold exec at 1 2 3. rewrite release_zero. simpl. by rewrite last_snoc.
  - unfold release. rewrite exec_bind.
    destruct (Z.eqb_spec max 0) as [?|_]; [done|].
    rewrite exec_bind, exec_bind, exec_bind, exec_bind.
    change (exec (ret ?a) ?s) with s.
    unfold exec at 1 3 5, log. simpl. by rewrite last_snoc.
Qed.

(** X12.  The trace is a log of the pool: [consume], [release], [probe]
    and [isSender] only add samples to it, and each ends by recording
    the current time and the current held-count. *)
Theorem trace_records_the_pool max :
  appends (consume await pool max) ∧ ends_logged (consume await pool max)
  ∧ appends (release await pool max) ∧ ends_logged (release await pool max)
  ∧ appends (probe await pool max) ∧ ends_logged (probe await pool max)
  ∧ appends (isSender await pool) ∧ ends_logged (isSender await pool).
Proof.
  split_and!.
  - apply appends_consume.
  - apply ends_logged_consume.
  - apply appends_release.
  - apply ends_logged_release.
  - unfold probe. apply appends_bind; [apply appends_consume | intros c].
    apply appends_bind; [apply appends_release | intros _; apply appends_ret].
  - intros st. unfold probe. rewrite exec_bind, exec_bind.
    change (exec (ret ?a) ?s) with s. apply ends_logged_release.
  - unfold isSender. apply appends_bind.
    { unfold isSender_race. apply appends_bind; [by intros st | intros h].
      apply appends_bind; [apply appends_release | intros _].
      apply appends_consume. }
    intros _. apply appends_bind; [by intros st | intros h1].
    destruct (Qlt_bool (inject_Z h1) (inject_Z (maxSlots pool) / 2));
      [|apply appends_ret].
    apply appends_bind; [by intros st | intros h2].
    apply appends_bind; [apply appends_release | intros _; apply appends_ret].
  - intros st. unfold isSender. rewrite exec_bind, exec_bind.
    change (exec held ?s) with s.
    destruct (Qlt_bool _ _).
    + rewrite exec_bind, exec_bind. change (exec held ?s) with s.
      change (exec (ret ?a) ?s) with s. apply ends_logged_release.
    + change (exec (ret ?a) ?s) with s.
      unfold isSender_race. rewrite exec_bind, exec_bind.
      change (exec held ?s) with s. apply ends_logged_consume.
Qed.

End TraceFacts.

(** ** Negotiation and whole cycles in the shared pool *)

Section SharedPoolMore.

Variable cap : nat.
Variable pool : Constants.
Variable await : Q → World → World.
Hypothesis await_settles : ∀ interval w,
  heap (await interval w) = settle cap (heap w).

(** X13.  [probe] measures the headroom of the shared pool: for a page
    whose own sockets are open, in a pool of capacity cap where nothing
    is in flight, it returns the number of slots nobody holds, up to max;
    who holds the others does not matter. *)
Theorem probe_measures_headroom max st :
  settled (heap (world st)) → NoDup (_sockets st) →
  (∀ i, i ∈ _sockets st → heap (world st) !! i = Some OPEN) →
  eval (probe await pool max) st
  = Z.of_nat (Z.to_nat max `min` (cap - count_open (heap (world st)))).
Proof.
  intros Hset Hnd Hopen.
  destruct (consume_shared cap pool await await_settles max st Hset Hnd Hopen)
    as (E & _).
  unfold probe. rewrite eval_bind, eval_bind. exact E.
Qed.

Lemma race_alone st :
  Z.of_nat cap = maxSlots pool → sole_holder st →
  let raced := exec (isSender_race await pool) st in
  sole_holder raced ∧ eval held raced = maxSlots pool.
Proof.
  intros Hcap Hsole raced. subst raced.
  unfold isSender_race. rewrite exec_bind, exec_bind.
  change (exec held st) with st.
  destruct (sole_release cap pool await await_settles (eval held st) st Hsole)
    as (Hs1 & El1).
  set (st1 := exec (release await pool (eval held st)) st) in *.
  destruct (sole_consume cap pool await await_settles (maxSlots pool) st1 Hs1)
    as (Hs2 & El2).
  split; [exact Hs2|]. rewrite eval_held, El2, El1.
  rewrite eval_held. lia.
Qed.

(** When the race leaves at least maxSlots/2 the page keeps all of it. *)
Lemma isSender_keeps st :
  maxSlots pool ≤ 2 * eval held (exec (isSender_race await pool) st) →
  isSender await pool st = (true, exec (isSender_race await pool) st).
Proof.
  intros Hhalf. unfold isSender. rewrite run_bind, run_bind.
  set (raced := exec (isSender_race await pool) st) in *.
  change (exec held raced) with raced.
  destruct (Qlt_bool _ _) eqn:Eb; [|done].
  apply Qlt_bool_half in Eb. lia.
Qed.

(** X14.  A page that races alone wins: when every open socket of a pool
    of capacity maxSlots is its own, [isSender] answers true and leaves
    the page holding all maxSlots sockets. *)
Theorem isSender_alone st :
  Z.of_nat cap = maxSlots pool → sole_holder st →
  let st' := exec (isSender await pool) st in
  eval (isSender await pool) st = true
  ∧ eval held st' = maxSlots pool
  ∧ sole_holder st'.
Proof.
  intros Hcap Hsole st'. subst st'.
  destruct (race_alone st Hcap Hsole) as (Hs & Eh).
  unfold eval at 1, exec. rewrite isSender_keeps by lia. done.
Qed.

(** What a race against a page that holds the rest of the pool gives. *)
Lemma isSender_outcome holder st :
  Z.of_nat cap = maxSlots pool →
  sole_holder holder → eval held holder ≤ maxSlots pool →
  _sockets st = [] → world st = world holder →
  let room := maxSlots pool - eval held holder in
  let st' := exec (isSender await pool) st in
  (eval (isSender await pool) st = true ↔ maxSlots pool ≤ 2 * room)
  ∧ (eval (isSender await pool) st = false →
     _sockets st' = [] ∧ sole_holder (hand_over st' holder)).
Proof.
  intros Hcap Hsole Hle Hempty Hworld room st'. subst st'.
  set (st0 := exec log st).
  assert (exec (isSender_race await pool) st
          = exec (consume await pool (maxSlots pool)) st0) as Erace.
  { unfold isSender_race. rewrite exec_bind, exec_bind.
    change (exec held st) with st. rewrite eval_held, Hempty. simpl.
    unfold exec at 2. by rewrite release_zero. }
  assert (_sockets st0 = []) as Hempty0 by done.
  assert (world st0 = world holder) as Hworld0 by done.
  destruct (other_probe cap pool await await_settles (maxSlots pool) holder st0
              Hsole Hempty0 Hworld0) as (Ep & Es & Hs).
  destruct (consume_spec await pool (maxSlots pool) st0) as (_ & _ & _ & Ec).
  rewrite Hempty0 in Ec. simpl in Ec.
  assert (eval (probe await pool (maxSlots pool)) st0
          = eval (consume await pool (maxSlots pool)) st0) as Epc
    by (unfold probe; by rewrite eval_bind, eval_bind).
  assert (exec (probe await pool (maxSlots pool)) st0
          = exec (release await pool
                    (eval (consume await pool (maxSlots pool)) st0))
              (exec (consume await pool (maxSlots pool)) st0)) as Epx
    by (unfold probe; by rewrite exec_bind, exec_bind).
  set (raced := exec (consume await pool (maxSlots pool)) st0) in *.
  assert (eval held raced = room) as Eroom.
  { rewrite eval_held. rewrite Epc, Ec in Ep.
    rewrite eval_held in Hle. subst room. rewrite eval_held. lia. }
  unfold isSender. rewrite eval_bind, exec_bind, eval_bind, exec_bind.
  rewrite Erace. change (exec held raced) with raced.
  destruct (Qlt_bool _ _) eqn:Eb.
  - apply Qlt_bool_half in Eb. rewrite !eval_bind.
    change (eval (ret false) ?s) with false.
    split; [split; [done | lia]|].
    intros _. rewrite !exec_bind.
    change (exec held raced) with raced. change (exec (ret ?a) ?s) with s.
    rewrite eval_held in *. rewrite Ec, Z.sub_0_r in Epx.
    rewrite <- Epx. done.
  - change (eval (ret true) ?s) with true.
    split; [|done]. split; [intros _|done].
    destruct (Z.lt_ge_cases (2 * eval held raced) (maxSlots pool)) as [Hlt|?];
      [|lia].
    apply Qlt_bool_half in Hlt. congruence.
Qed.

(** X15.  A page that holds nothing and races while another page is the
    sole holder takes the sender role exactly when the room that page
    leaves is at least maxSlots/2; when it loses it gives back all it
    got, and the other page holds what it held. *)
Theorem isSender_against_holder holder st :
  Z.of_nat cap = maxSlots pool →
  sole_holder holder → eval held holder ≤ maxSlots pool →
  _sockets st = [] → world st = world holder →
  let room := maxSlots pool - eval held holder in
  let st' := exec (isSender await pool) st in
  (eval (isSender await pool) st = true ↔ maxSlots pool ≤ 2 * room)
  ∧ (eval (isSender await pool) st = false →
     _sockets st' = [] ∧ sole_holder (hand_over st' holder)).
Proof. apply isSender_outcome. Qed.

Lemma log_sole st : sole_holder st → sole_holder (exec log st).
Proof. done. Qed.

(** The sender's loop, run where nothing else touches the pool. *)
Lemma send_loop_alone kBrowser lst startTime n : ∀ i lastInteger st,
  Z.of_nat cap = maxSlots pool →
  Forall (λ d, 0 ≤ d ∧ 1 + d ≤ maxSlots pool) lst →
  (i + n ≤ length lst)%nat →
  sole_holder st → 0 ≤ lastInteger ≤ maxSlots pool →
  eval held st = maxSlots pool - lastInteger →
  let st' := exec (send_loop await pool kBrowser lst startTime n i lastInteger)
               st in
  sole_holder st'
  ∧ eval held st'
    = maxSlots pool
      - match n with
        | O => lastInteger
        | S n' => 1 + default 0 (lst !! (i + n')%nat)
        end.
Proof.
  induction n as [|n IH]; intros i lastInteger st Hcap Hdigits Hn Hsole Hl Hh.
  - done.
  - cbv zeta.
    destruct (lookup_lt_is_Some_2 lst i) as [d Hd]; [lia|].
    pose proof (Forall_lookup_1 _ _ _ _ Hdigits Hd) as Hrange.
    simpl in Hrange.
    destruct (sleepUntil_sole cap await await_settles
                (inject_Z (startTime + (Z.of_nat i + 1) * pulseMs pool)) st Hsole)
      as (Hs1 & Es1).
    set (st1 := exec (sleepUntil await
                        (inject_Z (startTime + (Z.of_nat i + 1) * pulseMs pool)))
                  st) in *.
    destruct (adjust_sole cap pool await await_settles kBrowser lastInteger
                (1 + d) st1 Hcap Hs1) as (Hs2 & Eh2); [lia | lia | |].
    { rewrite eval_held in *. by rewrite Es1. }
    assert (send_pulse await pool kBrowser lst startTime i lastInteger st
            = (1 + d, exec (adjust await pool kBrowser lastInteger (1 + d)) st1))
      as Esend.
    { unfold send_pulse. rewrite run_bind. fold st1.
      rewrite Hd, run_bind. reflexivity. }
    assert (exec (send_loop await pool kBrowser lst startTime (S n) i
                    lastInteger) st
            = exec (send_loop await pool kBrowser lst startTime n (S i) (1 + d))
                (exec (adjust await pool kBrowser lastInteger (1 + d)) st1))
      as Estep.
    { cbn [send_loop]. rewrite exec_bind. unfold eval, exec at 2.
      by rewrite Esend. }
    rewrite Estep.
    destruct (IH (S i) (1 + d)
                (exec (adjust await pool kBrowser lastInteger (1 + d)) st1)
                Hcap Hdigits ltac:(lia) Hs2 ltac:(lia) Eh2) as (Hs3 & Eh3).
    split; [exact Hs3|]. rewrite Eh3.
    destruct n as [|n'].
    + by rewrite Nat.add_0_r, Hd.
    + by replace (S i + n')%nat with (i + S n')%nat by lia.
Qed.

(** [sendInteger] in the integer model, where no other page touches
    the pool. *)
Lemma sendInteger_alone_model kBrowser x startTime st :
  Z.of_nat cap = maxSlots pool → 0 < maxValue pool ≤ maxSlots pool →
  0 ≤ x → sole_holder st → eval held st ≤ maxSlots pool →
  let lst := Codec.bigIntegerToList x (listSize pool) (maxValue pool) in
  let st' := exec (sendInteger await pool kBrowser x startTime) st in
  eval (sendInteger await pool kBrowser x startTime) st
  = Codec.bigIntegerToHex x (numBits pool)
  ∧ sole_holder st'
  ∧ eval held st'
    = maxSlots pool - match last lst with Some d => 1 + d | None => 0 end.
Proof.
  intros Hcap Hmax Hx Hsole Hle lst st'. subst st'.
  split; [apply sendInteger_result|].
  assert (Forall (λ d, 0 ≤ d ∧ 1 + d ≤ maxSlots pool) lst) as Hdigits.
  { subst lst. unfold Codec.bigIntegerToList.
    eapply Forall_impl;
      [apply CodecFacts.bigIntegerToList_loop_range; lia|].
    simpl. lia. }
  assert (length lst = Z.to_nat (listSize pool)) as Hlen
    by apply CodecFacts.bigIntegerToList_length.
  destruct (baseline_fills cap pool await await_settles st Hcap Hsole Hle)
    as (Hs1 & Eh1).
  unfold sendInteger. rewrite exec_bind, exec_bind. fold lst.
  change (exec (ret ?a) ?s) with s.
  destruct (send_loop_alone kBrowser lst startTime (Z.to_nat (listSize pool))
              0 0 (exec (send_baseline await pool) st) Hcap Hdigits
              ltac:(lia) Hs1 ltac:(lia) ltac:(lia)) as (Hs2 & Eh2).
  split; [exact Hs2|]. rewrite Eh2. rewrite <- Hlen.
  destruct lst as [|d0 lst0] using rev_ind; [done|].
  rewrite last_snoc, length_app. simpl.
  replace (length lst0 + 1)%nat with (S (length lst0)) by lia.
  simpl. by rewrite lookup_app_r, Nat.sub_diag by lia.
Qed.

(** The string of a payload in range, for a pool whose maxValue is a
    power of two: its zero-padded numeral. *)
Lemma hex_numeral (c : Constants) k x :
  0 ≤ k → maxValue c = 2 ^ k → 0 ≤ x < maxValue c ^ listSize c →
  Codec.bigIntegerToHex x (numBits c)
  = Codec.fixedHex (Z.to_nat (Codec.Math_ceil_div (numBits c) 4)) x.
Proof.
  intros Hk Emax Hx.
  assert (0 ≤ listSize c) as Hsize.
  { destruct (Z.lt_ge_cases (listSize c) 0) as [Hneg|?]; [|done].
    rewrite (Z.pow_neg_r _ _ Hneg) in Hx. lia. }
  destruct (CodecFacts.numBits_exact c k Hk Hsize Emax) as (Epow & Hbits).
  rewrite Epow in Hx.
  by destruct (CodecFacts.bigIntegerToHex_fixedHex x (numBits c) Hbits Hx).
Qed.

(** X16.  The sender never hands the pool back.  Take a pool of capacity
    maxSlots whose maxValue is a power of two, with nHexDigits =
    ceil(numBits / 4) and 2 * 16^nHexDigits <= 2^53, so that every number
    the code forms is a whole number below 2^53, and a payload x in
    [0, maxValue^listSize).  Run where no other page touches the pool,
    [sendInteger] returns the nHexDigits-digit numeral of x and ends
    holding all of maxSlots but one more than the last digit sent (all
    of them when listSize is 0). *)
Theorem sendInteger_alone kBrowser x startTime st k :
  Z.of_nat cap = maxSlots pool → 0 < maxValue pool ≤ maxSlots pool →
  0 ≤ k → maxValue pool = 2 ^ k →
  let nHexDigits := Codec.Math_ceil_div (numBits pool) 4 in
  2 * 16 ^ nHexDigits ≤ 2 ^ 53 →
  0 ≤ x < maxValue pool ^ listSize pool →
  sole_holder st → eval held st ≤ maxSlots pool →
  let lst := Codec.bigIntegerToList x (listSize pool) (maxValue pool) in
  let st' := exec (sendInteger await pool kBrowser x startTime) st in
  eval (sendInteger await pool kBrowser x startTime) st
  = Codec.fixedHex (Z.to_nat nHexDigits) x
  ∧ sole_holder st'
  ∧ eval held st'
    = maxSlots pool - match last lst with Some d => 1 + d | None => 0 end.
Proof.
  intros Hcap Hmax Hk Emax nHexDigits _ Hx Hsole Hle lst st'.
  destruct (sendInteger_alone_model kBrowser x startTime st Hcap Hmax
              ltac:(lia) Hsole Hle) as (Er & Hs & Eh).
  split_and!; [|exact Hs | exact Eh].
  rewrite Er. by apply (hex_numeral pool k).
Qed.

(** The sender's side of [sendInteger], without its result. *)
Lemma sendInteger_keeps kBrowser x startTime st :
  Z.of_nat cap = maxSlots pool → 0 < maxValue pool ≤ maxSlots pool →
  0 ≤ x → sole_holder st → eval held st ≤ maxSlots pool →
  sole_holder (exec (sendInteger await pool kBrowser x startTime) st).
Proof.
  intros Hcap Hmax Hx Hsole Hle.
  set (lst := Codec.bigIntegerToList x (listSize pool) (maxValue pool)).
  assert (Forall (λ d, 0 ≤ d ∧ 1 + d ≤ maxSlots pool) lst) as Hdigits.
  { subst lst. unfold Codec.bigIntegerToList.
    eapply Forall_impl;
      [apply CodecFacts.bigIntegerToList_loop_range; lia|].
    simpl. lia. }
  assert (length lst = Z.to_nat (listSize pool)) as Hlen
    by apply CodecFacts.bigIntegerToList_length.
  destruct (baseline_fills cap pool await await_settles st Hcap Hsole Hle)
    as (Hs1 & Eh1).
  unfold sendInteger. rewrite exec_bind, exec_bind. fold lst.
  change (exec (ret ?a) ?s) with s.
  by destruct (send_loop_alone kBrowser lst startTime (Z.to_nat (listSize pool))
                 0 0 (exec (send_baseline await pool) st) Hcap Hdigits
                 ltac:(lia) Hs1 ltac:(lia) ltac:(lia)) as (Hs2 & _).
Qed.

Lemma cycle_alone kBrowser payload st :
  Z.of_nat cap = maxSlots pool → 0 < maxValue pool ≤ maxSlots pool →
  0 ≤ payload → sole_holder st →
  eval (cycle await pool kBrowser payload) st
  = (true, Codec.bigIntegerToHex payload (numBits pool))
  ∧ sole_holder (exec (cycle await pool kBrowser payload) st).
Proof.
  intros Hcap Hmax Hx Hsole.
  assert (sole_holder (exec (cycle_start await pool) st)) as Hs1.
  { unfold cycle_start, sleepUntilNextRoundInterval.
    rewrite exec_bind, exec_bind. change (exec Date_now ?s) with s.
    by apply (sleepUntil_sole cap await await_settles), log_sole. }
  set (t0 := eval (cycle_start await pool) st).
  set (st1 := exec (cycle_start await pool) st) in *.
  destruct (race_alone (exec log st1) Hcap (log_sole _ Hs1)) as (Hs2 & Eh2).
  set (st2 := exec (isSender_race await pool) (exec log st1)) in *.
  pose proof (sendInteger_keeps kBrowser payload t0 st2 Hcap Hmax Hx Hs2
                ltac:(lia)) as Hs3.
  pose proof (isSender_keeps (exec log st1) ltac:(fold st2; lia)) as Ekeep.
  fold st2 in Ekeep.
  assert (cycle await pool kBrowser payload st
          = (let* resultList := sendInteger await pool kBrowser payload t0 in
             ret (true, resultList)) st2) as Ecycle.
  { assert (eval (isSender await pool) (exec log st1) = true) as Ev
      by (unfold eval; by rewrite Ekeep).
    assert (exec (isSender await pool) (exec log st1) = st2) as Ex
      by (unfold exec at 1; by rewrite Ekeep).
    unfold cycle. rewrite run_bind. fold t0 st1. rewrite run_bind, run_bind.
    by rewrite Ev, Ex. }
  unfold eval, exec. rewrite Ecycle, run_bind. cbn [fst snd ret].
  split; [|exact Hs3]. f_equal. apply sendInteger_result.
Qed.

Lemma run_loop_alone kBrowser payload n : ∀ i st,
  Z.of_nat cap = maxSlots pool → 0 < maxValue pool ≤ maxSlots pool →
  (∀ j, 0 ≤ payload j) → sole_holder st →
  eval (run_loop await pool kBrowser payload n i) st
  = (λ j, (true, Codec.bigIntegerToHex (payload j) (numBits pool)))
    <$> seq i n
  ∧ sole_holder (exec (run_loop await pool kBrowser payload n i) st).
Proof.
  induction n as [|n IH]; intros i st Hcap Hmax Hpay Hsole; [done|].
  destruct (cycle_alone kBrowser (payload i) st Hcap Hmax (Hpay i) Hsole)
    as (Er & Hs1).
  destruct (IH (S i) (exec (cycle await pool kBrowser (payload i)) st)
              Hcap Hmax Hpay Hs1) as (Ers & Hs2).
  cbn [run_loop]. rewrite eval_bind, exec_bind, eval_bind, exec_bind.
  rewrite Er, Ers. done.
Qed.

(** [run] in the integer model, where no other page touches the pool. *)
Lemma run_alone_model kBrowser payload st :
  Z.of_nat cap = maxSlots pool → 0 < maxValue pool ≤ maxSlots pool →
  (∀ j, 0 ≤ payload j) → sole_holder st →
  eval (run await pool kBrowser payload) st
  = (λ j, (true, Codec.bigIntegerToHex (payload j) (numBits pool)))
    <$> seq 0 10
  ∧ sole_holder (exec (run await pool kBrowser payload) st).
Proof.
  intros Hcap Hmax Hpay Hsole.
  set (st0 := mkState (_sockets st) (world st) [] (calls st)).
  assert (sole_holder st0) as Hs0 by done.
  destruct (run_loop_alone kBrowser payload 10 0 st0 Hcap Hmax Hpay Hs0)
    as (Er & Hs1).
  assert (run await pool kBrowser payload st
          = (eval (run_loop await pool kBrowser payload 10 0) st0,
             exec log (exec (run_loop await pool kBrowser payload 10 0) st0)))
    as Erun.
  { unfold run. rewrite run_bind. change (exec _ st) with st0.
    by rewrite run_bind, run_bind. }
  unfold eval at 1, exec at 1. rewrite Erun. cbn [fst snd].
  split; [exact Er | by apply log_sole].
Qed.

(** X17.  A page that runs with nobody to talk to sends ten times.  Take
    a pool of capacity maxSlots whose maxValue is a power of two, with
    nHexDigits = ceil(numBits / 4) and 2 * 16^nHexDigits <= 2^53, and
    payloads in [0, maxValue^listSize).  Where no other page touches the
    pool, [run] takes the sender role in each of its ten cycles and
    reports the nHexDigits-digit numeral of each payload; it never
    receives. *)
Theorem run_alone kBrowser payload st k :
  Z.of_nat cap = maxSlots pool → 0 < maxValue pool ≤ maxSlots pool →
  0 ≤ k → maxValue pool = 2 ^ k →
  let nHexDigits := Codec.Math_ceil_div (numBits pool) 4 in
  2 * 16 ^ nHexDigits ≤ 2 ^ 53 →
  (∀ j, 0 ≤ payload j < maxValue pool ^ listSize pool) →
  sole_holder st →
  eval (run await pool kBrowser payload) st
  = (λ j, (true, Codec.fixedHex (Z.to_nat nHexDigits) (payload j)))
    <$> seq 0 10
  ∧ sole_holder (exec (run await pool kBrowser payload) st).
Proof.
  intros Hcap Hmax Hk Emax nHexDigits _ Hpay Hsole.
  destruct (run_alone_model kBrowser payload st Hcap Hmax
              ltac:(intros j; apply Hpay) Hsole) as (Er & Hs).
  split; [|exact Hs]. rewrite Er.
  apply list_fmap_ext. intros i j _. f_equal.
  by apply (hex_numeral pool k).
Qed.



(** Negotiation, then a transfer, in the integer model. *)
Lemma negotiate_then_transfer_model kBrowser x startTime first second :
  Z.of_nat cap = maxSlots pool → 0 < maxValue pool ≤ maxSlots pool →
  0 ≤ listSize pool → 0 ≤ x < maxValue pool ^ listSize pool →
  sole_holder first → _sockets second = [] →
  let sender := exec (isSender await pool) first in
  let receiver := exec (isSender await pool) (hand_over sender second) in
  let lst := Codec.bigIntegerToList x (listSize pool) (maxValue pool) in
  let '(_, integerList, _, _) :=
    transfer await pool kBrowser lst startTime
      (Z.to_nat (listSize pool)) 0 0 []
      (exec (send_baseline await pool) (hand_over receiver sender))
      receiver in
  eval (isSender await pool) first = true
  ∧ eval (isSender await pool) (hand_over sender second) = false
  ∧ integerList = lst
  ∧ receiveInteger_result pool integerList
    = Codec.bigIntegerToHex x (numBits pool).
Proof.
  intros Hcap Hmax Hsize Hx Hfirst Hsecond sender receiver lst.
  destruct (race_alone first Hcap Hfirst) as (Hs1 & Eh1).
  pose proof (isSender_keeps first ltac:(lia)) as Ekeep.
  assert (eval (isSender await pool) first = true) as Ev1
    by (unfold eval; by rewrite Ekeep).
  assert (sender = exec (isSender_race await pool) first) as Ex1
    by (subst sender; unfold exec at 1; by rewrite Ekeep).
  rewrite <- Ex1 in Hs1, Eh1.
  destruct (isSender_outcome sender (hand_over sender second) Hcap Hs1
              ltac:(lia) Hsecond eq_refl) as (Hiff & Hlose).
  assert (eval (isSender await pool) (hand_over sender second) = false) as Ev2.
  { destruct (eval (isSender await pool) (hand_over sender second)); [|done].
    destruct Hiff as [Hiff _]. specialize (Hiff eq_refl). lia. }
  destruct (Hlose Ev2) as (Es2 & Hs2). fold receiver in Es2, Hs2.
  pose proof (transfer_recovers_payload cap pool await await_settles kBrowser
                x startTime (hand_over receiver sender) receiver Hcap Hmax
                Hsize Hx Hs2 ltac:(rewrite eval_held in *; simpl; lia) Es2)
    as Htransfer.
  cbv zeta in Htransfer. fold lst in Htransfer.
  destruct (transfer await pool kBrowser lst startTime
              (Z.to_nat (listSize pool)) 0 0 []
              (exec (send_baseline await pool) (hand_over receiver sender))
              receiver) as [[[lastInteger integerList] sender'] receiver'].
  destruct Htransfer as (El & _ & Ehex).
  split_and!; [exact Ev1 | exact Ev2 | exact El |].
  rewrite (Ehex first). apply sendInteger_result.
Qed.

(** X19.  Negotiation and transfer together.  Take a pool of capacity
    maxSlots whose maxValue is a power of two, with nHexDigits =
    ceil(numBits / 4) and 2 * 16^nHexDigits <= 2^53, and a payload x in
    [0, maxValue^listSize).  Of two pages, where the first races while
    all open sockets are its own and the second then races holding
    nothing, the first becomes the sender and the second the receiver;
    the receiver then reads the digits of the sender's payload and
    reports the nHexDigits-digit numeral of x, as the sender does. *)
Theorem negotiate_then_transfer kBrowser x startTime first second k :
  Z.of_nat cap = maxSlots pool → 0 < maxValue pool ≤ maxSlots pool →
  0 ≤ k → maxValue pool = 2 ^ k →
  let nHexDigits := Codec.Math_ceil_div (numBits pool) 4 in
  2 * 16 ^ nHexDigits ≤ 2 ^ 53 →
  0 ≤ x < maxValue pool ^ listSize pool →
  sole_holder first → _sockets second = [] →
  let sender := exec (isSender await pool) first in
  let receiver := exec (isSender await pool) (hand_over sender second) in
  let lst := Codec.bigIntegerToList x (listSize pool) (maxValue pool) in
  let '(_, integerList, _, _) :=
    transfer await pool kBrowser lst startTime
      (Z.to_nat (listSize pool)) 0 0 []
      (exec (send_baseline await pool) (hand_over receiver sender))
      receiver in
  eval (isSender await pool) first = true
  ∧ eval (isSender await pool) (hand_over sender second) = false
  ∧ integerList = lst
  ∧ receiveInteger_result pool integerList
    = Codec.fixedHex (Z.to_nat nHexDigits) x
  ∧ ∀ st, eval (sendInteger await pool kBrowser x startTime) st
          = Codec.fixedHex (Z.to_nat nHexDigits) x.
Proof.
  intros Hcap Hmax Hk Emax nHexDigits _ Hx Hfirst Hsecond sender receiver lst.
  assert (0 ≤ listSize pool) as Hsize.
  { destruct (Z.lt_ge_cases (listSize pool) 0) as [Hneg|?]; [|done].
    rewrite (Z.pow_neg_r _ _ Hneg) in Hx. lia. }
  pose proof (negotiate_then_transfer_model kBrowser x startTime first second
                Hcap Hmax Hsize Hx Hfirst Hsecond) as Hmodel.
  cbv zeta in Hmodel. fold sender receiver lst in Hmodel.
  destruct (transfer await pool kBrowser lst startTime
              (Z.to_nat (listSize pool)) 0 0 []
              (exec (send_baseline await pool) (hand_over receiver sender))
              receiver) as [[[lastInteger integerList] sender'] receiver'].
  destruct Hmodel as (E1 & E2 & E3 & E4).
  pose proof (hex_numeral pool k x Hk Emax Hx) as Ehex.
  split_and!; [exact E1 | exact E2 | exact E3 | by rewrite E4 |].
  intros st. by rewrite sendInteger_result.
Qed.

End SharedPoolMore.

(** ** The clock *)

Lemma Qfloor_minus_Z q n : Qfloor (q - inject_Z n) = Qfloor q - n.
Proof.
  destruct q as [a b]. unfold Qfloor, Qminus, Qplus, Qopp, inject_Z. simpl.
  rewrite Pos.mul_1_r, Z.mul_1_r.
  replace (a + - n * Z.pos b) with (a + (- n) * Z.pos b) by lia.
  rewrite Z.div_add by lia. lia.
Qed.

Section ClockFacts.

Variable await : Q → World → World.
Variable pool : Constants.
Hypothesis on_time : punctual await.

Lemma clock_repeat body n :
  (∀ st, now (world (exec body st)) = now (world st)) →
  ∀ st, now (world (exec (repeat_ n body) st)) = now (world st).
Proof.
  intros Hbody. induction n as [|n IH]; intros st; [done|].
  cbn [repeat_]. by rewrite exec_bind, IH, Hbody.
Qed.

Lemma clock_consumeOne st :
  now (world (exec (consumeOne >> log) st)) = now (world st).
Proof. done. Qed.

Lemma clock_releaseOne st :
  now (world (exec (releaseOne >> log) st)) = now (world st).
Proof.
  unfold exec, bind, releaseOne, log.
  destruct (head (_sockets st)) as [socket|]; [|done]. simpl.
  unfold ws_close. by destruct (heap (world st) !! socket) as [[]|].
Qed.

Lemma clock_consume max st :
  now (world (exec (consume await pool max) st))
  = now (world st) + Z.max 0 (settlingTimeMs pool).
Proof.
  destruct (consume_spec await pool max st) as (_ & -> & _).
  unfold consume_settled. rewrite !exec_bind.
  change (exec (ret ?a) ?s) with s. change (exec held ?s) with s.
  set (st1 := exec (repeat_ _ _) _).
  change (now (await (inject_Z (settlingTimeMs pool)) (world st1))
          = now (world st) + Z.max 0 (settlingTimeMs pool)).
  rewrite on_time, Qfloor_Z. subst st1.
  by rewrite (clock_repeat _ _ clock_consumeOne).
Qed.

Lemma clock_release max st :
  now (world (exec (release await pool max) st))
  = now (world st) + (if max =? 0 then 0 else Z.max 0 (settlingTimeMs pool)).
Proof.
  unfold release. rewrite exec_bind.
  destruct (max =? 0); [simpl; lia|].
  rewrite !exec_bind.
  change (exec (ret ?a) ?s) with s. change (exec held ?s) with s.
  set (st1 := exec (repeat_ _ _) _).
  change (now (await (inject_Z (settlingTimeMs pool)) (world st1))
          = now (world st) + Z.max 0 (settlingTimeMs pool)).
  rewrite on_time, Qfloor_Z. subst st1.
  by rewrite (clock_repeat _ _ clock_releaseOne).
Qed.

Lemma sleepUntil_clock timeMs st :
  now (world (exec (sleepUntil await timeMs) st))
  = Z.max (now (world st)) (Qfloor timeMs).
Proof.
  change (now (world (exec (sleepUntil await timeMs) st)))
    with (now (await (timeMs - inject_Z (now (world st))) (world st))).
  rewrite on_time, Qfloor_minus_Z. lia.
Qed.

(** X20.  With timers that fire on time, [sleepUntil] wakes at the whole
    millisecond of its target, and never before the present: a target in
    the past returns the current time at once. *)
Theorem sleepUntil_wakes timeMs st :
  let st' := exec (sleepUntil await timeMs) st in
  eval (sleepUntil await timeMs) st = Z.max (now (world st)) (Qfloor timeMs)
  ∧ now (world st') = Z.max (now (world st)) (Qfloor timeMs)
  ∧ (Qfloor timeMs ≤ now (world st) → now (world st') = now (world st)).
Proof.
  assert (now (await (timeMs - inject_Z (now (world st))) (world st))
          = Z.max (now (world st)) (Qfloor timeMs)) as E
    by (rewrite on_time, Qfloor_minus_Z; lia).
  split_and!; [exact E | exact E |].
  intros Hpast. cbv zeta.
  change (now (world (exec (sleepUntil await timeMs) st)))
    with (now (await (timeMs - inject_Z (now (world st))) (world st))).
  rewrite E. lia.
Qed.

(** X21.  Pages agree on the start of a cycle: with timers that fire on
    time, every page that begins a cycle after (k - 1) * interval and not
    after k * interval, where interval = (1 + listSize) * pulseMs, gets
    t0 = k * interval, whatever it holds. *)
Theorem cycle_start_agrees k st :
  let interval := (1 + listSize pool) * pulseMs pool in
  0 < interval →
  (k - 1) * interval < now (world st) ≤ k * interval →
  eval (cycle_start await pool) st = k * interval
  ∧ now (world (exec (cycle_start await pool) st)) = k * interval.
Proof.
  intros interval Hi Hk.
  assert (next_round_interval (now (world st)) interval = k * interval) as En.
  { unfold next_round_interval, Codec.Math_ceil_div. f_equal.
    assert (- now (world st) / interval = - k); [|lia].
    symmetry. apply (Z.div_unique_pos _ _ _ (k * interval - now (world st)));
      lia. }
  assert (now (await (inject_Z (k * interval) - inject_Z (now (world st)))
                 (world st)) = k * interval) as E
    by (rewrite on_time, Qfloor_minus_Z, Qfloor_Z; lia).
  assert (eval (cycle_start await pool) st
          = now (await (inject_Z (next_round_interval (now (world st)) interval)
                        - inject_Z (now (world st))) (world st))) as E1
    by reflexivity.
  assert (now (world (exec (cycle_start await pool) st))
          = now (await (inject_Z (next_round_interval (now (world st)) interval)
                        - inject_Z (now (world st))) (world st))) as E2
    by reflexivity.
  rewrite E1, E2, En. done.
Qed.

(** X22.  What the bulk operations cost in time, with timers that fire
    on time: [consume] always takes the settling time, also for max = 0;
    [release] takes it unless max = 0; [probe] takes it twice unless it
    got nothing. *)
Theorem bulk_durations max st :
  0 ≤ settlingTimeMs pool →
  let after (m : M Z) := now (world (exec m st)) - now (world st) in
  after (consume await pool max) = settlingTimeMs pool
  ∧ after (release await pool max)
    = (if max =? 0 then 0 else settlingTimeMs pool)
  ∧ after (probe await pool max)
    = settlingTimeMs pool
      + (if eval (probe await pool max) st =? 0 then 0
         else settlingTimeMs pool).
Proof.
  intros Hs after. subst after. cbv beta.
  rewrite clock_consume, clock_release.
  split_and!; [lia | destruct (max =? 0); lia |].
  unfold probe. rewrite eval_bind, eval_bind, exec_bind, exec_bind.
  change (exec (ret ?a) ?s) with s. change (eval (ret ?a) ?s) with a.
  rewrite clock_release, clock_consume.
  destruct (_ =? 0); lia.
Qed.

Lemma clock_adjust kBrowser lastInteger integer st :
  0 < integer → 0 ≤ settlingTimeMs pool →
  now (world (exec (adjust await pool kBrowser lastInteger integer) st))
  = now (world st)
    + match kBrowser with Chrome => 1 | Firefox => 2 end * settlingTimeMs pool.
Proof.
  intros Hint Hs. destruct kBrowser; unfold adjust.
  - destruct (0 <? integer - lastInteger) eqn:Ed.
    + rewrite exec_bind. change (exec (ret ?a) ?s) with s.
      rewrite clock_release.
      destruct (Z.eqb_spec (integer - lastInteger) 0); lia.
    + rewrite exec_bind. change (exec (ret ?a) ?s) with s.
      rewrite clock_consume. lia.
  - rewrite exec_bind, exec_bind. change (exec (ret ?a) ?s) with s.
    rewrite clock_release, clock_consume.
    destruct (Z.eqb_spec integer 0); lia.
Qed.

(** X23.  The sender keeps its schedule: with timers that fire on time,
    its turn for pulse i ends one settling time (two in Firefox) after
    the later of the pulse's start and the present; so when that is no
    more than a pulse and the turn began on time, so does the next. *)
Theorem sender_keeps_schedule kBrowser lst startTime i d lastInteger st :
  lst !! i = Some d → 0 ≤ d → 0 ≤ settlingTimeMs pool →
  let turn := match kBrowser with Chrome => 1 | Firefox => 2 end
              * settlingTimeMs pool in
  let st' := exec (send_pulse await pool kBrowser lst startTime i lastInteger)
               st in
  now (world st')
  = Z.max (now (world st)) (send_time pool startTime i) + turn
  ∧ (now (world st) ≤ send_time pool startTime i → turn ≤ pulseMs pool →
     now (world st') ≤ send_time pool startTime (S i)).
Proof.
  intros Hd Hd0 Hs turn st'.
  assert (now (world st')
          = Z.max (now (world st)) (send_time pool startTime i) + turn) as E.
  { subst st'. unfold send_pulse. rewrite exec_bind, Hd, exec_bind.
    change (exec (ret ?a) ?s) with s.
    rewrite clock_adjust by lia.
    change (inject_Z (startTime + (Z.of_nat i + 1) * pulseMs pool))
      with (inject_Z (send_time pool startTime i)).
    by rewrite sleepUntil_clock, Qfloor_Z. }
  split; [exact E|]. intros Hnow Hturn. rewrite E.
  unfold send_time in *. lia.
Qed.

End ClockFacts.

(** ** Worked instances *)

(** Settles a decidable proposition about concrete data by evaluation. *)
Ltac by_computation := apply (bool_decide_unpack _); vm_compute; exact I.



Lemma release_oldest_first_witness :
  let await := shared_pool 10 in
  let pool := constants Firefox in
  let st := four_of_ten in
  let n := Z.min 3 (eval held st) in
  let gone := take (Z.to_nat n) (_sockets st) in
  let st' := exec (release await pool 3) st in
  eval (release await pool 3) st = n
  ∧ _sockets st' = drop (Z.to_nat n) (_sockets st)
  ∧ eval held st' = eval held st - n
  ∧ (0 < 3 →
     world st'
     = await (inject_Z (settlingTimeMs pool)) (close_all gone (world st))
     ∧ calls st'
       = calls st ++ (Close <$> gone)
         ++ [SetTimeout (inject_Z (settlingTimeMs pool))])
  ∧ (3 = 0 → world st' = world st ∧ calls st' = calls st).
Proof.
  apply (release_oldest_first (shared_pool 10) (constants Firefox)
           four_of_ten 3).
  - by_computation.
  - lia.
Defined.

(** C8 as stated fails at max = 0: nothing is awaited, the log of calls
    does not grow by a timer. *)
Lemma release_zero_does_not_wait :
  let await := shared_pool 10 in
  let pool := constants Firefox in
  let st' := exec (release await pool 0) four_of_ten in
  ¬ (eval (release await pool 0) four_of_ten = Z.min 0 (eval held four_of_ten)
     ∧ calls st'
       = calls four_of_ten
         ++ [SetTimeout (inject_Z (settlingTimeMs pool))]).
Proof. intros await pool st' [_ Hcalls]. vm_compute in Hcalls. discriminate. Qed.

Lemma release_never_on_empty_witness :
  let await := shared_pool 10 in
  let pool := constants Firefox in
  let st := four_of_ten in
  let gone := take (Z.to_nat (Z.min 7 (eval held st))) (_sockets st) in
  let added :=
    (Close <$> gone)
    ++ (if 7 =? 0 then []
        else [SetTimeout (inject_Z (settlingTimeMs pool))]) in
  calls (exec (release await pool 7) st) = calls st ++ added
  ∧ Z.of_nat (length gone) ≤ eval held st
  ∧ TypeError ∉ added.
Proof.
  apply (release_never_on_empty (shared_pool 10) (constants Firefox)
           four_of_ten 7).
  by_computation.
Defined.

Lemma isSender_decides_witness :
  let await := shared_pool 10 in
  let pool := constants Firefox in
  let st := four_of_ten in
  let released := exec (release await pool (eval held st)) st in
  let raced := exec (isSender_race await pool) st in
  let st' := exec (isSender await pool) st in
  let settling := inject_Z (settlingTimeMs pool) in
  let closing := close_all (_sockets raced) (world raced) in
  eval held released = 0
  ∧ raced = exec (consume await pool (maxSlots pool)) released
  ∧ ((inject_Z (eval held raced) < inject_Z (maxSlots pool) / 2)%Q →
     eval (isSender await pool) st = false
     ∧ eval held st' = 0
     ∧ calls st'
       = calls raced ++ (Close <$> _sockets raced)
         ++ (if eval held raced =? 0 then [] else [SetTimeout settling])
     ∧ Forall (λ socket, 2 ≤ readyState closing socket) (_sockets raced)
     ∧ world st'
       = (if eval held raced =? 0 then world raced
          else await settling closing))
  ∧ (¬ (inject_Z (eval held raced) < inject_Z (maxSlots pool) / 2)%Q →
     eval (isSender await pool) st = true
     ∧ _sockets st' = _sockets raced ∧ world st' = world raced
     ∧ calls st' = calls raced).
Proof.
  apply (isSender_decides (shared_pool 10) (constants Firefox) four_of_ten).
  by_computation.
Defined.

Lemma held_within_capacity_witness :
  0 ≤ eval held
        (exec (bulk_all (shared_pool 255) (constants Chrome)
                 [Consume 510; Release 3; Consume 10])
           (empty_pool (mkWorld [] 0)))
    ≤ maxSlots (constants Chrome).
Proof.
  apply (held_within_capacity 255 (constants Chrome) (shared_pool 255)).
  - intros interval w. reflexivity.
  - reflexivity.
  - vm_compute. lia.
Defined.

Lemma cycle_start_rounds_witness :
  let await := shared_pool 255 in
  let pool := constants Chrome in
  let st := fresh_page 1000 in
  let interval := (1 + listSize pool) * pulseMs pool in
  let t := now (world st) in
  let target := next_round_interval t interval in
  let delay := (inject_Z target - inject_Z t)%Q in
  (target mod interval = 0 ∧ t ≤ target
   ∧ ∀ m, m mod interval = 0 → t ≤ m → target ≤ m)
  ∧ calls (exec (cycle_start await pool) st) = calls st ++ [SetTimeout delay]
  ∧ eval (cycle_start await pool) st = now (await delay (world st))
  ∧ (eval (cycle_start await pool) st = target
     ↔ now (await delay (world st)) = target).
Proof.
  apply (cycle_start_rounds (shared_pool 255) (constants Chrome)
           (fresh_page 1000)).
  vm_compute. reflexivity.
Defined.

(** C9 as stated fails when the timer fires late: the page went to sleep
    at 1000 for the round at 1200 and reads 1203 on waking. *)
Lemma cycle_start_late :
  let t0 := eval (cycle_start (late_timer 3 (shared_pool 255))
                    (constants Chrome)) (fresh_page 1000) in
  t0 = 1203
  ∧ ¬ (t0 mod 300 = 0 ∧ 1000 ≤ t0
       ∧ ∀ m, m mod 300 = 0 → 1000 ≤ m → t0 ≤ m).
Proof.
  split; [reflexivity|]. intros [H _]. vm_compute in H. discriminate.
Qed.

Lemma receiver_schedule_witness :
  let await := shared_pool 255 in
  let pool := constants Chrome in
  let before := receive_loop await pool 0 2 0 [] (fresh_page 0) in
  let timeMs := receive_time pool 0 2 in
  let delay := (timeMs - inject_Z (now (world before.2)))%Q in
  let woken := exec (sleepUntil await timeMs) before.2 in
  let integer := eval (probe await pool (maxValue pool)) woken in
  (timeMs == inject_Z (0 + (Z.of_nat 2 + 1) * pulseMs pool)
             + (1 # 4) * inject_Z (pulseMs pool))%Q
  ∧ calls woken = calls before.2 ++ [SetTimeout delay]
  ∧ world woken = await delay (world before.2)
  ∧ receive_loop await pool 0 3 0 [] (fresh_page 0)
    = (before.1 ++ [integer - 1],
       exec (probe await pool (maxValue pool)) woken)
  ∧ receive_loop await pool 0 (Z.to_nat (listSize pool)) 0 [] (fresh_page 0)
    = receive_loop await pool 0 (Z.to_nat (listSize pool) - 3) 3
        (before.1 ++ [integer - 1])
        (exec (probe await pool (maxValue pool)) woken).
Proof.
  apply (receiver_schedule (shared_pool 255) (constants Chrome) 0
           (fresh_page 0) 2).
  vm_compute. lia.
Defined.

(** C3 as stated fails: in turn 0 of a cycle that starts at 0, with
    pulses of 50 ms, the receiver asks for a timer of 62.5 ms, not of
    12.5 ms. *)
Lemma receiver_not_at_quarter_pulse :
  let woken := exec (sleepUntil (shared_pool 255)
                       (receive_time (constants Chrome) 0 0)) (fresh_page 0) in
  (∃ delay, calls woken = [SetTimeout delay] ∧ (delay == 125 # 2)%Q)
  ∧ ¬ (∃ delay, calls woken = [SetTimeout delay]
                ∧ (delay == inject_Z 0 + (inject_Z 0 + (1 # 4)) * inject_Z 50
                            - inject_Z 0)%Q).
Proof.
  split.
  - eexists. split; [reflexivity|]. reflexivity.
  - intros (delay & Hc & Hd). vm_compute in Hc. injection Hc as <-.
    vm_compute in Hd. discriminate.
Qed.

(** A browser with late timers is still the same pool. *)
Lemma late_timer_settles cap lateness interval w :
  heap (late_timer lateness (shared_pool cap) interval w)
  = settle cap (heap w).
Proof. reflexivity. Qed.

Lemma empty_sole_holder t : sole_holder (fresh_page t).
Proof.
  split_and!; [apply NoDup_nil_2 | constructor |].
  intros i. simpl. rewrite lookup_nil. set_solver.
Qed.

Lemma digit_fidelity_witness :
  let await := shared_pool 255 in
  let pool := constants Chrome in
  let lst := Codec.bigIntegerToList 123456789 (listSize pool) (maxValue pool) in
  let '(lastInteger, integerList, sender, receiver) :=
    transfer await pool Chrome lst 0 2 0 0 []
      (exec (send_baseline await pool) (fresh_page 0)) (fresh_page 0) in
  let send := send_pulse await pool Chrome lst 0 2 lastInteger in
  let sender' := exec send sender in
  let receive := receive_pulse await pool 0 2 integerList in
  let woken := exec (sleepUntil await (receive_time pool 0 2))
                 (hand_over sender' receiver) in
  let receiver' := exec receive (hand_over sender' receiver) in
  0 ≤ 111 ≤ maxValue pool - 1
  ∧ eval held sender' = maxSlots pool - (111 + 1)
  ∧ eval (probe await pool (maxValue pool)) woken = 111 + 1
  ∧ eval receive (hand_over sender' receiver) = take 2 lst ++ [111]
  ∧ eval held (hand_over receiver' sender') = maxSlots pool - (111 + 1).
Proof.
  apply (digit_fidelity 255 (constants Chrome) (shared_pool 255)
           ltac:(intros interval w; reflexivity)
           Chrome 123456789 0 (fresh_page 0) (fresh_page 0) 2 111).
  - reflexivity.
  - vm_compute. split; [reflexivity | discriminate].
  - lia.
  - apply empty_sole_holder.
  - vm_compute. discriminate.
  - reflexivity.
  - vm_compute. reflexivity.
Defined.

(** C1 as stated fails: after the adjustment for the digit 21 the
    transmitter holds 233 of the 255 sockets, not 22; it is the number of
    unheld slots that is 22. *)
Lemma sender_holds_the_complement :
  let await := shared_pool 255 in
  let pool := constants Chrome in
  let lst := Codec.bigIntegerToList 123456789 (listSize pool) (maxValue pool) in
  let sender := exec (send_baseline await pool) (fresh_page 0) in
  let sender' := exec (send_pulse await pool Chrome lst 0 0 0) sender in
  lst !! 0%nat = Some 21
  ∧ eval held sender' = 233
  ∧ ¬ (eval held sender' = 21 + 1).
Proof.
  vm_compute. split_and!; [reflexivity | reflexivity | discriminate].
Qed.

(** Both adjustment strategies, run on the payload 123456789. *)
Example transfer_runs :
  ∀ kBrowser,
  let pool := constants kBrowser in
  let lst := Codec.bigIntegerToList 123456789 (listSize pool) (maxValue pool) in
  let '(_, integerList, sender, receiver) :=
    transfer (shared_pool 255) pool kBrowser lst 0 5 0 0 []
      (exec (send_baseline (shared_pool 255) pool) (fresh_page 0))
      (fresh_page 0) in
  integerList = [21; 26; 111; 58; 0]
  ∧ Codec.listToBigInteger integerList 5 128 = Some 123456789
  ∧ eval held sender = 254 ∧ eval held receiver = 0.
Proof. intros []; vm_compute; repeat split. Qed.

(** ** Worked instances of the further properties *)

Lemma consume_all_kept_witness :
  let await := shared_pool 10 in
  let pool := constants Firefox in
  let st := four_of_ten in
  eval (consume await pool 3) st = 3
  ∧ _sockets (exec (consume await pool 3) st)
    = _sockets st ++ seq (length (heap (world st))) (Z.to_nat 3).
Proof.
  apply (consume_all_kept (shared_pool 10) (constants Firefox) four_of_ten 3);
    [lia | by_computation | by_computation].
Defined.

Lemma release_negative_witness :
  let await := shared_pool 10 in
  let pool := constants Firefox in
  let st := four_of_ten in
  let st' := exec (release await pool (-2)) st in
  eval (release await pool (-2)) st = -2
  ∧ _sockets st' = _sockets st
  ∧ world st' = await (inject_Z (settlingTimeMs pool)) (world st)
  ∧ calls st' = calls st ++ [SetTimeout (inject_Z (settlingTimeMs pool))].
Proof.
  apply (release_negative (shared_pool 10) (constants Firefox) four_of_ten
           (-2)).
  lia.
Defined.

Lemma probe_held_is_min_witness :
  let await := shared_pool 10 in
  let pool := constants Firefox in
  let st := four_of_ten in
  eval held (exec (probe await pool 128) st)
  = Z.min (eval held st) (eval held (exec (consume await pool 128) st))
  ∧ eval (probe await pool 128) st
    = eval held (exec (consume await pool 128) st) - eval held st.
Proof.
  apply (probe_held_is_min (shared_pool 10) (constants Firefox) four_of_ten
           128).
  by_computation.
Defined.

Lemma probe_releases_oldest_witness :
  let await := shared_pool 10 in
  let pool := constants Firefox in
  let st := four_of_ten in
  let st' := exec (probe await pool 3) st in
  (Close 0%nat ∈ calls st')
  ∧ (0%nat ∉ _sockets st')
  ∧ eval held st' = eval held st.
Proof.
  apply (probe_releases_oldest (shared_pool 10) (constants Firefox)
           four_of_ten 3 0%nat [1; 2; 3]%nat).
  - by_computation.
  - reflexivity.
  - by_computation.
  - vm_compute. reflexivity.
Defined.

Lemma probe_measures_headroom_witness :
  eval (probe (shared_pool 10) (constants Firefox) 128) four_of_ten
  = Z.of_nat (Z.to_nat 128 `min` (10 - count_open (heap (world four_of_ten)))).
Proof.
  apply (probe_measures_headroom 10 (constants Firefox) (shared_pool 10)
           ltac:(intros interval w; reflexivity) 128 four_of_ten).
  - by_computation.
  - by_computation.
  - apply Forall_forall. by_computation.
Defined.

Lemma isSender_alone_witness :
  let await := shared_pool 255 in
  let pool := constants Chrome in
  let st' := exec (isSender await pool) (fresh_page 0) in
  eval (isSender await pool) (fresh_page 0) = true
  ∧ eval held st' = maxSlots pool
  ∧ sole_holder st'.
Proof.
  apply (isSender_alone 255 (constants Chrome) (shared_pool 255)
           ltac:(intros interval w; reflexivity) (fresh_page 0)).
  - reflexivity.
  - apply empty_sole_holder.
Defined.

(** A page that has got 200 sockets of a pool of 255 where nobody else
    holds any. *)
Lemma consume_200_sole :
  sole_holder (exec (consume (shared_pool 255) (constants Chrome) 200)
                 (fresh_page 0)).
Proof.
  pose proof (sole_consume 255 (constants Chrome) (shared_pool 255)
                ltac:(intros interval w; reflexivity) 200 (fresh_page 0)
                (empty_sole_holder 0)) as H.
  cbv zeta in H. by destruct H as [H _].
Qed.


Lemma isSender_against_holder_witness :
  let await := shared_pool 255 in
  let pool := constants Chrome in
  let holder := exec (consume await pool 200) (fresh_page 0) in
  let st := hand_over holder (fresh_page 0) in
  let room := maxSlots pool - eval held holder in
  let st' := exec (isSender await pool) st in
  (eval (isSender await pool) st = true ↔ maxSlots pool ≤ 2 * room)
  ∧ (eval (isSender await pool) st = false →
     _sockets st' = [] ∧ sole_holder (hand_over st' holder)).
Proof.
  apply (isSender_against_holder 255 (constants Chrome) (shared_pool 255)
           ltac:(intros interval w; reflexivity)
           (exec (consume (shared_pool 255) (constants Chrome) 200)
              (fresh_page 0))
           (hand_over (exec (consume (shared_pool 255) (constants Chrome) 200)
                         (fresh_page 0)) (fresh_page 0))).
  - reflexivity.
  - apply consume_200_sole.
  - vm_compute. discriminate.
  - reflexivity.
  - vm_compute. reflexivity.
Defined.

Lemma sendInteger_alone_witness :
  let await := shared_pool 255 in
  let pool := constants Chrome in
  let nHexDigits := Codec.Math_ceil_div (numBits pool) 4 in
  let lst := Codec.bigIntegerToList 123456789 (listSize pool) (maxValue pool) in
  let st' := exec (sendInteger await pool Chrome 123456789 0) (fresh_page 0) in
  eval (sendInteger await pool Chrome 123456789 0) (fresh_page 0)
  = Codec.fixedHex (Z.to_nat nHexDigits) 123456789
  ∧ sole_holder st'
  ∧ eval held st'
    = maxSlots pool - match last lst with Some d => 1 + d | None => 0 end.
Proof.
  apply (sendInteger_alone 255 (constants Chrome) (shared_pool 255)
           ltac:(intros interval w; reflexivity) Chrome 123456789 0
           (fresh_page 0) 7).
  - reflexivity.
  - simpl. lia.
  - lia.
  - reflexivity.
  - by vm_compute.
  - vm_compute. split; [discriminate | reflexivity].
  - apply empty_sole_holder.
  - vm_compute. discriminate.
Defined.

Lemma run_alone_witness :
  let await := shared_pool 255 in
  let pool := constants Chrome in
  let nHexDigits := Codec.Math_ceil_div (numBits pool) 4 in
  let payload := λ j : nat, 1000 * Z.of_nat j mod 2 ^ 35 in
  eval (run await pool Chrome payload) (fresh_page 1000)
  = (λ j, (true, Codec.fixedHex (Z.to_nat nHexDigits) (payload j)))
    <$> seq 0 10
  ∧ sole_holder (exec (run await pool Chrome payload) (fresh_page 1000)).
Proof.
  apply (run_alone 255 (constants Chrome) (shared_pool 255)
           ltac:(intros interval w; reflexivity) Chrome
           (λ j : nat, 1000 * Z.of_nat j mod 2 ^ 35) (fresh_page 1000) 7).
  - reflexivity.
  - simpl. lia.
  - lia.
  - reflexivity.
  - by vm_compute.
  - intros j. change (maxValue (constants Chrome) ^ listSize (constants Chrome))
      with (2 ^ 35). apply Z.mod_pos_bound. lia.
  - apply empty_sole_holder.
Defined.


Lemma negotiate_then_transfer_witness :
  let await := shared_pool 255 in
  let pool := constants Firefox in
  let sender := exec (isSender await pool) (fresh_page 0) in
  let receiver := exec (isSender await pool)
                    (hand_over sender (fresh_page 0)) in
  let lst := Codec.bigIntegerToList 123456789 (listSize pool) (maxValue pool) in
  let '(_, integerList, _, _) :=
    transfer await pool Firefox lst 0 (Z.to_nat (listSize pool)) 0 0 []
      (exec (send_baseline await pool) (hand_over receiver sender))
      receiver in
  eval (isSender await pool) (fresh_page 0) = true
  ∧ eval (isSender await pool) (hand_over sender (fresh_page 0)) = false
  ∧ integerList = lst
  ∧ receiveInteger_result pool integerList
    = Codec.fixedHex (Z.to_nat (Codec.Math_ceil_div (numBits pool) 4))
        123456789
  ∧ ∀ st, eval (sendInteger await pool Firefox 123456789 0) st
          = Codec.fixedHex (Z.to_nat (Codec.Math_ceil_div (numBits pool) 4))
              123456789.
Proof.
  apply (negotiate_then_transfer 255 (constants Firefox) (shared_pool 255)
           ltac:(intros interval w; reflexivity) Firefox 123456789 0
           (fresh_page 0) (fresh_page 0) 7).
  - reflexivity.
  - simpl. lia.
  - lia.
  - reflexivity.
  - by vm_compute.
  - vm_compute. split; [discriminate | reflexivity].
  - apply empty_sole_holder.
  - reflexivity.
Defined.

Lemma sleepUntil_wakes_witness :
  let await := shared_pool 10 in
  let st := four_of_ten in
  let st' := exec (sleepUntil await (5 # 2)) st in
  eval (sleepUntil await (5 # 2)) st = Z.max (now (world st)) (Qfloor (5 # 2))
  ∧ now (world st') = Z.max (now (world st)) (Qfloor (5 # 2))
  ∧ (Qfloor (5 # 2) ≤ now (world st) → now (world st') = now (world st)).
Proof.
  apply (sleepUntil_wakes (shared_pool 10)
           ltac:(intros interval w; reflexivity) (5 # 2)%Q four_of_ten).
Defined.

Lemma cycle_start_agrees_witness :
  let await := shared_pool 255 in
  let pool := constants Chrome in
  eval (cycle_start await pool) (fresh_page 1000) = 4 * 300
  ∧ now (world (exec (cycle_start await pool) (fresh_page 1000))) = 4 * 300.
Proof.
  apply (cycle_start_agrees (shared_pool 255) (constants Chrome)
           ltac:(intros interval w; reflexivity) 4 (fresh_page 1000)).
  - reflexivity.
  - simpl. lia.
Defined.

Lemma bulk_durations_witness :
  let await := shared_pool 10 in
  let pool := constants Firefox in
  let after (m : M Z) :=
    now (world (exec m four_of_ten)) - now (world four_of_ten) in
  after (consume await pool 3) = settlingTimeMs pool
  ∧ after (release await pool 3) = (if 3 =? 0 then 0 else settlingTimeMs pool)
  ∧ after (probe await pool 3)
    = settlingTimeMs pool
      + (if eval (probe await pool 3) four_of_ten =? 0 then 0
         else settlingTimeMs pool).
Proof.
  apply (bulk_durations (shared_pool 10) (constants Firefox)
           ltac:(intros interval w; reflexivity) 3 four_of_ten).
  simpl. lia.
Defined.

Lemma sender_keeps_schedule_witness :
  let await := shared_pool 255 in
  let pool := constants Firefox in
  let st := exec (send_baseline await pool) (fresh_page 0) in
  let turn := 2 * settlingTimeMs pool in
  let st' := exec (send_pulse await pool Firefox [21; 26] 0 1 22) st in
  now (world st') = Z.max (now (world st)) (send_time pool 0 1) + turn
  ∧ (now (world st) ≤ send_time pool 0 1 → turn ≤ pulseMs pool →
     now (world st') ≤ send_time pool 0 2).
Proof.
  apply (sender_keeps_schedule (shared_pool 255) (constants Firefox)
           ltac:(intros interval w; reflexivity) Firefox [21; 26] 0 1 26 22
           (exec (send_baseline (shared_pool 255) (constants Firefox))
              (fresh_page 0))).
  - reflexivity.
  - lia.
  - simpl. lia.
Defined.
